(** * simpler-fetch: the object-oriented builder [oof] (src/oof.ts)

    A shallow embedding of the chainable request builder and of its two
    terminal operations [run] and [runJSON], followed by the properties
    of URL resolution, header merging, option overlay, dispatch and
    failure propagation. *)

From Stdlib Require Import Ascii.
From stdpp Require Import gmap strings list fin_maps pretty.

Set Warnings "-register-all".

(** ** JavaScript values

    Only the part of the value space the builder handles: what
    [JSON.parse] can produce, plus [undefined].  Objects are finite maps
    from property names to values; the enumeration order of properties
    is not modelled.  A string is its sequence of code units, here the
    code units below 256; a number is an integer, and nothing the
    builder does computes with one. *)

Inductive JSValue : Type :=
  | VUndefined
  | VNull
  | VBool (b : bool)
  | VNum (n : Z)
  | VStr (s : string)
  | VArr (l : list JSValue)
  | VObj (m : gmap string JSValue).

Abbreviation JSObject := (gmap string JSValue).

(** [{ ...base, ...over }]: the properties of [over] are copied after
    those of [base], so they win on equal keys. *)
Definition spread2 (base over : JSObject) : JSObject := over ∪ base.

(** The properties an object spread [...v] copies from an arbitrary
    value: the own enumerable string-keyed ones.  [null], [undefined],
    booleans and numbers have none, a string has its code units under
    their indices, an array its elements under their indices. *)
Definition indexed {A} (f : A → JSValue) (l : list A) : JSObject :=
  list_to_map (imap (λ i a, (pretty i, f a)) l).

Definition own_props (v : JSValue) : JSObject :=
  match v with
  | VObj m => m
  | VArr l => indexed id l
  | VStr s => indexed (λ c, VStr (String c EmptyString)) (String.list_ascii_of_string s)
  | VUndefined | VNull | VBool _ | VNum _ => ∅
  end.

(** [Array.prototype.reduce] with an initial value. *)
Definition reduce {A B} (f : B → A → B) (init : B) (l : list A) : B :=
  fold_left f l init.

(** ** The regular expression of [run]

    [/https:\/\/|http:\/\//i] has no [u] flag, so ignoring case only
    identifies a Latin letter with its other case: no code unit outside
    ASCII is canonicalised to an ASCII one. *)

Definition is_upper (c : ascii) : bool :=
  let n := Ascii.nat_of_ascii c in (65 <=? n)%nat && (n <=? 90)%nat.

Definition canonicalize (c : ascii) : ascii :=
  if is_upper c then Ascii.ascii_of_nat (Ascii.nat_of_ascii c + 32) else c.

Definition char_matches (p c : ascii) : bool :=
  bool_decide (canonicalize p = canonicalize c).

(** The literal [lit] matches at the start of [s]. *)
Fixpoint match_here (lit s : string) : bool :=
  match lit, s with
  | EmptyString, _ => true
  | String _ _, EmptyString => false
  | String p lit', String c s' => char_matches p c && match_here lit' s'
  end.

(** The alternation [https:// | http://] matches at the start of [s]. *)
Definition scheme_here (s : string) : bool :=
  match_here "https://" s || match_here "http://" s.

(** [s.match(re)] is truthy: the pattern matches at some position. *)
Fixpoint match_scheme (s : string) : bool :=
  scheme_here s ||
  match s with
  | EmptyString => false
  | String _ s' => match_scheme s'
  end.

(** The letter-case folding of a whole string, for stating that the
    test does not depend on case. *)
Definition lower_string (s : string) : string :=
  String.string_of_list_ascii (canonicalize <$> String.list_ascii_of_string s).

(** The spec's description of the same test: somewhere in the string
    there is a substring that reads [http://] or [https://], each letter
    small or capital.  It is written out letter by letter and owes
    nothing to the definitions above. *)
Definition either (small capital c : ascii) : Prop := c = small ∨ c = capital.

Definition spells_http (s : string) : Prop :=
  ∃ c1 c2 c3 c4,
    s = String c1 (String c2 (String c3 (String c4 "://"))) ∧
    either "h" "H" c1 ∧ either "t" "T" c2 ∧ either "t" "T" c3 ∧
    either "p" "P" c4.

Definition spells_https (s : string) : Prop :=
  ∃ c1 c2 c3 c4 c5,
    s = String c1 (String c2 (String c3 (String c4 (String c5 "://")))) ∧
    either "h" "H" c1 ∧ either "t" "T" c2 ∧ either "t" "T" c3 ∧
    either "p" "P" c4 ∧ either "s" "S" c5.

Definition contains_scheme (s : string) : Prop :=
  ∃ pre mid post : string,
    s = pre +:+ mid +:+ post ∧ (spells_http mid ∨ spells_https mid).

(** ** The type [HTTPMethod] (oof.ts, lines 7-14) *)

Module HTTP.
Inductive HTTPMethod : Set :=
  HEAD | OPTIONS | GET | POST | PUT | PATCH | DELETE.

(** The string literal each member of the union is. *)
Definition verb (m : HTTPMethod) : string :=
  match m with
  | HEAD => "HEAD" | OPTIONS => "OPTIONS" | GET => "GET" | POST => "POST"
  | PUT => "PUT" | PATCH => "PATCH" | DELETE => "DELETE"
  end.
End HTTP.
Abbreviation HTTPMethod := HTTP.HTTPMethod.

(** References to heap-allocated objects. *)
Abbreviation loc := positive.

(** ** The class [oof] *)

Module oof.
Section collaborators.

(** [Ext] is the state of the world outside the builder, on which the
    callable header sources and the transport act; [Err] is whatever
    they throw or reject with. *)
Context {Ext Err : Type}.

(** How a promise settles, and how a synchronous call completes. *)
Inductive Settled (A : Type) : Type :=
  | Fulfilled (a : A)
  | Rejected (e : Err).
Inductive Completion (A : Type) : Type :=
  | Normal (a : A)
  | Throw (e : Err).
Global Arguments Fulfilled {A} a.
Global Arguments Rejected {A} e.
Global Arguments Normal {A} a.
Global Arguments Throw {A} e.

(** A promise, with the logical time at which it settles. *)
Record Promise (A : Type) : Type := mkPromise {
  settles_at : nat;
  settlement : Settled A;
}.
Global Arguments mkPromise {A} _ _.
Global Arguments settles_at {A} _.
Global Arguments settlement {A} _.

(** What a header source yields when [run] maps over the array: a
    header object at once, or a promise of one. *)
Inductive Returned : Type :=
  | Now (o : JSObject)
  | Later (p : Promise JSObject).

(** A call a header function may make on a builder it holds, which can
    be the builder that is being run: [on.options(o)] or [on.data(d)]. *)
Inductive Setter : Type :=
  | SetOptions (on : loc) (o : JSObject)
  | SetData (on : loc) (d : JSValue).

(** [type Header = Object | Function] (line 4).  A function takes no
    argument; called in the outside world [x], it either throws or
    returns, and what it returns is a header object (a synchronous
    function) or a promise of one (an asynchronous function): that is
    [f x], with the outside world it leaves.  On the way it may call
    setters of builders: these are [calls x], in the order of the
    calls.  A function constructs no builder, adds no
    header source, starts no terminal call and does not assign the base
    URL, and what it does, it does when it is called. *)
Inductive Header : Type :=
  | HObject (o : JSObject)
  | HFunction (f : Ext → Completion Returned * Ext) (calls : Ext → list Setter).

(** The response of the transport: the two fields [runJSON] reads and
    the settlement of [response.json()]. *)
Record Response : Type := mkResponse {
  ok : bool;
  status : Z;
  json : Settled JSValue;
}.

(** The transport primitive, imported from "./_fetch". *)
Variable _fetch : string → JSObject → JSValue → Ext → Settled Response * Ext.

(** The private instance variables (lines 27-33); [#x] is written
    [p_x].  [p_headers] is a reference: the constructor keeps the
    caller's array when given one, and [header] pushes onto it in
    place.  [#data] is [undefined] until [data] is called. *)
Record obj : Type := mkObj {
  p_method : HTTPMethod;
  p_headers : loc;
  p_path : string;
  p_opts : JSObject;
  p_data : JSValue;
}.

(** The calls the builder makes to its collaborators, in order. *)
Inductive Event : Type :=
  | CallHeader (i : nat)
  | CallFetch (url : string) (init : JSObject) (body : JSValue).

Record World : Type := mkWorld {
  _baseUrl : string;
  instances : gmap loc obj;
  arrays : gmap loc (list Header);
  ext : Ext;
  trace : list Event;
}.

Definition set_baseUrl (s : string) (w : World) : World :=
  mkWorld s (instances w) (arrays w) (ext w) (trace w).
Definition set_instances (f : gmap loc obj → gmap loc obj) (w : World) : World :=
  mkWorld (_baseUrl w) (f (instances w)) (arrays w) (ext w) (trace w).
Definition set_arrays (f : gmap loc (list Header) → gmap loc (list Header))
    (w : World) : World :=
  mkWorld (_baseUrl w) (instances w) (f (arrays w)) (ext w) (trace w).
Definition set_ext (x : Ext) (w : World) : World :=
  mkWorld (_baseUrl w) (instances w) (arrays w) x (trace w).
Definition log (ev : Event) (w : World) : World :=
  mkWorld (_baseUrl w) (instances w) (arrays w) (ext w) (trace w ++ [ev]).

(** [static _baseUrl = ""] (line 24): the world in which the module
    has just been loaded. *)
Definition init (x : Ext) : World := mkWorld "" ∅ ∅ x [].

(** A computation on the world; [None] is a dangling reference, which
    no JavaScript program can produce. *)
Definition M (A : Type) : Type := World → option (A * World).

(** *** Construction (lines 36-114) *)

Inductive HeadersArg : Type :=
  | Single (h : Header)
  | Array (a : loc).

Definition alloc_array (l : list Header) (w : World) : loc * World :=
  let a := fresh (dom (arrays w)) in (a, set_arrays <[a := l]> w).

(** [constructor({ method, path, opts = {}, headers = [] })]. *)
Definition new (method : HTTPMethod) (path : string)
    (opts : option JSObject) (headers : option HeadersArg) : M loc := λ w,
  let opts := default ∅ opts in
  let '(harr, w) :=
    match headers with
    | None => alloc_array [] w
    | Some (Array a) => (a, w)
    | Some (Single h) => alloc_array [h] w
    end in
  let this := fresh (dom (instances w)) in
  Some (this, set_instances <[this := mkObj method harr path opts VUndefined]> w).

Definition _METHODS_WO_DATA (method : HTTPMethod) (path : string) : M loc :=
  new method path None None.

Definition _METHODS_WITH_DATA (method : HTTPMethod) (path : string) : M loc :=
  new method path None
    (Some (Single (HObject {[ "Content-Type" := VStr "application/json" ]}))).

Definition GET (path : string) : M loc := new HTTP.GET path None None.
Definition POST (path : string) : M loc := _METHODS_WITH_DATA HTTP.POST path.
Definition PUT (path : string) : M loc := _METHODS_WITH_DATA HTTP.PUT path.
Definition DEL (path : string) : M loc := new HTTP.DELETE path None None.

(** *** The chainable setters (lines 131-160); each returns [this] *)

Definition options (this : loc) (o : JSObject) : M loc := λ w,
  b ← instances w !! this;
  Some (this, set_instances
    <[this := mkObj (p_method b) (p_headers b) (p_path b) o (p_data b)]> w).

Definition header (this : loc) (h : Header) : M loc := λ w,
  b ← instances w !! this;
  hs ← arrays w !! p_headers b;
  Some (this, set_arrays <[p_headers b := hs ++ [h]]> w).

Definition data (this : loc) (d : JSValue) : M loc := λ w,
  b ← instances w !! this;
  Some (this, set_instances
    <[this := mkObj (p_method b) (p_headers b) (p_path b) (p_opts b) d]> w).

(** *** [run] (lines 164-198)

    [run] is an [async] function with one [await].  The arguments of
    [_fetch] are evaluated from left to right: the URL and
    [this.#method] before the [await], [this.#opts] and [this.#data]
    after it.  So the call falls into two parts, between which the
    caller, to whom a pending promise has been returned, goes on. *)

(** The first argument of [_fetch]. *)
Definition target_url (base path : string) : string :=
  if match_scheme path then path else base +:+ path.

(** A setter called by a header function. *)
Definition call_setter (s : Setter) (w : World) : World :=
  match
    match s with
    | SetOptions on o => options on o w
    | SetData on d => data on d w
    end
  with
  | Some (_, w') => w'
  | None => w
  end.

Definition call_setters (ss : list Setter) (w : World) : World :=
  fold_left (λ w s, call_setter s w) ss w.

(** The callback of [this.#headers.map]:
    [typeof header === "function" ? header() : header]. *)
Definition header_value (h : Header) (i : nat) (w : World)
    : Completion Returned * World :=
  match h with
  | HFunction f calls =>
      let '(c, x) := f (ext w) in
      (c, call_setters (calls (ext w)) (log (CallHeader i) (set_ext x w)))
  | HObject o => (Normal (Now o), w)
  end.

(** [Array.prototype.map]: the callback runs on the elements in index
    order, and a throw ends the traversal. *)
Fixpoint array_map (hs : list Header) (i : nat) (w : World)
    : Completion (list Returned) * World :=
  match hs with
  | [] => (Normal [], w)
  | h :: hs' =>
      match header_value h i w with
      | (Throw e, w) => (Throw e, w)
      | (Normal r, w) =>
          match array_map hs' (S i) w with
          | (Throw e, w) => (Throw e, w)
          | (Normal rs, w) => (Normal (r :: rs), w)
          end
      end
  end.

(** [Promise.all]: rejected as soon as one element rejects, so with
    the reason of the earliest rejection (of the lower index when two
    rejections are simultaneous); fulfilled with all the values
    otherwise. *)
Fixpoint earliest_rejection (rs : list Returned) : option (nat * Err) :=
  match rs with
  | [] => None
  | Later (mkPromise t (Rejected e)) :: rs' =>
      match earliest_rejection rs' with
      | Some (t', e') => if (t' <? t)%nat then Some (t', e') else Some (t, e)
      | None => Some (t, e)
      end
  | _ :: rs' => earliest_rejection rs'
  end.

Fixpoint fulfilled_values (rs : list Returned) : list JSObject :=
  match rs with
  | [] => []
  | Now o :: rs' => o :: fulfilled_values rs'
  | Later (mkPromise _ (Fulfilled o)) :: rs' => o :: fulfilled_values rs'
  | Later (mkPromise _ (Rejected _)) :: rs' => fulfilled_values rs'
  end.

Definition promise_all (rs : list Returned) : Settled (list JSObject) :=
  match earliest_rejection rs with
  | Some (_, e) => Rejected e
  | None => Fulfilled (fulfilled_values rs)
  end.

(** [.reduce((obj, item) => ({ ...obj, ...item }), {})]. *)
Definition merge_headers (items : list JSObject) : JSObject :=
  reduce (λ obj item, spread2 obj item) ∅ items.

(** The second argument of [_fetch]:
    [{ method: this.#method, headers: ..., ...this.#opts }]. *)
Definition request_init (m : HTTPMethod) (hdrs : JSObject) (o : JSObject)
    : JSObject :=
  spread2 (<["headers" := VObj hdrs]> (<["method" := VStr (HTTP.verb m)]> ∅)) o.

(** What a suspended call has evaluated already: the URL, the method,
    and the array the map has returned. *)
Record Suspended : Type := mkSuspended {
  s_url : string;
  s_method : HTTPMethod;
  s_mapped : list Returned;
}.

(** [run] up to its [await]: the URL, [this.#method], and the map over
    [this.#headers], which calls the header functions.  A throw of one
    of them rejects the promise of [run] at once. *)
Definition run_until_await (this : loc) : M (Completion Suspended) := λ w,
  b ← instances w !! this;
  let url := target_url (_baseUrl w) (p_path b) in
  let method := p_method b in
  hs ← arrays w !! p_headers b;
  match array_map hs 0 w with
  | (Throw e, w) => Some (Throw e, w)
  | (Normal rs, w) => Some (Normal (mkSuspended url method rs), w)
  end.

(** [run] from its [await] on, in the world as it is by then: the
    outcome of [Promise.all], the reduce, [this.#opts] and [this.#data]
    as they are now, and the call of the transport. *)
Definition run_from_await (this : loc) (s : Suspended) : M (Settled Response) :=
  λ w,
  match promise_all (s_mapped s) with
  | Rejected e => Some (Rejected e, w)
  | Fulfilled items =>
      b ← instances w !! this;
      let init := request_init (s_method s) (merge_headers items) (p_opts b) in
      let '(r, x) := _fetch (s_url s) init (p_data b) (ext w) in
      Some (r, log (CallFetch (s_url s) init (p_data b)) (set_ext x w))
  end.

(** [run] when nothing but its own header functions runs while it is
    suspended, as in [await builder.run()]. *)
Definition run (this : loc) : M (Settled Response) := λ w,
  '(c, w) ← run_until_await this w;
  match c with
  | Throw e => Some (Rejected e, w)
  | Normal s => run_from_await this s w
  end.

(** *** [runJSON] (lines 213-224) *)

Definition json_result (response : Response) (parsedJSON : JSValue) : JSObject :=
  spread2 (<["status" := VNum (status response)]>
            (<["ok" := VBool (ok response)]> ∅))
          (own_props parsedJSON).

(** The two [then] callbacks, on what [run] has settled with. *)
Definition then_json (r : Settled Response) : Settled JSObject :=
  match r with
  | Rejected e => Rejected e
  | Fulfilled response =>
      match json response with
      | Rejected e => Rejected e
      | Fulfilled parsedJSON => Fulfilled (json_result response parsedJSON)
      end
  end.

Definition runJSON (this : loc) : M (Settled JSObject) := λ w,
  '(r, w) ← run this w;
  Some (then_json r, w).

(** *** What a caller can do with the class

    The statements of a script, as a caller writes them one after the
    other.  [CArray] is an array literal of header sources, the only way
    to obtain a reference [Array a] for the constructor; [CSetBaseUrl s]
    is the assignment [oof._baseUrl = s].  The named factories are
    instances of [CNew].  [CRun this] and [CRunJSON this] are the calls
    [this.run()] and [this.runJSON()] whose promise is not awaited on
    the spot: they run up to the [await] and are then in flight, while
    the script goes on.  [CAwait] is a point where the script itself
    waits: the calls in flight go on from their [await], in the order in
    which they were started.  So [await this.run()] is [CRun this]
    followed by [CAwait]. *)
Inductive Call : Type :=
  | CArray (l : list Header)
  | CNew (m : HTTPMethod) (p : string)
         (o : option JSObject) (h : option HeadersArg)
  | COptions (this : loc) (o : JSObject)
  | CHeader (this : loc) (h : Header)
  | CData (this : loc) (d : JSValue)
  | CRun (this : loc)
  | CRunJSON (this : loc)
  | CSetBaseUrl (s : string)
  | CAwait.

Definition world_after {A} (r : option (A * World)) : option World :=
  match r with
  | Some (_, w) => Some w
  | None => None
  end.

(** The world, and the terminal calls in flight. *)
Definition Session : Type := World * list (loc * Suspended).

(** A terminal call is started; unless a header function throws, it is
    in flight from then on.  What [runJSON] adds to [run] changes
    nothing in the world. *)
Definition start (this : loc) (s : Session) : option Session :=
  match run_until_await this s.1 with
  | Some (Normal susp, w) => Some (w, s.2 ++ [(this, susp)])
  | Some (Throw _, w) => Some (w, s.2)
  | None => None
  end.

(** The calls in flight go on, the first started first. *)
Fixpoint resume (q : list (loc * Suspended)) (w : World) : option World :=
  match q with
  | [] => Some w
  | (this, susp) :: q' =>
      match run_from_await this susp w with
      | Some (_, w') => resume q' w'
      | None => None
      end
  end.

(** The statements that neither start a terminal call nor wait. *)
Definition plain (c : Call) (w : World) : option World :=
  match c with
  | CArray l => Some (alloc_array l w).2
  | CNew m p o h =>
      match h with
      | Some (Array a) =>
          match arrays w !! a with
          | Some _ => world_after (new m p o h w)
          | None => None
          end
      | _ => world_after (new m p o h w)
      end
  | COptions this o => world_after (options this o w)
  | CHeader this h => world_after (header this h w)
  | CData this d => world_after (data this d w)
  | CSetBaseUrl b => Some (set_baseUrl b w)
  | CRun _ | CRunJSON _ | CAwait => Some w
  end.

Definition step (c : Call) (s : Session) : option Session :=
  match c with
  | CRun this | CRunJSON this => start this s
  | CAwait =>
      match resume s.2 s.1 with
      | Some w => Some (w, [])
      | None => None
      end
  | _ =>
      match plain c s.1 with
      | Some w => Some (w, s.2)
      | None => None
      end
  end.

Fixpoint steps (cs : list Call) (s : Session) : option Session :=
  match cs with
  | [] => Some s
  | c :: cs' =>
      match step c s with
      | Some s' => steps cs' s'
      | None => None
      end
  end.

(** A script run to its end from a world in which no call is in
    flight: when its last statement is done, the calls still in flight
    go on, as they do at a [CAwait]. *)
Definition exec (cs : list Call) (w : World) : option World :=
  match steps cs (w, []) with
  | Some s => resume s.2 s.1
  | None => None
  end.

(** The chain [this.header(h1).header(h2)...]: each call returns [this],
    on which the next one is made. *)
Fixpoint header_chain (this : loc) (hs : list Header) : M loc := λ w,
  match hs with
  | [] => Some (this, w)
  | h :: hs' =>
      match header this h w with
      | Some (this', w') => header_chain this' hs' w'
      | None => None
      end
  end.

(** The chain [this.data(d1).data(d2)...]. *)
Fixpoint data_chain (this : loc) (ds : list JSValue) : M loc := λ w,
  match ds with
  | [] => Some (this, w)
  | d :: ds' =>
      match data this d w with
      | Some (this', w') => data_chain this' ds' w'
      | None => None
      end
  end.

Definition assigns_baseUrl (c : Call) : bool :=
  match c with CSetBaseUrl _ => true | _ => false end.

(** Every builder has its array of header sources. *)
Definition wf (w : World) : Prop :=
  ∀ l b, instances w !! l = Some b → is_Some (arrays w !! p_headers b).

(** *** Vocabulary of the statements *)

(** The transport invocations, and the invocations of header
    callables, recorded in a trace. *)
Fixpoint fetch_calls (tr : list Event) : list (string * JSObject * JSValue) :=
  match tr with
  | [] => []
  | CallFetch url init body :: tr' => (url, init, body) :: fetch_calls tr'
  | CallHeader _ :: tr' => fetch_calls tr'
  end.

Fixpoint header_calls (tr : list Event) : list nat :=
  match tr with
  | [] => []
  | CallHeader i :: tr' => i :: header_calls tr'
  | CallFetch _ _ _ :: tr' => header_calls tr'
  end.

(** The indices, counted from [i], of the callable header sources. *)
Fixpoint callable_indices (hs : list Header) (i : nat) : list nat :=
  match hs with
  | [] => []
  | HFunction _ _ :: hs' => i :: callable_indices hs' (S i)
  | HObject _ :: hs' => callable_indices hs' (S i)
  end.

(** The value the last of [items] that has the key [k] gives it. *)
Fixpoint last_binding (k : string) (items : list JSObject) : option JSValue :=
  match items with
  | [] => None
  | o :: rest =>
      match last_binding k rest with
      | Some v => Some v
      | None => o !! k
      end
  end.





(** The header source [h] fails with [e] when called in [x]: it throws
    [e], or returns a promise that is rejected with [e]. *)
Definition fails_with (h : Header) (x : Ext) (e : Err) : Prop :=
  match h with
  | HObject _ => False
  | HFunction f _ =>
      (f x).1 = Throw e ∨ ∃ t, (f x).1 = Normal (Later (mkPromise t (Rejected e)))
  end.

(** In the world [w], the factory call [mk] builds a new builder for the
    method [m] and the path [path], with no options and no data, whose
    header sources are a new array holding [defaults]; the sources that
    [header] adds afterwards come after them. *)
Definition builds (mk : M loc) (m : HTTPMethod) (path : string)
    (defaults : list Header) (w : World) : Prop :=
  ∃ this w' b,
    mk w = Some (this, w') ∧
    instances w !! this = None ∧
    instances w' !! this = Some b ∧
    p_method b = m ∧ p_path b = path ∧ p_opts b = ∅ ∧ p_data b = VUndefined ∧
    arrays w !! p_headers b = None ∧
    arrays w' !! p_headers b = Some defaults ∧
    ∀ hs, ∃ w'', header_chain this hs w' = Some (this, w'') ∧
                 arrays w'' !! p_headers b = Some (defaults ++ hs).

(** In the world [w], all the header sources of the builder [this],
    whose fields are [b], resolve: mapping over them leaves the world
    [w1] and the awaited values are [items]. *)
Definition resolves (w : World) (this : loc) (b : obj)
    (w1 : World) (items : list JSObject) : Prop :=
  instances w !! this = Some b ∧
  ∃ hs rs, arrays w !! p_headers b = Some hs ∧
           array_map hs 0 w = (Normal rs, w1) ∧
           promise_all rs = Fulfilled items.

(** The builder [b1] is the builder [b] but for its options and its
    data. *)
Definition same_builder (b b1 : obj) : Prop :=
  p_method b1 = p_method b ∧ p_path b1 = p_path b ∧
  p_headers b1 = p_headers b.

(** The builders of [m1] are those of [m], but for their options and
    their data. *)
Definition evolves (m m1 : gmap loc obj) : Prop :=
  ∀ l, match m !! l, m1 !! l with
       | Some b, Some b1 => same_builder b b1
       | None, None => True
       | _, _ => False
       end.

(** A header source that calls no setter. *)
Definition calls_nothing (h : Header) : Prop :=
  match h with
  | HObject _ => True
  | HFunction _ calls => ∀ x, calls x = []
  end.

(** *** The curried function [fcf] (part_000, lines 52-57)

    [opts] is a [RequestInit] object or a function returning one; left
    out, it is [{}].  The function is not [async]: what the options
    function throws, the last application throws. *)
Inductive Opts : Type :=
  | OObject (o : JSObject)
  | OFunction (f : Ext → Completion JSObject * Ext).

Definition fcf (baseUrl path : string) (opts : option Opts) (body : JSValue)
    (w : World) : Completion (Settled Response) * World :=
  let opts := default (OObject ∅) opts in
  let url := baseUrl +:+ path in
  match opts with
  | OFunction f =>
      match f (ext w) with
      | (Throw e, x) => (Throw e, set_ext x w)
      | (Normal o, x) =>
          let '(r, x) := _fetch url o body x in
          (Normal r, log (CallFetch url o body) (set_ext x w))
      end
  | OObject o =>
      let '(r, x) := _fetch url o body (ext w) in
      (Normal r, log (CallFetch url o body) (set_ext x w))
  end.

(** *** More vocabulary *)

(** A call made on what the previous call returned, as in
    [oof.GET(path).header(h)]. *)
Definition and_then {A B} (f : M A) (g : A → M B) : M B := λ w,
  match f w with
  | Some (a, w') => g a w'
  | None => None
  end.

(** The calls that are terminal operations. *)
Definition terminal (c : Call) : bool :=
  match c with CRun _ | CRunJSON _ => true | _ => false end.

(** A header source that is a plain object. *)
Definition is_object (h : Header) : bool :=
  match h with HObject _ => true | HFunction _ _ => false end.

(** The header objects of an array of plain objects. *)
Fixpoint objects_of (hs : list Header) : list JSObject :=
  match hs with
  | [] => []
  | HObject o :: hs' => o :: objects_of hs'
  | HFunction _ _ :: hs' => objects_of hs'
  end.

(** No two of the mappings have a key in common. *)
Fixpoint pairwise_disjoint (items : list JSObject) : Prop :=
  match items with
  | [] => True
  | o :: rest => Forall (λ o', o ##ₘ o') rest ∧ pairwise_disjoint rest
  end.

End collaborators.
(** *** Concrete collaborators

    An outside world that counts the calls made into it, errors that are
    strings, three transports and a few header sources. *)

Definition not_found : @Response string :=
  mkResponse false 404 (Fulfilled (VObj {[ "msg" := VStr "not found" ]})).

Definition demo_fetch (url : string) (init : JSObject) (body : JSValue)
    (n : nat) : @Settled string (@Response string) * nat :=
  (Fulfilled not_found, S n).

Definition down_fetch (url : string) (init : JSObject) (body : JSValue)
    (n : nat) : @Settled string (@Response string) * nat :=
  (Rejected "network down", S n).

Definition garbled_fetch (url : string) (init : JSObject) (body : JSValue)
    (n : nat) : @Settled string (@Response string) * nat :=
  (Fulfilled (mkResponse true 200 (Rejected "unexpected token")), S n).

Definition token_header : @Header nat string :=
  HFunction (λ n, (Normal (Now {[ "Authorization" := VStr "token" ]}), S n))
            (λ _, []).

Definition async_header : @Header nat string :=
  HFunction (λ n,
    (Normal (Later (mkPromise 1 (Fulfilled {[ "asyncHeader" := VStr "value" ]}))),
     S n))
            (λ _, []).

Definition throwing_header : @Header nat string :=
  HFunction (λ n, (Throw "no token", S n))
            (λ _, []).

Definition rejecting_header : @Header nat string :=
  HFunction (λ n, (Normal (Later (mkPromise 2 (Rejected "expired"))), S n))
            (λ _, []).

Definition last_header : @Header nat string :=
  HObject {[ "lastHeader" := VNum 1 ]}.

(** The world of the demonstration script once it has assigned the base
    URL and built [oof.GET("/test")]. *)
Definition get_test : @obj :=
  mkObj HTTP.GET 1%positive "/test" ∅ VUndefined.

Definition world_get_test : @World nat string :=
  mkWorld "http://localhost:3000" {[ 1%positive := get_test ]}
          {[ 1%positive := [] ]} 0 [].

(** [oof.POST("/test")] followed by the three [header] calls of the
    demonstration script: a synchronous function, an asynchronous one
    and a plain object. *)
Definition post_test : @obj :=
  mkObj HTTP.POST 1%positive "/test" ∅ VUndefined.

Definition world_post_test : @World nat string :=
  mkWorld "http://localhost:3000" {[ 1%positive := post_test ]}
          {[ 1%positive :=
               [HObject {[ "Content-Type" := VStr "application/json" ]}] ]}
          0 [].

Definition world_post_headers : @World nat string :=
  mkWorld "http://localhost:3000" {[ 1%positive := post_test ]}
          {[ 1%positive :=
               [HObject {[ "Content-Type" := VStr "application/json" ]};
                token_header; async_header; last_header] ]}
          0 [].

Definition world_post_called : @World nat string :=
  mkWorld "http://localhost:3000" {[ 1%positive := post_test ]}
          {[ 1%positive :=
               [HObject {[ "Content-Type" := VStr "application/json" ]};
                token_header; async_header; last_header] ]}
          2 [CallHeader 1; CallHeader 2].

Definition post_items : list JSObject :=
  [ {[ "Content-Type" := VStr "application/json" ]};
    {[ "Authorization" := VStr "token" ]};
    {[ "asyncHeader" := VStr "value" ]};
    {[ "lastHeader" := VNum 1 ]} ].

(** The same builder after [.options({ headers: { "X": "1" } })]. *)
Definition post_shadowed : @obj :=
  mkObj HTTP.POST 1%positive "/test"
        {[ "headers" := VObj {[ "X" := VStr "1" ]} ]} VUndefined.

Definition world_post_shadowed : @World nat string :=
  mkWorld "http://localhost:3000" {[ 1%positive := post_shadowed ]}
          {[ 1%positive :=
               [HObject {[ "Content-Type" := VStr "application/json" ]};
                token_header; async_header; last_header] ]}
          0 [].

Definition world_post_shadowed_called : @World nat string :=
  mkWorld "http://localhost:3000" {[ 1%positive := post_shadowed ]}
          {[ 1%positive :=
               [HObject {[ "Content-Type" := VStr "application/json" ]};
                token_header; async_header; last_header] ]}
          2 [CallHeader 1; CallHeader 2].

(** The worlds in which [demo_fetch] has answered. *)
Definition world_get_fetched : @World nat string :=
  mkWorld "http://localhost:3000" {[ 1%positive := get_test ]}
          {[ 1%positive := [] ]} 1
          [CallFetch "http://localhost:3000/test"
             (request_init HTTP.GET ∅ ∅) VUndefined].

(** A response whose body has an [ok] key of its own. *)
Definition custom_ok : @Response string :=
  mkResponse true 200 (Fulfilled (VObj {[ "ok" := VStr "custom" ]})).

(** [oof.GET("/test")] with a header source that throws, and the same
    builder after [.data({ test: true })] instead. *)
Definition world_get_throwing : @World nat string :=
  mkWorld "" {[ 1%positive := get_test ]}
          {[ 1%positive := [throwing_header] ]} 0 [].

Definition get_with_data : @obj :=
  mkObj HTTP.GET 1%positive "/test" ∅ (VObj {[ "test" := VBool true ]}).

Definition world_get_data : @World nat string :=
  mkWorld "http://localhost:3000" {[ 1%positive := get_with_data ]}
          {[ 1%positive := [] ]} 0 [].

(** [oof.GET("/test")] in a world whose base URL was never assigned. *)
Definition world_get_nobase : @World nat string :=
  mkWorld "" {[ 1%positive := get_test ]} {[ 1%positive := [] ]} 0 [].


(** [oof.GET("HtTpS://Example.org/a")], the base URL being assigned. *)
Definition get_mixed : @obj :=
  mkObj HTTP.GET 1%positive "HtTpS://Example.org/a" ∅ VUndefined.

Definition world_get_mixed : @World nat string :=
  mkWorld "http://localhost:3000" {[ 1%positive := get_mixed ]}
          {[ 1%positive := [] ]} 0 [].

(** A header function that, when called, signs the request: it stores
    the signed body and the options on the builder it was added to, the
    first one built. *)
Definition signing_header : @Header nat string :=
  HFunction (λ n, (Normal (Now {[ "X-Signed" := VStr "yes" ]}), S n))
            (λ _, [SetData 1%positive (VStr "signed body");
                   SetOptions 1%positive {[ "mode" := VStr "cors" ]}]).

Definition world_get_signing : @World nat string :=
  mkWorld "http://localhost:3000" {[ 1%positive := get_test ]}
          {[ 1%positive := [signing_header] ]} 0 [].

Definition get_signed : @obj :=
  mkObj HTTP.GET 1%positive "/test" {[ "mode" := VStr "cors" ]}
        (VStr "signed body").

Definition world_get_signed : @World nat string :=
  mkWorld "http://localhost:3000" {[ 1%positive := get_signed ]}
          {[ 1%positive := [signing_header] ]} 1 [CallHeader 0].
(** ** Properties *)

(** *** The scheme test *)

Lemma lower_string_cons c s :
  lower_string (String c s) = String (canonicalize c) (lower_string s).
Proof. reflexivity. Qed.

Lemma either_eqb small capital c :
  either small capital c ↔ (Ascii.eqb c small || Ascii.eqb c capital) = true.
Proof. unfold either. by rewrite orb_true_iff, !Ascii.eqb_eq. Qed.

Lemma char_matches_h c : char_matches "h" c = true ↔ either "h" "H" c.
Proof.
  rewrite either_eqb. by destruct c as [[] [] [] [] [] [] [] []].
Qed.

Lemma char_matches_t c : char_matches "t" c = true ↔ either "t" "T" c.
Proof.
  rewrite either_eqb. by destruct c as [[] [] [] [] [] [] [] []].
Qed.

Lemma char_matches_p c : char_matches "p" c = true ↔ either "p" "P" c.
Proof.
  rewrite either_eqb. by destruct c as [[] [] [] [] [] [] [] []].
Qed.

Lemma char_matches_s c : char_matches "s" c = true ↔ either "s" "S" c.
Proof.
  rewrite either_eqb. by destruct c as [[] [] [] [] [] [] [] []].
Qed.

Lemma char_matches_colon c : char_matches ":" c = true ↔ c = ":"%char.
Proof.
  rewrite <- Ascii.eqb_eq. by destruct c as [[] [] [] [] [] [] [] []].
Qed.

Lemma char_matches_slash c : char_matches "/" c = true ↔ c = "/"%char.
Proof.
  rewrite <- Ascii.eqb_eq. by destruct c as [[] [] [] [] [] [] [] []].
Qed.

Lemma match_here_http s :
  match_here "http://" s = true ↔
  ∃ mid post, s = mid +:+ post ∧ spells_http mid.
Proof.
  split.
  - intros H.
    destruct s as [|c1 [|c2 [|c3 [|c4 [|c5 [|c6 [|c7 post]]]]]]];
      cbn in H; rewrite ?andb_false_r in H; try discriminate H.
    rewrite andb_true_r, !andb_true_iff in H.
    destruct H as (H1 & H2 & H3 & H4 & H5 & H6 & H7).
    apply char_matches_colon in H5 as ->.
    apply char_matches_slash in H6 as ->.
    apply char_matches_slash in H7 as ->.
    exists (String c1 (String c2 (String c3 (String c4 "://")))), post.
    split; [done|]. exists c1, c2, c3, c4.
    by rewrite <- char_matches_h, <- !char_matches_t, <- char_matches_p.
  - intros (mid & post & -> & c1 & c2 & c3 & c4 & -> & H1 & H2 & H3 & H4).
    change (String c1 (String c2 (String c3 (String c4 "://"))) +:+ post)
      with (String c1 (String c2 (String c3 (String c4
              (String ":" (String "/" (String "/" post))))))).
    apply char_matches_h in H1. apply char_matches_t in H2, H3.
    apply char_matches_p in H4.
    cbn [match_here]. rewrite H1, H2, H3, H4.
    by destruct post.
Qed.

Lemma match_here_https s :
  match_here "https://" s = true ↔
  ∃ mid post, s = mid +:+ post ∧ spells_https mid.
Proof.
  split.
  - intros H.
    destruct s as [|c1 [|c2 [|c3 [|c4 [|c5 [|c6 [|c7 [|c8 post]]]]]]]];
      cbn in H; rewrite ?andb_false_r in H; try discriminate H.
    rewrite andb_true_r, !andb_true_iff in H.
    destruct H as (H1 & H2 & H3 & H4 & H5 & H6 & H7 & H8).
    apply char_matches_colon in H6 as ->.
    apply char_matches_slash in H7 as ->.
    apply char_matches_slash in H8 as ->.
    exists (String c1 (String c2 (String c3 (String c4 (String c5 "://"))))), post.
    split; [done|]. exists c1, c2, c3, c4, c5.
    by rewrite <- char_matches_h, <- !char_matches_t, <- char_matches_p,
      <- char_matches_s.
  - intros (mid & post & -> & c1 & c2 & c3 & c4 & c5 & -> &
            H1 & H2 & H3 & H4 & H5).
    change (String c1 (String c2 (String c3 (String c4 (String c5 "://"))))
              +:+ post)
      with (String c1 (String c2 (String c3 (String c4 (String c5
              (String ":" (String "/" (String "/" post)))))))).
    apply char_matches_h in H1. apply char_matches_t in H2, H3.
    apply char_matches_p in H4. apply char_matches_s in H5.
    cbn [match_here]. rewrite H1, H2, H3, H4, H5.
    by destruct post.
Qed.

Lemma scheme_here_spec s :
  scheme_here s = true ↔
  ∃ mid post, s = mid +:+ post ∧ (spells_http mid ∨ spells_https mid).
Proof.
  unfold scheme_here. rewrite orb_true_iff, match_here_http, match_here_https.
  split.
  - intros [(mid & post & -> & H)|(mid & post & -> & H)];
      exists mid, post; auto.
  - intros (mid & post & -> & [H|H]); [right|left]; eauto.
Qed.

Lemma match_scheme_unfold s :
  match_scheme s =
    scheme_here s ||
    match s with EmptyString => false | String _ s' => match_scheme s' end.
Proof. by destruct s. Qed.

(** The test of the code is the test the spec describes. *)
Lemma match_scheme_spec s : match_scheme s = true ↔ contains_scheme s.
Proof.
  unfold contains_scheme. split.
  - induction s as [|c s IH]; cbn [match_scheme]; rewrite orb_true_iff.
    + intros [H|H]; [|done].
      apply scheme_here_spec in H as (mid & post & -> & Hl).
      by exists "", mid, post.
    + intros [H|H].
      * apply scheme_here_spec in H as (mid & post & Hs & Hl).
        by exists "", mid, post.
      * destruct (IH H) as (pre & mid & post & -> & Hl).
        by exists (String c pre), mid, post.
  - intros (pre & mid & post & -> & Hl).
    induction pre as [|c pre IH].
    + change ("" +:+ mid +:+ post) with (mid +:+ post).
      assert (scheme_here (mid +:+ post) = true) as Hh
        by (apply scheme_here_spec; eauto).
      rewrite match_scheme_unfold, Hh. done.
    + change (String c pre +:+ mid +:+ post)
        with (String c (pre +:+ mid +:+ post)).
      cbn [match_scheme]. rewrite IH. apply orb_true_r.
Qed.

Lemma match_scheme_false s : match_scheme s = false ↔ ¬ contains_scheme s.
Proof.
  rewrite <- match_scheme_spec. destruct (match_scheme s); naive_solver.
Qed.

(** *** Merging header objects *)

Lemma spread2_lookup (base over : JSObject) k :
  spread2 base over !! k =
    match over !! k with Some v => Some v | None => base !! k end.
Proof.
  unfold spread2. rewrite lookup_union.
  destruct (over !! k), (base !! k); done.
Qed.

Lemma reduce_spread_lookup (items : list JSObject) (acc : JSObject) k :
  reduce (λ obj item, spread2 obj item) acc items !! k =
    match last_binding k items with Some v => Some v | None => acc !! k end.
Proof.
  unfold reduce. revert acc; induction items as [|o rest IH]; intros acc; [done|].
  cbn. rewrite IH, spread2_lookup.
  destruct (last_binding k rest), (o !! k); done.
Qed.

Lemma merge_headers_lookup (items : list JSObject) k :
  merge_headers items !! k = last_binding k items.
Proof.
  unfold merge_headers. rewrite reduce_spread_lookup, lookup_empty.
  by destruct (last_binding k items).
Qed.


Lemma last_binding_app k (xs ys : list JSObject) :
  last_binding k (xs ++ ys) =
    match last_binding k ys with Some v => Some v | None => last_binding k xs end.
Proof.
  induction xs as [|o xs IH]; cbn.
  - by destruct (last_binding k ys).
  - rewrite IH. by destruct (last_binding k ys).
Qed.

Section properties.

Context {Ext Err : Type}.
Variable _fetch :
  string → JSObject → JSValue → Ext → @Settled Err (@Response Err) * Ext.

Local Abbreviation World := (@World Ext Err).
Local Abbreviation Header := (@Header Ext Err).
Local Abbreviation Returned := (@Returned Err).
Local Abbreviation Response := (@Response Err).
Local Abbreviation Suspended := (@Suspended Err).
Local Abbreviation Session := (@Session Ext Err).
Local Abbreviation run_from_await := (run_from_await _fetch).
Local Abbreviation run := (run _fetch).
Local Abbreviation runJSON := (runJSON _fetch).
Local Abbreviation resume := (resume _fetch).
Local Abbreviation step := (step _fetch).
Local Abbreviation steps := (steps _fetch).
Local Abbreviation exec := (exec _fetch).

(** *** Builders that differ in their options and data only *)

Lemma same_builder_refl (b : obj) : same_builder b b.
Proof. done. Qed.

Lemma same_builder_trans (b1 b2 b3 : obj) :
  same_builder b1 b2 → same_builder b2 b3 → same_builder b1 b3.
Proof. unfold same_builder. intros (? & ? & ?) (? & ? & ?). split_and!; congruence. Qed.

Lemma evolves_refl (m : gmap loc obj) : evolves m m.
Proof. intros l. by destruct (m !! l). Qed.

Lemma evolves_trans (m1 m2 m3 : gmap loc obj) :
  evolves m1 m2 → evolves m2 m3 → evolves m1 m3.
Proof.
  intros H12 H23 l. specialize (H12 l). specialize (H23 l).
  destruct (m1 !! l), (m2 !! l), (m3 !! l); try done.
  by eapply same_builder_trans.
Qed.

Lemma evolves_lookup (m m1 : gmap loc obj) l b :
  evolves m m1 → m !! l = Some b →
  ∃ b1, m1 !! l = Some b1 ∧ same_builder b b1.
Proof.
  intros H Hl. specialize (H l). rewrite Hl in H.
  destruct (m1 !! l) as [b1|]; [|done]. by exists b1.
Qed.

Lemma evolves_lookup_r (m m1 : gmap loc obj) l b1 :
  evolves m m1 → m1 !! l = Some b1 →
  ∃ b, m !! l = Some b ∧ same_builder b b1.
Proof.
  intros H Hl. specialize (H l). rewrite Hl in H.
  destruct (m !! l) as [b|]; [|done]. by exists b.
Qed.

Lemma evolves_lookup_None (m m1 : gmap loc obj) l :
  evolves m m1 → m !! l = None → m1 !! l = None.
Proof.
  intros H Hl. specialize (H l). rewrite Hl in H. by destruct (m1 !! l).
Qed.

Lemma evolves_insert (m : gmap loc obj) l b b1 :
  m !! l = Some b → same_builder b b1 → evolves m (<[l := b1]> m).
Proof.
  intros Hl Hs l'. destruct (decide (l' = l)) as [->|Hne].
  - by rewrite Hl, lookup_insert_eq.
  - rewrite lookup_insert_ne by done. by destruct (m !! l').
Qed.

(** *** The setters a header function calls *)

Lemma call_setter_frame (s : Setter) (w : World) :
  _baseUrl (call_setter s w) = _baseUrl w ∧
  arrays (call_setter s w) = arrays w ∧
  ext (call_setter s w) = ext w ∧
  trace (call_setter s w) = trace w ∧
  evolves (instances w) (instances (call_setter s w)).
Proof.
  destruct s as [l o|l d]; unfold call_setter, options, data;
    (destruct (instances w !! l) as [b|] eqn:Hb; cbn;
      [|split_and!; try done; apply evolves_refl]);
    split_and!; try done; by apply (evolves_insert _ _ b).
Qed.

Lemma call_setters_cons (s : Setter) ss (w : World) :
  call_setters (s :: ss) w = call_setters ss (call_setter s w).
Proof. done. Qed.

Lemma call_setters_frame (ss : list Setter) (w : World) :
  _baseUrl (call_setters ss w) = _baseUrl w ∧
  arrays (call_setters ss w) = arrays w ∧
  ext (call_setters ss w) = ext w ∧
  trace (call_setters ss w) = trace w ∧
  evolves (instances w) (instances (call_setters ss w)).
Proof.
  revert w; induction ss as [|s ss IH]; intros w.
  - split_and!; try done. apply evolves_refl.
  - rewrite call_setters_cons.
    destruct (IH (call_setter s w)) as (-> & -> & -> & -> & He).
    destruct (call_setter_frame s w) as (? & ? & ? & ? & He').
    split_and!; try done. by eapply evolves_trans.
Qed.

Lemma call_setter_base (s : Setter) (w : World) base :
  call_setter s (set_baseUrl base w) = set_baseUrl base (call_setter s w).
Proof.
  destruct s as [l o|l d]; unfold call_setter, options, data; cbn;
    by destruct (instances w !! l).
Qed.

Lemma call_setters_base (ss : list Setter) (w : World) base :
  call_setters ss (set_baseUrl base w) = set_baseUrl base (call_setters ss w).
Proof.
  revert w; induction ss as [|s ss IH]; intros w; [done|].
  by rewrite !call_setters_cons, call_setter_base, IH.
Qed.

(** *** Mapping over the header sources *)

Lemma header_value_frame (h : Header) i (w : World) c w1 :
  header_value h i w = (c, w1) →
  _baseUrl w1 = _baseUrl w ∧ evolves (instances w) (instances w1) ∧
  arrays w1 = arrays w ∧
  trace w1 = trace w ++ (CallHeader <$> callable_indices [h] i).
Proof.
  destruct h as [o|f g]; cbn.
  - intros [= <- <-]. rewrite app_nil_r. split_and!; try done.
    apply evolves_refl.
  - destruct (f (ext w)) as [c' x]. intros [= <- <-].
    destruct (call_setters_frame (g (ext w)) (log (CallHeader i) (set_ext x w)))
      as (-> & -> & _ & -> & He). done.
Qed.

(** A source that calls no setter leaves the builders as they are. *)
Lemma header_value_quiet (h : Header) i (w : World) c w1 :
  calls_nothing h → header_value h i w = (c, w1) → instances w1 = instances w.
Proof.
  destruct h as [o|f g]; cbn.
  - by intros _ [= <- <-].
  - intros Hq. rewrite Hq. destruct (f (ext w)) as [c' x]. by intros [= <- <-].
Qed.

Lemma callable_indices_cons (h : Header) hs i :
  callable_indices (h :: hs) i =
    callable_indices [h] i ++ callable_indices hs (S i).
Proof. by destruct h. Qed.

Lemma array_map_frame (hs : list Header) i (w : World) c w1 :
  array_map hs i w = (c, w1) →
  _baseUrl w1 = _baseUrl w ∧ evolves (instances w) (instances w1) ∧
  arrays w1 = arrays w ∧
  ∃ called, trace w1 = trace w ++ (CallHeader <$> called) ∧
            called `prefix_of` callable_indices hs i ∧
            (∀ rs, c = Normal rs → called = callable_indices hs i).
Proof.
  revert i w c w1; induction hs as [|h hs IH]; intros i w c w1; cbn [array_map].
  - intros [= <- <-]. split_and!; [done|apply evolves_refl|done|].
    exists []. by rewrite app_nil_r.
  - destruct (header_value h i w) as [[r|e] w0] eqn:Hh;
      apply header_value_frame in Hh as (Hb & Hi & Ha & Ht).
    + destruct (array_map hs (S i) w0) as [[rs|e] w2] eqn:Hm;
        apply IH in Hm as (Hb' & Hi' & Ha' & called & Ht' & Hp & Hall);
        intros [= <- <-];
        (split_and!; [congruence|by eapply evolves_trans|congruence|]);
        exists (callable_indices [h] i ++ called);
        rewrite Ht', Ht, fmap_app, (assoc_L (++)), (callable_indices_cons h hs);
        (split; [done|]); (split; [by apply prefix_app|]); intros rs' [=].
      by rewrite (Hall rs).
    + intros [= <- <-]. split_and!; try done.
      exists (callable_indices [h] i). split; [done|].
      rewrite (callable_indices_cons h hs). split; [by apply prefix_app_r|done].
Qed.

Lemma array_map_quiet (hs : list Header) i (w : World) c w1 :
  Forall calls_nothing hs → array_map hs i w = (c, w1) →
  instances w1 = instances w.
Proof.
  intros Hq. revert i w c w1.
  induction Hq as [|h hs Hh Hq IH]; intros i w c w1; cbn [array_map].
  - by intros [= <- <-].
  - destruct (header_value h i w) as [[r|e] w0] eqn:Hv;
      apply (header_value_quiet _ _ _ _ _ Hh) in Hv.
    + destruct (array_map hs (S i) w0) as [[rs|e] w2] eqn:Hm;
        apply IH in Hm; intros [= <- <-]; congruence.
    + by intros [= <- <-].
Qed.

Lemma callable_indices_bounds (hs : list Header) i j :
  j ∈ callable_indices hs i → i ≤ j.
Proof.
  revert i; induction hs as [|[o|f g] hs IH]; intros i; cbn.
  - by intros ?%elem_of_nil.
  - intros ?%IH. lia.
  - intros [->|?%IH]%elem_of_cons; lia.
Qed.

(** No index occurs twice: a callable is called at most once. *)
Lemma callable_indices_NoDup (hs : list Header) i : NoDup (callable_indices hs i).
Proof.
  revert i; induction hs as [|[o|f g] hs IH]; intros i; cbn.
  - constructor.
  - apply IH.
  - constructor; [|apply IH]. intros ?%callable_indices_bounds. lia.
Qed.

(** The base URL plays no part in the traversal. *)
Lemma header_value_base (h : Header) i (w : World) s :
  header_value h i (set_baseUrl s w) =
    ((header_value h i w).1, set_baseUrl s (header_value h i w).2).
Proof.
  destruct h as [o|f g]; cbn; [done|]. destruct (f (ext w)). cbn.
  by rewrite <- call_setters_base.
Qed.

Lemma array_map_base (hs : list Header) i (w : World) s :
  array_map hs i (set_baseUrl s w) =
    ((array_map hs i w).1, set_baseUrl s (array_map hs i w).2).
Proof.
  revert i w; induction hs as [|h hs IH]; intros i w; cbn [array_map]; [done|].
  rewrite header_value_base.
  destruct (header_value h i w) as [[r|e] w0]; cbn [fst snd]; [|done].
  rewrite IH. by destruct (array_map hs (S i) w0) as [[rs|e] w2].
Qed.

Lemma array_map_app (xs ys : list Header) i (w : World) :
  array_map (xs ++ ys) i w =
    match array_map xs i w with
    | (Throw e, w1) => (Throw e, w1)
    | (Normal rs, w1) =>
        match array_map ys (i + length xs) w1 with
        | (Throw e, w2) => (Throw e, w2)
        | (Normal rs', w2) => (Normal (rs ++ rs'), w2)
        end
    end.
Proof.
  revert i w; induction xs as [|h xs IH]; intros i w; cbn [array_map app length].
  - rewrite Nat.add_0_r. by destruct (array_map ys i w) as [[?|?] ?].
  - destruct (header_value h i w) as [[r|e] w0]; [|done].
    rewrite IH, Nat.add_succ_r.
    destruct (array_map xs (S i) w0) as [[rs|e] w1]; [|done].
    by destruct (array_map ys _ w1) as [[?|?] ?].
Qed.


Lemma array_map_throws (hs : list Header) i (w : World) e w1 :
  array_map hs i w = (Throw e, w1) →
  ∃ j f g x, hs !! j = Some (HFunction f g) ∧ (f x).1 = Throw e.
Proof.
  revert i w; induction hs as [|h hs IH]; intros i w; cbn [array_map]; [done|].
  destruct (header_value h i w) as [[r|e'] w0] eqn:Hh.
  - destruct (array_map hs (S i) w0) as [[rs'|e'] w2] eqn:Hm; [done|].
    intros [= -> <-]. destruct (IH _ _ Hm) as (j & f & g & x & Hj & Hf).
    by exists (S j), f, g, x.
  - intros [= -> <-]. destruct h as [o|f g]; cbn in Hh; [done|].
    exists 0, f, g, (ext w). split; [done|].
    destruct (f (ext w)). by injection Hh as -> <-.
Qed.

(** *** Awaiting the mapped array *)

Lemma earliest_rejection_elem (rs : list Returned) t e :
  earliest_rejection rs = Some (t, e) → Later (mkPromise t (Rejected e)) ∈ rs.
Proof.
  revert t e.
  induction rs as [|[o|[t0 [o|e0]]] rs IH]; intros t e;
    cbn [earliest_rejection]; try done.
  - intros ?%IH. by right.
  - intros ?%IH. by right.
  - destruct (earliest_rejection rs) as [[t' e']|].
    + destruct (t' <? t0)%nat; intros [= <- <-]; [right; by apply IH|left].
    + intros [= <- <-]. left.
Qed.

Lemma earliest_rejection_is_Some (rs : list Returned) t e :
  Later (mkPromise t (Rejected e)) ∈ rs → is_Some (earliest_rejection rs).
Proof.
  induction rs as [|r rs IH]; [by intros ?%elem_of_nil|].
  intros [<-|Hin]%elem_of_cons; cbn [earliest_rejection].
  - destruct (earliest_rejection rs) as [[t' e']|]; [|by eexists].
    destruct (t' <? t)%nat; by eexists.
  - destruct (IH Hin) as [[t' e'] Hr]. rewrite Hr.
    destruct r as [o|[t0 [o|e0]]]; try by eexists.
    destruct (t' <? t0)%nat; by eexists.
Qed.

(** The reason kept is that of a rejection no other one precedes. *)
Lemma earliest_rejection_least (rs : list Returned) t e t' e' :
  earliest_rejection rs = Some (t, e) →
  Later (mkPromise t' (Rejected e')) ∈ rs → t ≤ t'.
Proof.
  revert t e; induction rs as [|r rs IH]; intros t e; [done|].
  intros Hr [<-|Hin]%elem_of_cons; cbn [earliest_rejection] in Hr.
  - destruct (earliest_rejection rs) as [[t1 e1]|]; [|naive_solver lia].
    destruct (t1 <? t')%nat eqn:Hlt; injection Hr as <- <-; [|lia].
    apply Nat.ltb_lt in Hlt. lia.
  - destruct r as [o|[t0 [o|e0]]]; try by eapply IH.
    destruct (earliest_rejection rs) as [[t1 e1]|] eqn:Hrs.
    + specialize (IH _ _ eq_refl Hin).
      destruct (t1 <? t0)%nat eqn:Hlt; injection Hr as <- <-; [done|].
      apply Nat.ltb_ge in Hlt. lia.
    + apply earliest_rejection_is_Some in Hin as [? Hin]. congruence.
Qed.



Lemma promise_all_rejected (rs : list Returned) e :
  promise_all rs = Rejected e →
  ∃ t, Later (mkPromise t (Rejected e)) ∈ rs ∧
       ∀ t' e', Later (mkPromise t' (Rejected e')) ∈ rs → t ≤ t'.
Proof.
  unfold promise_all.
  destruct (earliest_rejection rs) as [[t e0]|] eqn:Hr; [|done].
  intros [= <-]. exists t. split; [by apply earliest_rejection_elem|].
  intros t' e'. by eapply earliest_rejection_least.
Qed.

Lemma promise_all_rejects (rs : list Returned) t e :
  Later (mkPromise t (Rejected e)) ∈ rs → ∃ e', promise_all rs = Rejected e'.
Proof.
  intros [[t' e'] Hr]%earliest_rejection_is_Some.
  exists e'. unfold promise_all. by rewrite Hr.
Qed.


(** *** The trace *)

Lemma fetch_calls_app (t1 t2 : list (@Event)) :
  fetch_calls (t1 ++ t2) = fetch_calls t1 ++ fetch_calls t2.
Proof.
  induction t1 as [|[i|url init body] t1 IH]; cbn; [done..|]. by rewrite IH.
Qed.

Lemma header_calls_app (t1 t2 : list (@Event)) :
  header_calls (t1 ++ t2) = header_calls t1 ++ header_calls t2.
Proof.
  induction t1 as [|[i|url init body] t1 IH]; cbn; [done| |done]. by rewrite IH.
Qed.

Lemma fetch_calls_headers (js : list nat) :
  fetch_calls (CallHeader <$> js) = [].
Proof. by induction js. Qed.

Lemma header_calls_headers (js : list nat) :
  header_calls (CallHeader <$> js) = js.
Proof. induction js as [|j js IH]; cbn; [done|]. by rewrite IH. Qed.

(** *** [run], case by case *)

(** Up to the [await]. *)
Lemma run_until_await_resolved (w : World) this b w1 items :
  resolves w this b w1 items →
  ∃ rs, run_until_await this w =
          Some (Normal (mkSuspended (target_url (_baseUrl w) (p_path b))
                                    (p_method b) rs), w1) ∧
        promise_all rs = Fulfilled items.
Proof.
  intros (Hb & hs & rs & Hhs & Hm & Hp). exists rs. split; [|done].
  unfold run_until_await. rewrite Hb. cbn. rewrite Hhs. cbn. by rewrite Hm.
Qed.

(** From the [await] on, in the world [w2] of the resumption. *)
Lemma run_from_await_resolved (w2 : World) this b2 (s : Suspended) items :
  promise_all (s_mapped s) = Fulfilled items →
  instances w2 !! this = Some b2 →
  run_from_await this s w2 =
    let init := request_init (s_method s) (merge_headers items) (p_opts b2) in
    let out := _fetch (s_url s) init (p_data b2) (ext w2) in
    Some (out.1, log (CallFetch (s_url s) init (p_data b2)) (set_ext out.2 w2)).
Proof.
  intros Hp Hb. unfold run_from_await. rewrite Hp, Hb. cbn.
  by destruct (_fetch _ _ _ _).
Qed.

Lemma run_from_await_rejected (w2 : World) this (s : Suspended) e :
  promise_all (s_mapped s) = Rejected e →
  run_from_await this s w2 = Some (Rejected e, w2).
Proof. intros Hp. unfold run_from_await. by rewrite Hp. Qed.

(** The builder is still there when the map is over, with the same
    method, path and array. *)
Lemma resolves_builder (w : World) this b w1 items :
  resolves w this b w1 items →
  ∃ b1, instances w1 !! this = Some b1 ∧ same_builder b b1.
Proof.
  intros (Hb & hs & rs & Hhs & Hm & Hp).
  apply array_map_frame in Hm as (_ & He & _).
  by eapply evolves_lookup.
Qed.

(** The call that nothing interrupts. *)
Lemma run_resolved (w : World) this b w1 b1 items :
  resolves w this b w1 items → instances w1 !! this = Some b1 →
  run this w =
    let url := target_url (_baseUrl w) (p_path b) in
    let init := request_init (p_method b) (merge_headers items) (p_opts b1) in
    let out := _fetch url init (p_data b1) (ext w1) in
    Some (out.1, log (CallFetch url init (p_data b1)) (set_ext out.2 w1)).
Proof.
  intros Hres Hb1.
  destruct (run_until_await_resolved _ _ _ _ _ Hres) as (rs & Hu & Hp).
  unfold run. rewrite Hu. cbn.
  by rewrite (run_from_await_resolved _ _ b1 _ items).
Qed.

Lemma run_thrown (w : World) this b hs e w1 :
  instances w !! this = Some b → arrays w !! p_headers b = Some hs →
  array_map hs 0 w = (Throw e, w1) →
  run this w = Some (Rejected e, w1).
Proof.
  intros Hb Hhs Hm. unfold run, run_until_await. rewrite Hb. cbn.
  rewrite Hhs. cbn. by rewrite Hm.
Qed.

Lemma run_rejected (w : World) this b hs rs e w1 :
  instances w !! this = Some b → arrays w !! p_headers b = Some hs →
  array_map hs 0 w = (Normal rs, w1) → promise_all rs = Rejected e →
  run this w = Some (Rejected e, w1).
Proof.
  intros Hb Hhs Hm Hp. unfold run, run_until_await. rewrite Hb. cbn.
  rewrite Hhs. cbn. rewrite Hm. cbn. by apply run_from_await_rejected.
Qed.

(** The three cases are all there is. *)
Lemma run_cases (w : World) this b hs :
  instances w !! this = Some b → arrays w !! p_headers b = Some hs →
  (∃ e w1, array_map hs 0 w = (Throw e, w1)) ∨
  (∃ rs e w1, array_map hs 0 w = (Normal rs, w1) ∧ promise_all rs = Rejected e) ∨
  (∃ w1 items, resolves w this b w1 items).
Proof.
  intros Hb Hhs.
  destruct (array_map hs 0 w) as [[rs|e] w1] eqn:Hm; [|left; eauto].
  right. destruct (promise_all rs) as [items|e] eqn:Hp.
  - right. exists w1, items. split; [done|]. by exists hs, rs.
  - left. by exists rs, e, w1.
Qed.

(** When no source calls a setter, the builder read after the [await]
    is the builder of the call. *)
Lemma resolves_quiet (w : World) this b w1 items hs :
  resolves w this b w1 items → arrays w !! p_headers b = Some hs →
  Forall calls_nothing hs → instances w1 !! this = Some b.
Proof.
  intros (Hb & hs' & rs & Hhs & Hm & Hp) Hhs' Hq.
  assert (hs' = hs) as -> by congruence.
  by rewrite (array_map_quiet _ _ _ _ _ Hq Hm).
Qed.

(** *** URL resolution *)

Lemma target_url_spec base path :
  (contains_scheme path → target_url base path = path) ∧
  (¬ contains_scheme path → target_url base path = base +:+ path).
Proof.
  unfold target_url. split.
  - intros H%match_scheme_spec. by rewrite H.
  - intros H%match_scheme_false. by rewrite H.
Qed.

(** A call whose sources all resolve is suspended with the URL and the
    method of the call, and the trace has no transport call yet. *)
Lemma run_suspends (w : World) this b w1 items :
  resolves w this b w1 items →
  ∃ susp : Suspended,
    run_until_await this w = Some (Normal susp, w1) ∧
    s_url susp = target_url (_baseUrl w) (p_path b) ∧
    s_method susp = p_method b ∧
    promise_all (s_mapped susp) = Fulfilled items.
Proof.
  intros Hres.
  destruct (run_until_await_resolved _ _ _ _ _ Hres) as (rs & Hu & Hp).
  by eexists.
Qed.

Lemma run_resumes (w : World) this (susp : Suspended) w1 :
  run_until_await this w = Some (Normal susp, w1) →
  run this w = run_from_await this susp w1.
Proof. intros Hu. unfold run. by rewrite Hu. Qed.


Lemma resolves_fetch_calls (w : World) this b w1 items :
  resolves w this b w1 items →
  fetch_calls (trace w1) = fetch_calls (trace w).
Proof.
  intros (Hb & hs & rs & Hhs & Hm & Hp).
  apply array_map_frame in Hm as (_ & _ & _ & called & Ht & _).
  by rewrite Ht, fetch_calls_app, fetch_calls_headers, app_nil_r.
Qed.

(** What the resumed call does in the world [w2]. *)
Lemma run_from_await_sends (w2 : World) this b2 (susp : Suspended) items :
  promise_all (s_mapped susp) = Fulfilled items →
  instances w2 !! this = Some b2 →
  let init := request_init (s_method susp) (merge_headers items) (p_opts b2) in
  ∃ w',
    run_from_await this susp w2 =
      Some ((_fetch (s_url susp) init (p_data b2) (ext w2)).1, w') ∧
    trace w' = trace w2 ++ [CallFetch (s_url susp) init (p_data b2)] ∧
    ext w' = (_fetch (s_url susp) init (p_data b2) (ext w2)).2 ∧
    _baseUrl w' = _baseUrl w2 ∧ instances w' = instances w2 ∧
    arrays w' = arrays w2.
Proof.
  intros Hp Hb init.
  rewrite (run_from_await_resolved _ _ _ _ _ Hp Hb). cbn zeta.
  by eexists.
Qed.

Lemma fetch_calls_snoc (tr : list (@Event)) url init body :
  fetch_calls (tr ++ [CallFetch url init body]) =
    fetch_calls tr ++ [(url, init, body)].
Proof. by rewrite fetch_calls_app. Qed.

(** C1: [run] calls the transport with a URL that is the path itself
    when the path contains [http://] or [https://] in any letter case
    and at any position, whatever the base URL is, and that is
    otherwise the base URL, as it is when [run] is called, immediately
    followed by the path, character for character; this is so whatever
    happens while the call is suspended. *)
Theorem run_target_url (w : World) this b w1 items :
  resolves w this b w1 items →
  ∃ url,
    (contains_scheme (p_path b) → url = p_path b) ∧
    (¬ contains_scheme (p_path b) → url = _baseUrl w +:+ p_path b) ∧
    (∃ r w' init body,
       run this w = Some (r, w') ∧
       fetch_calls (trace w') = fetch_calls (trace w) ++ [(url, init, body)]) ∧
    ∃ susp,
      run_until_await this w = Some (Normal susp, w1) ∧
      ∀ w2, is_Some (instances w2 !! this) →
        ∃ r w' init body,
          run_from_await this susp w2 = Some (r, w') ∧
          fetch_calls (trace w') =
            fetch_calls (trace w2) ++ [(url, init, body)].
Proof.
  intros Hres. exists (target_url (_baseUrl w) (p_path b)).
  split; [apply target_url_spec|]. split; [apply target_url_spec|].
  destruct (run_suspends _ _ _ _ _ Hres) as (susp & Hu & Hurl & Hmeth & Hp).
  assert (∀ w2, is_Some (instances w2 !! this) →
    ∃ r w' init body,
      run_from_await this susp w2 = Some (r, w') ∧
      fetch_calls (trace w') =
        fetch_calls (trace w2) ++
          [(target_url (_baseUrl w) (p_path b), init, body)]) as Hany.
  { intros w2 [b2 Hb2].
    destruct (run_from_await_sends _ _ _ _ _ Hp Hb2) as (w' & Hr & Ht & _).
    do 4 eexists. split; [exact Hr|].
    by rewrite Ht, fetch_calls_snoc, Hurl. }
  split; [|by exists susp].
  destruct (resolves_builder _ _ _ _ _ Hres) as (b1 & Hb1 & _).
  destruct (Hany w1) as (r & w' & init & body & Hr & Ht); [by eexists|].
  exists r, w', init, body. rewrite (run_resumes _ _ _ _ Hu).
  split; [done|]. by rewrite Ht, (resolves_fetch_calls _ _ _ _ _ Hres).
Qed.

(** *** Header accumulation and merge *)

Lemma header_pushes (w : World) this b hs h :
  instances w !! this = Some b → arrays w !! p_headers b = Some hs →
  header this h w = Some (this, set_arrays <[p_headers b := hs ++ [h]]> w).
Proof. intros Hb Hhs. unfold header. rewrite Hb. cbn. by rewrite Hhs. Qed.

Lemma header_chain_appends (w : World) this b hs0 hs :
  instances w !! this = Some b → arrays w !! p_headers b = Some hs0 →
  ∃ w', header_chain this hs w = Some (this, w') ∧
        _baseUrl w' = _baseUrl w ∧ instances w' = instances w ∧
        ext w' = ext w ∧ trace w' = trace w ∧
        arrays w' = <[p_headers b := hs0 ++ hs]> (arrays w).
Proof.
  revert w hs0; induction hs as [|h hs IH]; intros w hs0 Hb Hhs; cbn.
  - exists w. rewrite app_nil_r, insert_id; done.
  - rewrite (header_pushes _ _ _ _ _ Hb Hhs).
    destruct (IH (set_arrays <[p_headers b := hs0 ++ [h]]> w) (hs0 ++ [h]))
      as (w' & Hc & ? & ? & ? & ? & Ha); [done|cbn; by rewrite lookup_insert_eq|].
    exists w'. repeat split; try done.
    rewrite Ha. cbn. by rewrite insert_insert_eq, <- (assoc_L (++)).
Qed.

Lemma request_init_lookup m hdrs (o : JSObject) k :
  request_init m hdrs o !! k =
    match o !! k with
    | Some v => Some v
    | None =>
        if decide (k = "headers") then Some (VObj hdrs)
        else if decide (k = "method") then Some (VStr (HTTP.verb m))
        else None
    end.
Proof.
  unfold request_init. rewrite spread2_lookup.
  destruct (o !! k); [done|].
  rewrite lookup_insert. case_decide; [by rewrite decide_True|].
  rewrite decide_False by done.
  rewrite lookup_insert. case_decide; [by rewrite decide_True|].
  by rewrite decide_False, lookup_empty.
Qed.


(** *** Options overlay *)

Lemma options_replaces (w : World) this b o :
  instances w !! this = Some b →
  options this o w =
    Some (this, set_instances
      <[this := mkObj (p_method b) (p_headers b) (p_path b) o (p_data b)]> w).
Proof. intros Hb. unfold options. by rewrite Hb. Qed.

(** C3: the options [run] passes to the transport are
    [{ method, headers: merged, ...options }] with the options record of
    the builder, as it is when [run] reads it after the header sources
    have resolved, spread last: every key of that record keeps its
    value, [method] and [headers] have the computed values only when
    the record lacks them, and a [headers] key in the record replaces
    the merged headers as a whole.  The record is that of the last
    [options] call made before the call is resumed, be it made by a
    header function or by the caller while the call is suspended. *)
Theorem run_options_spread_last (w : World) this b w1 items :
  resolves w this b w1 items →
  ∃ susp,
    run_until_await this w = Some (Normal susp, w1) ∧
    (∃ b1, instances w1 !! this = Some b1 ∧ same_builder b b1 ∧
           run this w = run_from_await this susp w1) ∧
    ∀ w2 b2, instances w2 !! this = Some b2 →
      ∃ r w' url init body,
        run_from_await this susp w2 = Some (r, w') ∧
        trace w' = trace w2 ++ [CallFetch url init body] ∧
        (∀ k, init !! k =
           match p_opts b2 !! k with
           | Some v => Some v
           | None =>
               if decide (k = "headers") then Some (VObj (merge_headers items))
               else if decide (k = "method")
                    then Some (VStr (HTTP.verb (p_method b)))
               else None
           end) ∧
        (∀ k v, p_opts b2 !! k = Some v → init !! k = Some v) ∧
        (∀ v, p_opts b2 !! "headers" = Some v → init !! "headers" = Some v) ∧
        (p_opts b2 !! "headers" = None →
         init !! "headers" = Some (VObj (merge_headers items))) ∧
        (p_opts b2 !! "method" = None →
         init !! "method" = Some (VStr (HTTP.verb (p_method b)))) ∧
        ∀ o w3, options this o w2 = Some (this, w3) →
          ∃ r3 w3',
            run_from_await this susp w3 = Some (r3, w3') ∧
            trace w3' = trace w2 ++
              [CallFetch url (request_init (p_method b) (merge_headers items) o)
                         body].
Proof.
  intros Hres.
  destruct (run_suspends _ _ _ _ _ Hres) as (susp & Hu & Hurl & Hmeth & Hp).
  exists susp. split; [done|]. split.
  { destruct (resolves_builder _ _ _ _ _ Hres) as (b1 & Hb1 & Hsame).
    exists b1. split; [done|]. split; [done|]. by apply run_resumes. }
  intros w2 b2 Hb2.
  destruct (run_from_await_sends _ _ _ _ _ Hp Hb2) as (w' & Hr & Ht & _).
  do 5 eexists. split; [exact Hr|]. split; [exact Ht|].
  rewrite Hmeth. split_and!.
  - intros k. apply request_init_lookup.
  - intros k v Hk. by rewrite request_init_lookup, Hk.
  - intros v Hk. by rewrite request_init_lookup, Hk.
  - intros Hk. by rewrite request_init_lookup, Hk.
  - intros Hk. by rewrite request_init_lookup, Hk.
  - intros o w3. rewrite (options_replaces _ _ _ _ Hb2). intros [= <-].
    edestruct (run_from_await_sends
      (set_instances
         <[this := mkObj (p_method b2) (p_headers b2) (p_path b2) o (p_data b2)]>
         w2) this
      (mkObj (p_method b2) (p_headers b2) (p_path b2) o (p_data b2))
      susp items Hp) as (w3' & Hr3 & Ht3 & _).
    { cbn. apply lookup_insert_eq. }
    do 2 eexists. split; [exact Hr3|]. by rewrite Ht3, Hmeth.
Qed.

(** *** The JSON wrapper *)

Lemma json_result_lookup (response : Response) parsedJSON k :
  json_result response parsedJSON !! k =
    match own_props parsedJSON !! k with
    | Some v => Some v
    | None =>
        if decide (k = "status") then Some (VNum (status response))
        else if decide (k = "ok") then Some (VBool (ok response))
        else None
    end.
Proof.
  unfold json_result. rewrite spread2_lookup.
  destruct (own_props parsedJSON !! k); [done|].
  rewrite lookup_insert. case_decide; [by rewrite decide_True|].
  rewrite decide_False by done.
  rewrite lookup_insert. case_decide; [by rewrite decide_True|].
  by rewrite decide_False, lookup_empty.
Qed.


(** *** The factories *)

Lemma new_builds (w : World) m path (h : option Header) :
  builds (new m path None (Single <$> h)) m path (option_list h) w.
Proof.
  unfold builds, new.
  set (w0 := match h with
             | Some h0 => alloc_array [h0] w
             | None => alloc_array [] w
             end).
  assert (w0 = alloc_array (option_list h) w) as Hw0 by by destruct h.
  replace (match Single <$> h with
           | Some (Single h0) => alloc_array [h0] w
           | Some (Array a) => (a, w)
           | None => alloc_array [] w
           end) with w0 by by destruct h.
  rewrite Hw0. unfold alloc_array. cbn.
  set (a := fresh (dom (arrays w))).
  set (this := fresh (dom (instances w))).
  assert (arrays w !! a = None) as Ha by apply not_elem_of_dom, is_fresh.
  assert (instances w !! this = None) as Hthis by apply not_elem_of_dom, is_fresh.
  do 3 eexists. split; [done|]. cbn.
  rewrite !lookup_insert_eq. repeat split; try done.
  { cbn. apply lookup_insert_eq. }
  intros hs.
  edestruct (header_chain_appends
    (set_instances <[this := mkObj m a path ∅ VUndefined]>
       (set_arrays <[a := option_list h]> w)) this) as (w'' & Hc & _ & _ & _ & _ & Hh).
  - cbn. apply lookup_insert_eq.
  - cbn. apply lookup_insert_eq.
  - exists w''. split; [exact Hc|]. rewrite Hh. cbn. apply lookup_insert_eq.
Qed.

(** C5: [POST], [PUT] and [_METHODS_WITH_DATA], the constructor for the
    other methods with a JSON body such as [PATCH], build a builder whose
    header sources are [{ "Content-Type": "application/json" }] alone,
    which stays the first source whatever [header] adds, so that the
    merged headers always have that key, with the value of the last
    later source that has it if there is one; [GET], [DEL] and
    [_METHODS_WO_DATA], the constructor for the other methods without a
    body such as [HEAD] and [OPTIONS], build a builder with no header
    source. *)
Theorem factories_default_headers (w : World) (m : HTTPMethod) (path : string) :
  let ct : JSObject := {[ "Content-Type" := VStr "application/json" ]} in
  (builds (POST path) HTTP.POST path [HObject ct] w ∧
   builds (PUT path) HTTP.PUT path [HObject ct] w ∧
   builds (_METHODS_WITH_DATA m path) m path [HObject ct] w) ∧
  (builds (GET path) HTTP.GET path [] w ∧
   builds (DEL path) HTTP.DELETE path [] w ∧
   builds (_METHODS_WO_DATA m path) m path [] w) ∧
  ∀ items : list JSObject,
    merge_headers (ct :: items) !! "Content-Type" =
      match last_binding "Content-Type" items with
      | Some v => Some v
      | None => Some (VStr "application/json")
      end.
Proof.
  intros ct. split; [|split].
  - repeat split;
      apply (new_builds w _ path (Some (HObject ct))).
  - repeat split; apply (new_builds w _ path None).
  - intros items. rewrite merge_headers_lookup. cbn [last_binding].
    by destruct (last_binding "Content-Type" items).
Qed.

(** *** Dispatch *)

Lemma runJSON_of_run (w : World) this r w' :
  run this w = Some (r, w') →
  runJSON this w =
    Some (match r with
          | Rejected e => Rejected e
          | Fulfilled response =>
              match json response with
              | Rejected e => Rejected e
              | Fulfilled parsedJSON =>
                  Fulfilled (json_result response parsedJSON)
              end
          end, w').
Proof. intros Hrun. unfold runJSON. by rewrite Hrun. Qed.

Lemma resolves_functional (w : World) this b w1 items w2 items' :
  resolves w this b w1 items → resolves w this b w2 items' →
  w1 = w2 ∧ items = items'.
Proof.
  intros (_ & hs & rs & Hhs & Hm & Hp) (_ & hs' & rs' & Hhs' & Hm' & Hp').
  rewrite Hhs in Hhs'. injection Hhs' as <-.
  rewrite Hm in Hm'. injection Hm' as <- <-.
  rewrite Hp in Hp'. by injection Hp' as <-.
Qed.

(** C6 (amended): a terminal call on a builder whose header sources all
    resolve calls the transport exactly once, with the URL resolved when
    the call was made, the options assembled from the method, the merged
    headers and the options record, and the data, the record and the
    data being those the builder has when the call goes on after the
    header sources have resolved; [run] gives back what the transport
    gave, and [runJSON] the parsed body augmented with [ok] and
    [status]; when a header source fails the transport is not called and
    the call is rejected; in no case is the transport called twice, and
    [runJSON] makes no call beyond those of the [run] it wraps. *)
Theorem terminal_call_dispatch (w : World) this b hs :
  instances w !! this = Some b → arrays w !! p_headers b = Some hs →
  ∃ r w' r',
    run this w = Some (r, w') ∧ runJSON this w = Some (r', w') ∧
    (∀ w1 items, resolves w this b w1 items →
       let url := target_url (_baseUrl w) (p_path b) in
       (∃ b1, instances w1 !! this = Some b1 ∧
          let init :=
            request_init (p_method b) (merge_headers items) (p_opts b1) in
          fetch_calls (trace w') =
            fetch_calls (trace w) ++ [(url, init, p_data b1)] ∧
          r = (_fetch url init (p_data b1) (ext w1)).1 ∧
          ext w' = (_fetch url init (p_data b1) (ext w1)).2) ∧
       ∃ susp,
         run_until_await this w = Some (Normal susp, w1) ∧
         fetch_calls (trace w1) = fetch_calls (trace w) ∧
         ∀ w2 b2, instances w2 !! this = Some b2 →
           let init :=
             request_init (p_method b) (merge_headers items) (p_opts b2) in
           ∃ w2',
             run_from_await this susp w2 =
               Some ((_fetch url init (p_data b2) (ext w2)).1, w2') ∧
             trace w2' = trace w2 ++ [CallFetch url init (p_data b2)] ∧
             ext w2' = (_fetch url init (p_data b2) (ext w2)).2) ∧
    ((∀ w1 items, ¬ resolves w this b w1 items) →
       fetch_calls (trace w') = fetch_calls (trace w) ∧
       ∃ e, r = Rejected e ∧ r' = Rejected e) ∧
    (∀ response parsedJSON,
       r = Fulfilled response → json response = Fulfilled parsedJSON →
       r' = Fulfilled (json_result response parsedJSON)) ∧
    ∃ calls, fetch_calls (trace w') = fetch_calls (trace w) ++ calls ∧
             length calls ≤ 1.
Proof.
  intros Hb Hhs.
  destruct (run_cases w this b hs Hb Hhs)
    as [(e & w1 & Hm)|[(rs & e & w1 & Hm & Hp)|(w1 & items & Hres)]].
  - pose proof (run_thrown _ _ _ _ _ _ Hb Hhs Hm) as Hrun.
    exists (Rejected e), w1, (Rejected e).
    split; [done|]. split; [by rewrite (runJSON_of_run _ _ _ _ Hrun)|].
    apply array_map_frame in Hm as Hfr. destruct Hfr as (_ & _ & _ & called & Ht & _).
    assert (fetch_calls (trace w1) = fetch_calls (trace w)) as Hf
      by by rewrite Ht, fetch_calls_app, fetch_calls_headers, app_nil_r.
    split_and!.
    + intros w2 items (_ & hs' & rs & Hhs' & Hm' & _). congruence.
    + intros _. split; [done|]. by exists e.
    + done.
    + exists []. split; [by rewrite app_nil_r|cbn; lia].
  - pose proof (run_rejected _ _ _ _ _ _ _ Hb Hhs Hm Hp) as Hrun.
    exists (Rejected e), w1, (Rejected e).
    split; [done|]. split; [by rewrite (runJSON_of_run _ _ _ _ Hrun)|].
    apply array_map_frame in Hm as Hfr. destruct Hfr as (_ & _ & _ & called & Ht & _).
    assert (fetch_calls (trace w1) = fetch_calls (trace w)) as Hf
      by by rewrite Ht, fetch_calls_app, fetch_calls_headers, app_nil_r.
    split_and!.
    + intros w2 items (_ & hs' & rs' & Hhs' & Hm' & Hp'). congruence.
    + intros _. split; [done|]. by exists e.
    + done.
    + exists []. split; [by rewrite app_nil_r|cbn; lia].
  - destruct (resolves_builder _ _ _ _ _ Hres) as (b1 & Hb1 & _).
    pose proof (run_resolved _ _ _ _ _ _ Hres Hb1) as Hrun. cbn zeta in Hrun.
    pose proof (resolves_fetch_calls _ _ _ _ _ Hres) as Hf.
    do 3 eexists. split; [exact Hrun|].
    split; [exact (runJSON_of_run _ _ _ _ Hrun)|].
    split_and!.
    + intros w2 items' Hres'.
      destruct (resolves_functional _ _ _ _ _ _ _ Hres Hres') as [<- <-].
      cbn zeta. split.
      * exists b1. split; [done|]. cbn. by rewrite fetch_calls_snoc, Hf.
      * destruct (run_suspends _ _ _ _ _ Hres)
          as (susp & Hu & Hurl & Hmeth & Hp).
        exists susp. split; [done|]. split; [done|]. intros w2 b2 Hb2.
        destruct (run_from_await_sends _ _ _ _ _ Hp Hb2)
          as (w2' & Hr & Ht' & Hx & _).
        rewrite Hurl, Hmeth in Hr, Ht', Hx. by exists w2'.
    + intros Hnone. exfalso. by apply (Hnone w1 items).
    + by intros response parsedJSON -> ->.
    + eexists [_]. split; [cbn; by rewrite fetch_calls_snoc, Hf|cbn; lia].
Qed.

(** *** The data payload *)

Lemma data_sets (w : World) this b d :
  instances w !! this = Some b →
  data this d w =
    Some (this, set_instances
      <[this := mkObj (p_method b) (p_headers b) (p_path b) (p_opts b) d]> w).
Proof. intros Hb. unfold data. by rewrite Hb. Qed.

Lemma data_chain_last (w : World) this b ds d :
  instances w !! this = Some b →
  data_chain this (ds ++ [d]) w =
    Some (this, set_instances
      <[this := mkObj (p_method b) (p_headers b) (p_path b) (p_opts b) d]> w).
Proof.
  revert w b; induction ds as [|d0 ds IH]; intros w b Hb; cbn.
  - by rewrite (data_sets _ _ _ _ Hb).
  - rewrite (data_sets _ _ _ _ Hb).
    erewrite IH by (cbn; apply lookup_insert_eq). cbn.
    destruct w. unfold set_instances. cbn. by rewrite insert_insert_eq.
Qed.

(** C7 (amended): of a chain of [data] calls the value of the last one
    is the one stored, and [run] passes to the transport as its third
    argument the value that is stored when it reads it, which is after
    the header sources have resolved, whatever the method of the builder
    is, [GET], [DELETE], [HEAD] and [OPTIONS] included: the value of the
    chain when nothing stores another one in the meantime, and otherwise
    the value of the last [data] call made before the call goes on. *)
Theorem data_last_write_any_method (w : World) this b ds d :
  instances w !! this = Some b →
  let b' := mkObj (p_method b) (p_headers b) (p_path b) (p_opts b) d in
  ∃ w0,
    data_chain this (ds ++ [d]) w = Some (this, w0) ∧
    instances w0 !! this = Some b' ∧
    ∀ w1 items, resolves w0 this b' w1 items →
      (∃ b1 r w' url init,
         instances w1 !! this = Some b1 ∧
         run this w0 = Some (r, w') ∧
         fetch_calls (trace w') =
           fetch_calls (trace w) ++ [(url, init, p_data b1)] ∧
         (instances w1 = instances w0 → p_data b1 = d)) ∧
      ∃ susp,
        run_until_await this w0 = Some (Normal susp, w1) ∧
        ∀ w2 b2, instances w2 !! this = Some b2 →
          (∃ r w' url init,
             run_from_await this susp w2 = Some (r, w') ∧
             trace w' = trace w2 ++ [CallFetch url init (p_data b2)]) ∧
          ∀ ds' d', ∃ w3 r w' url init,
            data_chain this (ds' ++ [d']) w2 = Some (this, w3) ∧
            run_from_await this susp w3 = Some (r, w') ∧
            trace w' = trace w2 ++ [CallFetch url init d'].
Proof.
  intros Hb b'. eexists. split; [by apply data_chain_last|].
  split; [cbn; apply lookup_insert_eq|].
  intros w1 items Hres.
  destruct (run_suspends _ _ _ _ _ Hres) as (susp & Hu & Hurl & Hmeth & Hp).
  split.
  - destruct (resolves_builder _ _ _ _ _ Hres) as (b1 & Hb1 & _).
    rewrite (run_resolved _ _ _ _ _ _ Hres Hb1). cbn zeta.
    do 5 eexists. split; [exact Hb1|]. split; [done|].
    split.
    + pose proof (resolves_fetch_calls _ _ _ _ _ Hres) as Hf. cbn in Hf.
      cbn. by rewrite fetch_calls_snoc, Hf.
    + intros Heq. rewrite Heq in Hb1. cbn in Hb1.
      rewrite lookup_insert_eq in Hb1. by injection Hb1 as <-.
  - exists susp. split; [done|]. intros w2 b2 Hb2. split.
    + destruct (run_from_await_sends _ _ _ _ _ Hp Hb2) as (w' & Hr & Ht & _).
      by do 4 eexists.
    + intros ds' d'. rewrite (data_chain_last _ _ _ ds' d' Hb2).
      edestruct (run_from_await_sends
        (set_instances
           <[this := mkObj (p_method b2) (p_headers b2) (p_path b2)
                           (p_opts b2) d']> w2) this
        (mkObj (p_method b2) (p_headers b2) (p_path b2) (p_opts b2) d')
        susp items Hp) as (w' & Hr & Ht & _).
      { cbn. apply lookup_insert_eq. }
      by do 5 eexists.
Qed.

(** *** Failures *)

(** The source that throws, or that returns a given element of the
    mapped array, does so in the world the sources before it leave. *)
Lemma array_map_throws_at (hs : list Header) i (w : World) e w1 :
  array_map hs i w = (Throw e, w1) →
  ∃ j f g rs0 wj,
    hs !! j = Some (HFunction f g) ∧
    array_map (take j hs) i w = (Normal rs0, wj) ∧
    (f (ext wj)).1 = Throw e.
Proof.
  revert i w; induction hs as [|h hs IH]; intros i w; cbn [array_map]; [done|].
  destruct (header_value h i w) as [[r|e'] w0] eqn:Hh.
  - destruct (array_map hs (S i) w0) as [[rs'|e'] w2] eqn:Hm; [done|].
    intros [= -> <-].
    destruct (IH _ _ Hm) as (j & f & g & rs0 & wj & Hj & Hpre & Hf).
    exists (S j), f, g, (r :: rs0), wj. split; [done|]. split; [|done].
    cbn [take array_map]. by rewrite Hh, Hpre.
  - intros [= -> <-]. destruct h as [o|f g]; cbn in Hh; [done|].
    exists 0, f, g, [], w. split; [done|]. split; [done|].
    destruct (f (ext w)). by injection Hh as -> <-.
Qed.

Lemma array_map_returns_at (hs : list Header) i (w : World) rs w1 j r :
  array_map hs i w = (Normal rs, w1) → rs !! j = Some r →
  ∃ h rs0 wj,
    hs !! j = Some h ∧
    array_map (take j hs) i w = (Normal rs0, wj) ∧
    match h with
    | HObject o => r = Now o
    | HFunction f _ => (f (ext wj)).1 = Normal r
    end.
Proof.
  revert i w rs j; induction hs as [|h hs IH]; intros i w rs j;
    cbn [array_map].
  - by intros [= <- <-].
  - destruct (header_value h i w) as [[r0|e'] w0] eqn:Hh; [|done].
    destruct (array_map hs (S i) w0) as [[rs'|e'] w2] eqn:Hm; [|done].
    intros [= <- <-]. destruct j as [|j]; cbn [lookup list_lookup].
    + intros [= <-]. exists h, [], w. split; [done|]. split; [done|].
      destruct h as [o|f g]; cbn in Hh.
      * by injection Hh as <- <-.
      * destruct (f (ext w)). by injection Hh as <- <-.
    + intros Hj. destruct (IH _ _ _ _ Hm Hj) as (h' & rs0 & wj & Hj' & Hpre & Hr).
      exists h', (r0 :: rs0), wj. split; [done|]. split; [|done].
      cbn [take array_map]. by rewrite Hh, Hpre.
Qed.

(** A traversal in which a source fails when its turn comes does not
    end with an array of header objects. *)
Lemma array_map_failing (hs : list Header) (w : World) j h :
  hs !! j = Some h →
  (∀ rs0 wj, array_map (take j hs) 0 w = (Normal rs0, wj) →
             ∃ e, fails_with h (ext wj) e) →
  (∃ e w1, array_map hs 0 w = (Throw e, w1)) ∨
  (∃ rs e w1, array_map hs 0 w = (Normal rs, w1) ∧ promise_all rs = Rejected e).
Proof.
  intros Hj Hfail.
  rewrite <- (take_drop_middle hs j h Hj), array_map_app.
  destruct (array_map (take j hs) 0 w) as [[rs0|e0] wj] eqn:Hpre;
    [|left; eauto].
  destruct (Hfail rs0 wj eq_refl) as [e He].
  destruct h as [o|f g]; [done|]. cbn [array_map header_value].
  destruct He as [He|[t He]]; destruct (f (ext wj)) as [c x]; cbn in He; subst c.
  - left. eauto.
  - destruct (array_map (drop (S j) hs) _ _) as [[rs'|e'] w2];
      [right|left; eauto].
    destruct (promise_all_rejects
                (rs0 ++ Later (mkPromise t (Rejected e)) :: rs') t e)
      as [e' He']; [apply elem_of_app; right; left|].
    by exists (rs0 ++ Later (mkPromise t (Rejected e)) :: rs'), e', w2.
Qed.

(** C8: a terminal call is rejected exactly with what a header source
    threw or was rejected with, or with what the transport was rejected
    with, or, for [runJSON], with what parsing the body was rejected
    with; a header source that fails when its turn comes makes the call
    fail without the transport being reached; nothing is called a second
    time. *)
Theorem failures_propagate (w : World) this b hs :
  instances w !! this = Some b → arrays w !! p_headers b = Some hs →
  ∃ r w' r',
    run this w = Some (r, w') ∧ runJSON this w = Some (r', w') ∧
    (∀ e, r = Rejected e →
       (∃ j h rs0 wj,
          hs !! j = Some h ∧
          array_map (take j hs) 0 w = (Normal rs0, wj) ∧
          fails_with h (ext wj) e) ∨
       (∃ w1 items, resolves w this b w1 items)) ∧
    (∀ w1 items, resolves w this b w1 items →
       ∃ b1, instances w1 !! this = Some b1 ∧
         r = (_fetch (target_url (_baseUrl w) (p_path b))
                     (request_init (p_method b) (merge_headers items)
                                   (p_opts b1))
                     (p_data b1) (ext w1)).1) ∧
    (∀ e, r = Rejected e → r' = Rejected e) ∧
    (∀ response e, r = Fulfilled response → json response = Rejected e →
                   r' = Rejected e) ∧
    (∀ e, r' = Rejected e →
       r = Rejected e ∨
       ∃ response, r = Fulfilled response ∧ json response = Rejected e) ∧
    (∀ j h, hs !! j = Some h →
       (∀ rs0 wj, array_map (take j hs) 0 w = (Normal rs0, wj) →
                  ∃ e, fails_with h (ext wj) e) →
       (∃ e, r = Rejected e ∧ r' = Rejected e) ∧
       fetch_calls (trace w') = fetch_calls (trace w)) ∧
    ∃ called calls,
      trace w' = trace w ++ (CallHeader <$> called) ++ calls ∧
      NoDup called ∧ header_calls calls = [] ∧ length calls ≤ 1.
Proof.
  intros Hb Hhs.
  assert (∀ (r : Settled Response) w',
    run this w = Some (r, w') →
    ∃ r', runJSON this w = Some (r', w') ∧
      (∀ e, r = Rejected e → r' = Rejected e) ∧
      (∀ response e, r = Fulfilled response → json response = Rejected e →
                     r' = Rejected e) ∧
      (∀ e, r' = Rejected e →
         r = Rejected e ∨
         ∃ response, r = Fulfilled response ∧ json response = Rejected e))
    as HJ.
  { intros r w' Hrun. eexists. split; [exact (runJSON_of_run _ _ _ _ Hrun)|].
    split; [by intros e ->|]. split; [by intros response e -> ->|].
    intros e. destruct r as [response|e0]; [|intros [= ->]; by left].
    destruct (json response) eqn:Hj; [done|]. intros [= ->]. right. eauto. }
  assert (∀ c w1, array_map hs 0 w = (c, w1) →
    ∃ called, trace w1 = trace w ++ (CallHeader <$> called) ∧ NoDup called)
    as HT.
  { intros c w1 (_ & _ & _ & called & Ht & [k Hk] & _)%array_map_frame.
    exists called. split; [done|].
    pose proof (callable_indices_NoDup hs 0) as Hnd.
    rewrite Hk in Hnd. by apply NoDup_app in Hnd as [? _]. }
  destruct (run_cases w this b hs Hb Hhs)
    as [(e & w1 & Hm)|[(rs & e & w1 & Hm & Hp)|(w1 & items & Hres)]].
  - pose proof (run_thrown _ _ _ _ _ _ Hb Hhs Hm) as Hrun.
    destruct (HJ _ _ Hrun) as (r' & HrJ & HJ1 & HJ2 & HJ3).
    destruct (HT _ _ Hm) as (called & Ht & Hnd).
    exists (Rejected e), w1, r'. split; [done|]. split; [done|].
    split; [|split; [|split; [|split; [|split; [|split]]]]]; try done.
    + intros e' [= <-]. left.
      destruct (array_map_throws_at _ _ _ _ _ Hm)
        as (j & f & g & rs0 & wj & Hj & Hpre & Hf).
      exists j, (HFunction f g), rs0, wj. split; [done|]. split; [done|]. by left.
    + intros w2 items (_ & hs' & rs & Hhs' & Hm' & _). congruence.
    + intros j h Hj Hfail. split; [exists e; split; [done|by apply HJ1]|].
      by rewrite Ht, fetch_calls_app, fetch_calls_headers, app_nil_r.
    + exists called, []. rewrite app_nil_r. repeat split; [done..|cbn; lia].
  - pose proof (run_rejected _ _ _ _ _ _ _ Hb Hhs Hm Hp) as Hrun.
    destruct (HJ _ _ Hrun) as (r' & HrJ & HJ1 & HJ2 & HJ3).
    destruct (HT _ _ Hm) as (called & Ht & Hnd).
    exists (Rejected e), w1, r'. split; [done|]. split; [done|].
    split; [|split; [|split; [|split; [|split; [|split]]]]]; try done.
    + intros e' [= <-]. left.
      apply promise_all_rejected in Hp as (t & (j & Hj)%list_elem_of_lookup & _).
      destruct (array_map_returns_at _ _ _ _ _ _ _ Hm Hj)
        as (h & rs0 & wj & Hj' & Hpre & Hr).
      exists j, h, rs0, wj. split; [done|]. split; [done|].
      destruct h as [o|f g]; [done|]. right. by exists t.
    + intros w2 items (_ & hs' & rs' & Hhs' & Hm' & Hp'). congruence.
    + intros j h Hj Hfail. split; [exists e; split; [done|by apply HJ1]|].
      by rewrite Ht, fetch_calls_app, fetch_calls_headers, app_nil_r.
    + exists called, []. rewrite app_nil_r. repeat split; [done..|cbn; lia].
  - destruct (resolves_builder _ _ _ _ _ Hres) as (b1 & Hb1 & _).
    pose proof (run_resolved _ _ _ _ _ _ Hres Hb1) as Hrun. cbn zeta in Hrun.
    destruct (HJ _ _ Hrun) as (r' & HrJ & HJ1 & HJ2 & HJ3).
    pose proof Hres as (_ & hs' & rs & Hhs' & Hm & Hp).
    rewrite Hhs in Hhs'. injection Hhs' as <-.
    destruct (HT _ _ Hm) as (called & Ht & Hnd).
    do 2 eexists. exists r'. split; [exact Hrun|]. split; [done|].
    split; [|split; [|split; [|split; [|split; [|split]]]]]; try done.
    + intros e _. right. eauto.
    + intros w2 items' Hres'.
      destruct (resolves_functional _ _ _ _ _ _ _ Hres Hres') as [<- <-].
      by exists b1.
    + intros j h Hj Hfail. exfalso.
      destruct (array_map_failing hs w j h Hj Hfail)
        as [(e & w2 & Hm')|(rs' & e & w2 & Hm' & Hp')]; congruence.
    + exists called. eexists [_]. cbn. rewrite Ht, <- (assoc_L (++)).
      repeat split; [done|cbn; lia].
Qed.

(** *** The base URL *)

Lemma resolves_set_baseUrl (w : World) this b w1 items s :
  resolves w this b w1 items →
  resolves (set_baseUrl s w) this b (set_baseUrl s w1) items.
Proof.
  intros (Hb & hs & rs & Hhs & Hm & Hp). split; [done|].
  exists hs, rs. split; [done|]. split; [|done].
  by rewrite array_map_base, Hm.
Qed.

(** C9: the base URL that counts is the one current when [run] is
    called: once [oof._baseUrl] has been assigned [s], a builder made
    before the assignment, whose path has no scheme, sends its request
    to [s] followed by the path; an assignment made while the call is
    suspended comes too late for it. *)
Theorem base_url_read_at_run (w : World) this b w1 items s :
  resolves w this b w1 items → ¬ contains_scheme (p_path b) →
  instances (set_baseUrl s w) !! this = Some b ∧
  (∃ r w' init body,
     run this (set_baseUrl s w) = Some (r, w') ∧
     fetch_calls (trace w') =
       fetch_calls (trace w) ++ [(s +:+ p_path b, init, body)]) ∧
  ∃ susp,
    run_until_await this (set_baseUrl s w) =
      Some (Normal susp, set_baseUrl s w1) ∧
    ∀ s' w2, is_Some (instances w2 !! this) →
      ∃ r w' init body,
        run_from_await this susp (set_baseUrl s' w2) = Some (r, w') ∧
        fetch_calls (trace w') =
          fetch_calls (trace w2) ++ [(s +:+ p_path b, init, body)].
Proof.
  intros Hres Hno. split; [by destruct Hres|].
  apply (resolves_set_baseUrl _ _ _ _ _ s) in Hres.
  destruct (run_suspends _ _ _ _ _ Hres) as (susp & Hu & Hurl & Hmeth & Hp).
  cbn in Hurl. rewrite (proj2 (target_url_spec s (p_path b)) Hno) in Hurl.
  assert (∀ w2 : World, is_Some (instances w2 !! this) →
    ∃ r w' init body,
      run_from_await this susp w2 = Some (r, w') ∧
      fetch_calls (trace w') =
        fetch_calls (trace w2) ++ [(s +:+ p_path b, init, body)]) as Hany.
  { intros w2 [b2 Hb2].
    destruct (run_from_await_sends _ _ _ _ _ Hp Hb2) as (w' & Hr & Ht & _).
    do 4 eexists. split; [exact Hr|]. by rewrite Ht, fetch_calls_snoc, Hurl. }
  split.
  - destruct (resolves_builder _ _ _ _ _ Hres) as (b1 & Hb1 & _).
    destruct (Hany (set_baseUrl s w1)) as (r & w' & init & body & Hr & Ht);
      [by eexists|].
    exists r, w', init, body. rewrite (run_resumes _ _ _ _ Hu).
    split; [done|]. rewrite Ht.
    by rewrite (resolves_fetch_calls _ _ _ _ _ Hres).
  - exists susp. split; [done|]. intros s' w2 Hw2.
    by apply (Hany (set_baseUrl s' w2)).
Qed.

Lemma run_until_await_frame (w : World) this c w1 :
  run_until_await this w = Some (c, w1) →
  _baseUrl w1 = _baseUrl w ∧ evolves (instances w) (instances w1) ∧
  arrays w1 = arrays w ∧
  ∃ called, trace w1 = trace w ++ (CallHeader <$> called).
Proof.
  unfold run_until_await. destruct (instances w !! this) as [b|]; [cbn|done].
  destruct (arrays w !! p_headers b) as [hs|]; [cbn|done].
  destruct (array_map hs 0 w) as [[rs|e] w0] eqn:Hm;
    apply array_map_frame in Hm as (Hbase & Hi & Ha & called & Ht & _);
    intros [= <- <-]; split_and!; try done; by exists called.
Qed.

Lemma run_from_await_frame (w : World) this (s : Suspended) r w' :
  run_from_await this s w = Some (r, w') →
  _baseUrl w' = _baseUrl w ∧ instances w' = instances w ∧
  arrays w' = arrays w ∧
  ∃ calls, trace w' = trace w ++ calls ∧ header_calls calls = [] ∧
           length calls ≤ 1.
Proof.
  unfold run_from_await. destruct (promise_all (s_mapped s)).
  - destruct (instances w !! this) as [b|]; [cbn|done].
    destruct (_fetch _ _ _ _). intros [= <- <-]. split_and!; try done.
    eexists [_]. split; [done|]. split; [done|cbn; lia].
  - intros [= <- <-]. split_and!; try done.
    exists []. rewrite app_nil_r. split; [done|]. split; [done|cbn; lia].
Qed.

Lemma run_frame (w : World) this r w' :
  run this w = Some (r, w') →
  _baseUrl w' = _baseUrl w ∧ evolves (instances w) (instances w') ∧
  arrays w' = arrays w.
Proof.
  unfold run.
  destruct (run_until_await this w) as [[[s|e] w1]|] eqn:Hu; cbn; [| |done];
    apply run_until_await_frame in Hu as (Hbase & Hi & Ha & _).
  - intros (Hbase' & Hi' & Ha' & _)%run_from_await_frame.
    split_and!; [congruence|by rewrite Hi'|congruence].
  - by intros [= <- <-].
Qed.

Lemma run_baseUrl (w : World) this r w' :
  run this w = Some (r, w') → _baseUrl w' = _baseUrl w.
Proof. by intros (? & _)%run_frame. Qed.

Lemma resume_frame q (w w' : World) :
  resume q w = Some w' →
  _baseUrl w' = _baseUrl w ∧ instances w' = instances w ∧
  arrays w' = arrays w.
Proof.
  revert w; induction q as [|[this s] q IH]; intros w; cbn.
  - by intros [= <-].
  - destruct (run_from_await this s w) as [[r w0]|] eqn:Hr; [|done].
    apply run_from_await_frame in Hr as (Hbase & Hi & Ha & _).
    intros (? & ? & ?)%IH. split_and!; congruence.
Qed.

Lemma start_frame this (s s' : Session) :
  start this s = Some s' →
  _baseUrl s'.1 = _baseUrl s.1 ∧ evolves (instances s.1) (instances s'.1) ∧
  arrays s'.1 = arrays s.1.
Proof.
  unfold start.
  destruct (run_until_await this s.1) as [[[susp|e] w1]|] eqn:Hu; [| |done];
    apply run_until_await_frame in Hu as (Hbase & Hi & Ha & _);
    by intros [= <-].
Qed.

Lemma new_frame (w : World) m p o h this w0 :
  new m p o h w = Some (this, w0) →
  _baseUrl w0 = _baseUrl w ∧ ext w0 = ext w ∧ trace w0 = trace w.
Proof. unfold new. destruct h as [[h|a]|]; cbn; by intros [= <- <-]. Qed.

Lemma plain_baseUrl c (w w' : World) :
  plain c w = Some w' → assigns_baseUrl c = false → _baseUrl w' = _baseUrl w.
Proof.
  destruct c as [l|m p o h|this o|this h|this d|this|this|s|]; cbn; try done;
    try by intros [= <-].
  - assert (∀ w0, world_after (new m p o h w) = Some w0 →
                  _baseUrl w0 = _baseUrl w) as Hnew.
    { unfold new. intros w0.
      destruct h as [[h|a]|]; cbn; by intros [= <-]. }
    destruct h as [[h|a]|]; [by auto| |by auto].
    destruct (arrays w !! a); [by auto|done].
  - unfold options. destruct (instances w !! this); cbn; [|done].
    by intros [= <-].
  - unfold header. destruct (instances w !! this) as [b|]; cbn; [|done].
    destruct (arrays w !! p_headers b); cbn; [|done]. by intros [= <-].
  - unfold data. destruct (instances w !! this); cbn; [|done].
    by intros [= <-].
Qed.

Lemma step_baseUrl c (s s' : Session) :
  step c s = Some s' → assigns_baseUrl c = false →
  _baseUrl s'.1 = _baseUrl s.1.
Proof.
  intros Hs Hc.
  assert (∀ w, plain c s.1 = Some w → _baseUrl w = _baseUrl s.1) as Hplain
    by (intros w Hw; by apply (plain_baseUrl c)).
  destruct c as [l|m p o h|this o|this h|this d|this|this|b|];
    cbn [step] in Hs; try done;
    try (by apply start_frame in Hs as (? & _));
    try (destruct (plain _ s.1) as [w|] eqn:Hp; [|done];
         injection Hs as <-; by apply Hplain).
  destruct (resume s.2 s.1) as [w|] eqn:Hr; [|done]. injection Hs as <-.
  by apply resume_frame in Hr as (? & _).
Qed.

Lemma steps_baseUrl cs (s s' : Session) :
  steps cs s = Some s' → Forall (λ c, assigns_baseUrl c = false) cs →
  _baseUrl s'.1 = _baseUrl s.1.
Proof.
  revert s; induction cs as [|c cs IH]; intros s; cbn.
  - by intros [= <-].
  - destruct (step c s) as [s0|] eqn:Hs; [|done].
    intros Hex [Hc Hcs]%Forall_cons.
    rewrite (IH _ Hex Hcs). by apply (step_baseUrl c).
Qed.

Lemma exec_steps cs (w w' : World) :
  exec cs w = Some w' ↔
  ∃ s, steps cs (w, []) = Some s ∧ resume s.2 s.1 = Some w'.
Proof.
  unfold exec. destruct (steps cs (w, [])) as [s|]; split.
  - intros Hr. by exists s.
  - by intros (s' & [= <-] & Hr).
  - done.
  - by intros (? & ? & ?).
Qed.

Lemma exec_baseUrl cs (w w' : World) :
  exec cs w = Some w' → Forall (λ c, assigns_baseUrl c = false) cs →
  _baseUrl w' = _baseUrl w.
Proof.
  intros (s & Hs & Hr)%exec_steps Hcs.
  apply resume_frame in Hr as (-> & _).
  by apply (steps_baseUrl cs (w, []) s).
Qed.

(** *** Builders always have their array

    so that, in a world a caller can reach, a terminal call returns. *)

Lemma wf_init (x : Ext) : wf (init x : World).
Proof. intros l b. cbn. by rewrite lookup_empty. Qed.

Lemma wf_alloc_array (w : World) l : wf w → wf (alloc_array l w).2.
Proof.
  intros Hwf l0 b Hb. cbn in *. apply lookup_insert_is_Some'. right.
  by eapply Hwf.
Qed.

Lemma wf_set_instance (w : World) this b :
  wf w → is_Some (arrays w !! p_headers b) →
  wf (set_instances <[this := b]> w).
Proof.
  intros Hwf Hh l b0. cbn. rewrite lookup_insert. case_decide.
  - by intros [= <-].
  - apply Hwf.
Qed.

Lemma wf_evolves (w w' : World) :
  wf w → evolves (instances w) (instances w') → arrays w' = arrays w → wf w'.
Proof.
  intros Hwf He Ha l b1 Hb1.
  destruct (evolves_lookup_r _ _ _ _ He Hb1) as (b & Hb & _ & _ & Hh).
  rewrite Ha, Hh. by eapply Hwf.
Qed.

Lemma plain_wf c (w w' : World) : wf w → plain c w = Some w' → wf w'.
Proof.
  intros Hwf.
  destruct c as [l|m p o h|this o|this h|this d|this|this|s|]; cbn;
    try by intros [= <-].
  - intros [= <-]. by apply wf_alloc_array.
  - destruct h as [[h|a]|]; cbn.
    + intros [= <-].
      apply (wf_set_instance (alloc_array [h] w).2);
        [by apply wf_alloc_array|cbn; by rewrite lookup_insert_eq].
    + destruct (arrays w !! a) eqn:Ha; [|done]. cbn. intros [= <-].
      apply wf_set_instance; [done|]. cbn. by rewrite Ha.
    + intros [= <-].
      apply (wf_set_instance (alloc_array [] w).2);
        [by apply wf_alloc_array|cbn; by rewrite lookup_insert_eq].
  - unfold options. destruct (instances w !! this) as [b|] eqn:Hb; cbn; [|done].
    intros [= <-]. apply wf_set_instance; [done|]. cbn. by eapply Hwf.
  - unfold header. destruct (instances w !! this) as [b|] eqn:Hb; cbn; [|done].
    destruct (arrays w !! p_headers b) as [hs|] eqn:Hhs; cbn; [|done].
    intros [= <-] l b0 Hb0. cbn in *. apply lookup_insert_is_Some'. right.
    by eapply Hwf.
  - unfold data. destruct (instances w !! this) as [b|] eqn:Hb; cbn; [|done].
    intros [= <-]. apply wf_set_instance; [done|]. cbn. by eapply Hwf.
Qed.

Lemma step_wf c (s s' : Session) : wf s.1 → step c s = Some s' → wf s'.1.
Proof.
  intros Hwf Hs.
  destruct c as [l|m p o h|this o|this h|this d|this|this|b|];
    cbn [step] in Hs;
    try (apply start_frame in Hs as (_ & He & Ha); by eapply wf_evolves);
    try (destruct (plain _ s.1) as [w|] eqn:Hp; [|done];
         injection Hs as <-; by eapply plain_wf).
  destruct (resume s.2 s.1) as [w|] eqn:Hr; [|done]. injection Hs as <-.
  apply resume_frame in Hr as (_ & Hi & Ha).
  eapply wf_evolves; [done| |done]. cbn. rewrite Hi. apply evolves_refl.
Qed.

Lemma steps_wf cs (s s' : Session) : wf s.1 → steps cs s = Some s' → wf s'.1.
Proof.
  revert s; induction cs as [|c cs IH]; intros s Hwf; cbn.
  - by intros [= <-].
  - destruct (step c s) as [s0|] eqn:Hs; [|done].
    apply IH. by eapply step_wf.
Qed.

Lemma exec_wf cs (w w' : World) : wf w → exec cs w = Some w' → wf w'.
Proof.
  intros Hwf (s & Hs & Hr)%exec_steps.
  apply resume_frame in Hr as (_ & Hi & Ha).
  apply (wf_evolves s.1); [by apply (steps_wf cs (w, []) s)| |done].
  rewrite Hi. apply evolves_refl.
Qed.

Lemma run_returns (w : World) this b hs :
  instances w !! this = Some b → arrays w !! p_headers b = Some hs →
  ∃ r w' r', run this w = Some (r, w') ∧ runJSON this w = Some (r', w').
Proof.
  intros Hb Hhs.
  destruct (run_cases w this b hs Hb Hhs)
    as [(e & w1 & Hm)|[(rs & e & w1 & Hm & Hp)|(w1 & items & Hres)]].
  - pose proof (run_thrown _ _ _ _ _ _ Hb Hhs Hm) as Hrun.
    do 3 eexists. split; [done|]. exact (runJSON_of_run _ _ _ _ Hrun).
  - pose proof (run_rejected _ _ _ _ _ _ _ Hb Hhs Hm Hp) as Hrun.
    do 3 eexists. split; [done|]. exact (runJSON_of_run _ _ _ _ Hrun).
  - destruct (resolves_builder _ _ _ _ _ Hres) as (b1 & Hb1 & _).
    pose proof (run_resolved _ _ _ _ _ _ Hres Hb1) as Hrun.
    do 3 eexists. split; [done|]. exact (runJSON_of_run _ _ _ _ Hrun).
Qed.

Lemma reachable_run_returns (x : Ext) cs (w : World) this b :
  exec cs (init x) = Some w → instances w !! this = Some b →
  ∃ r w' r', run this w = Some (r, w') ∧ runJSON this w = Some (r', w').
Proof.
  intros Hex Hb.
  destruct (exec_wf _ _ _ (wf_init x) Hex this b Hb) as [hs Hhs].
  by eapply run_returns.
Qed.

(** C10: the base URL starts as the empty string, so as long as no
    caller has assigned it, a builder whose path has no scheme sends its
    request to the path itself. *)
Theorem base_url_initially_empty (x : Ext) cs (w : World) this b w1 items :
  exec cs (init x) = Some w →
  Forall (λ c, assigns_baseUrl c = false) cs →
  resolves w this b w1 items → ¬ contains_scheme (p_path b) →
  _baseUrl (init x : World) = "" ∧ _baseUrl w = "" ∧
  ∃ r w' init body,
    run this w = Some (r, w') ∧
    fetch_calls (trace w') = fetch_calls (trace w) ++ [(p_path b, init, body)].
Proof.
  intros Hex Hcs Hres Hno.
  pose proof (exec_baseUrl _ _ _ Hex Hcs) as Hbase. cbn in Hbase.
  split; [done|]. split; [done|].
  destruct (resolves_builder _ _ _ _ _ Hres) as (b1 & Hb1 & _).
  rewrite (run_resolved _ _ _ _ _ _ Hres Hb1). cbn zeta.
  do 4 eexists. split; [done|]. cbn.
  rewrite fetch_calls_snoc, (resolves_fetch_calls _ _ _ _ _ Hres).
  by rewrite (proj2 (target_url_spec _ (p_path b)) Hno), Hbase.
Qed.

End properties.
(** ** The properties on the concrete collaborators *)

(** The scheme test and the object spread on examples. *)
Example match_scheme_ex1 : match_scheme "http://localhost:3000/test" = true.
Proof. reflexivity. Qed.
Example match_scheme_ex2 : match_scheme "/test" = false.
Proof. reflexivity. Qed.
Example match_scheme_ex3 : match_scheme "/redirect?to=HtTpS://x.org" = true.
Proof. reflexivity. Qed.
Example match_scheme_ex4 : match_scheme "https:/x.org/http:" = false.
Proof. reflexivity. Qed.
Example own_props_ex :
  own_props (VStr "ab") = {[ "0" := VStr "a"; "1" := VStr "b" ]}.
Proof. reflexivity. Qed.

Example contains_scheme_mixed_case : contains_scheme "HtTpS://Example.org/a".
Proof.
  exists "", "HtTpS://", "Example.org/a". split; [reflexivity|]. right.
  exists "H"%char, "t"%char, "T"%char, "p"%char, "S"%char.
  split; [reflexivity|]. unfold either.
  repeat split; ((by left) || (by right)).
Qed.

Example target_url_relative :
  target_url "http://localhost:3000" "/test" = "http://localhost:3000/test".
Proof. reflexivity. Qed.

Example target_url_absolute :
  target_url "http://localhost:3000" "https://jsonplaceholder.typicode.com/todos/1"
    = "https://jsonplaceholder.typicode.com/todos/1".
Proof. reflexivity. Qed.

Example target_url_scheme_inside :
  target_url "http://localhost:3000" "/redirect?to=HtTpS://x.org"
    = "/redirect?to=HtTpS://x.org".
Proof. reflexivity. Qed.

Example target_url_double_slash :
  target_url "http://localhost:3000/" "/test" = "http://localhost:3000//test".
Proof. reflexivity. Qed.

(** The statements of a script, and the call that is suspended
    meanwhile: what [options] and [data] store after [run] has been
    called and before it goes on is what the transport receives. *)
Example late_setters_reach_transport :
  exec demo_fetch
    [CRun 1%positive;
     CData 1%positive (VStr "late");
     COptions 1%positive {[ "mode" := VStr "cors" ]};
     CAwait]
    world_get_test =
  Some (mkWorld "http://localhost:3000"
          {[ 1%positive := mkObj HTTP.GET 1%positive "/test"
                             {[ "mode" := VStr "cors" ]} (VStr "late") ]}
          {[ 1%positive := [] ]} 1
          [CallFetch "http://localhost:3000/test"
             (request_init HTTP.GET ∅ {[ "mode" := VStr "cors" ]})
             (VStr "late")]).
Proof. reflexivity. Qed.

(** A script that ends without waiting: the call goes on all the same
    once the last statement is done. *)
Example late_setters_at_end :
  exec demo_fetch
    [CRun 1%positive;
     CData 1%positive (VStr "late");
     COptions 1%positive {[ "mode" := VStr "cors" ]}]
    world_get_test =
  exec demo_fetch
    [CRun 1%positive;
     CData 1%positive (VStr "late");
     COptions 1%positive {[ "mode" := VStr "cors" ]};
     CAwait]
    world_get_test.
Proof. reflexivity. Qed.

(** The same for what a header function stores when it is called. *)
Example header_function_sets_builder :
  run demo_fetch 1%positive world_get_signing =
  Some (Fulfilled not_found,
        mkWorld "http://localhost:3000" {[ 1%positive := get_signed ]}
          {[ 1%positive := [signing_header] ]} 2
          [CallHeader 0;
           CallFetch "http://localhost:3000/test"
             (request_init HTTP.GET {[ "X-Signed" := VStr "yes" ]}
                {[ "mode" := VStr "cors" ]})
             (VStr "signed body")]).
Proof. reflexivity. Qed.

(** But the base URL and the path were read when [run] was called. *)
Example late_base_url_ignored :
  ∃ w', exec demo_fetch
          [CRun 1%positive; CSetBaseUrl "http://elsewhere"; CAwait]
          world_get_test = Some w' ∧
        _baseUrl w' = "http://elsewhere" ∧
        fetch_calls (trace w') =
          [("http://localhost:3000/test", request_init HTTP.GET ∅ ∅,
            VUndefined)].
Proof. eexists. repeat split; reflexivity. Qed.

Lemma run_target_url_witness :
  resolves world_get_mixed 1%positive get_mixed world_get_mixed [] ∧
  contains_scheme (p_path get_mixed) ∧
  _baseUrl world_get_mixed = "http://localhost:3000" ∧
  ∃ r w' init body,
    run demo_fetch 1%positive world_get_mixed = Some (r, w') ∧
    fetch_calls (trace w') = [("HtTpS://Example.org/a", init, body)].
Proof.
  assert (resolves world_get_mixed 1%positive get_mixed world_get_mixed []) as H.
  { split; [reflexivity|]. exists [], []. repeat split; reflexivity. }
  assert (contains_scheme (p_path get_mixed)) as Hc
    by exact contains_scheme_mixed_case.
  split; [exact H|]. split; [exact Hc|]. split; [reflexivity|].
  destruct (run_target_url demo_fetch _ _ _ _ _ H)
    as (url & Habs & _ & (r & w' & init & body & Hr & Ht) & _).
  exists r, w', init, body. split; [exact Hr|].
  rewrite Ht, (Habs Hc). reflexivity.
Defined.

Example post_headers_built :
  exec demo_fetch
    [CSetBaseUrl "http://localhost:3000";
     CNew HTTP.POST "/test" None
       (Some (Single (HObject {[ "Content-Type" := VStr "application/json" ]})));
     CHeader 1%positive token_header;
     CHeader 1%positive async_header;
     CHeader 1%positive last_header]
    (init 0) = Some world_post_headers.
Proof. reflexivity. Qed.



Example post_options_built :
  exec demo_fetch
    [COptions 1%positive {[ "headers" := VObj {[ "X" := VStr "1" ]} ]}]
    world_post_headers = Some world_post_shadowed.
Proof. reflexivity. Qed.

(** The options are given after [run] has been called, and before it
    goes on. *)
Lemma run_options_spread_last_witness :
  resolves world_post_headers 1%positive post_test world_post_called
    post_items ∧
  (p_opts post_test = ∅ ∧
   instances world_post_shadowed_called !! 1%positive = Some post_shadowed ∧
   p_opts post_shadowed !! "headers" = Some (VObj {[ "X" := VStr "1" ]}) ∧
   p_opts post_shadowed !! "method" = None) ∧
  ∃ susp,
    run_until_await 1%positive world_post_headers =
      Some (Normal susp, world_post_called) ∧
    ∃ r w' url init body,
      run_from_await demo_fetch 1%positive susp world_post_shadowed_called =
        Some (r, w') ∧
      trace w' = [CallHeader 1; CallHeader 2; CallFetch url init body] ∧
      init !! "headers" = Some (VObj {[ "X" := VStr "1" ]}) ∧
      init !! "method" = Some (VStr "POST").
Proof.
  assert (resolves world_post_headers 1%positive post_test world_post_called
            post_items) as H.
  { split; [reflexivity|]. do 2 eexists. repeat split; reflexivity. }
  assert (instances world_post_shadowed_called !! 1%positive =
            Some post_shadowed) as H2 by reflexivity.
  assert (p_opts post_shadowed !! "headers" =
            Some (VObj {[ "X" := VStr "1" ]})) as H3 by reflexivity.
  assert (p_opts post_shadowed !! "method" = None) as H4 by reflexivity.
  split; [exact H|]. split; [exact (conj eq_refl (conj H2 (conj H3 H4)))|].
  destruct (run_options_spread_last demo_fetch _ _ _ _ _ H)
    as (susp & Hu & _ & Hany).
  exists susp. split; [exact Hu|].
  destruct (Hany _ _ H2)
    as (r & w' & url & init & body & Hr & Ht & _ & _ & Hh & _ & Hm & _).
  exists r, w', url, init, body. split; [exact Hr|]. split; [exact Ht|].
  split; [exact (Hh _ H3)|exact (Hm H4)].
Defined.

(** The example of the spec: after [options({ headers: { "X": "1" } })]
    the request carries exactly these headers. *)
Example run_options_headers_example :
  ∃ r w' init,
    run demo_fetch 1%positive world_post_shadowed = Some (r, w') ∧
    fetch_calls (trace w') = [("http://localhost:3000/test", init, VUndefined)] ∧
    init = {[ "method" := VStr "POST";
              "headers" := VObj {[ "X" := VStr "1" ]} ]}.
Proof. do 3 eexists. repeat split; reflexivity. Qed.


(** The two examples of the spec. *)
Example runJSON_not_found :
  runJSON demo_fetch 1%positive world_get_test =
    Some (Fulfilled {[ "ok" := VBool false; "status" := VNum 404;
                       "msg" := VStr "not found" ]},
          world_get_fetched).
Proof. reflexivity. Qed.

Example runJSON_custom_ok :
  ∃ result w',
    runJSON (λ _ _ _ n, (Fulfilled custom_ok, S n)) 1%positive world_get_test =
      Some (Fulfilled result, w') ∧
    result !! "ok" = Some (VStr "custom") ∧
    result !! "status" = Some (VNum 200).
Proof. do 2 eexists. repeat split; reflexivity. Qed.

(** Two builders made from one array share it: a source pushed through
    the first is a source of the second. *)
Example shared_array_aliasing :
  ∃ w b2,
    exec demo_fetch
      [CArray [last_header];
       CNew HTTP.GET "/a" None (Some (Array 1%positive));
       CNew HTTP.GET "/b" None (Some (Array 1%positive));
       CHeader 1%positive token_header]
      (init 0) = Some w ∧
    instances w !! 2%positive = Some b2 ∧
    p_path b2 = "/b" ∧
    arrays w !! p_headers b2 = Some [last_header; token_header].
Proof. do 2 eexists. repeat split; reflexivity. Qed.

Example get_throwing_built :
  exec demo_fetch
    [CNew HTTP.GET "/test" None None; CHeader 1%positive throwing_header]
    (init 0) = Some world_get_throwing.
Proof. reflexivity. Qed.

Lemma terminal_call_dispatch_witness :
  (instances world_post_headers !! 1%positive = Some post_test ∧
   arrays world_post_headers !! p_headers post_test =
     Some [HObject {[ "Content-Type" := VStr "application/json" ]};
           token_header; async_header; last_header]) ∧
  resolves world_post_headers 1%positive post_test world_post_called post_items ∧
  ∃ r w' r',
    run demo_fetch 1%positive world_post_headers = Some (r, w') ∧
    runJSON demo_fetch 1%positive world_post_headers = Some (r', w') ∧
    fetch_calls (trace w') =
      [("http://localhost:3000/test",
        request_init HTTP.POST (merge_headers post_items) ∅, VUndefined)] ∧
    r = Fulfilled not_found ∧
    r' = Fulfilled {[ "ok" := VBool false; "status" := VNum 404;
                      "msg" := VStr "not found" ]}.
Proof.
  assert (instances world_post_headers !! 1%positive = Some post_test) as H1
    by reflexivity.
  assert (arrays world_post_headers !! p_headers post_test =
     Some [HObject {[ "Content-Type" := VStr "application/json" ]};
           token_header; async_header; last_header]) as H2 by reflexivity.
  assert (resolves world_post_headers 1%positive post_test world_post_called
            post_items) as H3.
  { split; [reflexivity|]. do 2 eexists. repeat split; reflexivity. }
  split; [exact (conj H1 H2)|]. split; [exact H3|].
  destruct (terminal_call_dispatch demo_fetch _ _ _ _ H1 H2)
    as (r & w' & r' & Hr & HrJ & Hres & _ & Hjson & _).
  destruct (Hres _ _ H3) as ((b1 & Hb1 & Hf & Hrr & _) & _).
  change (Some post_test = Some b1) in Hb1. injection Hb1 as <-.
  exists r, w', r'. split; [exact Hr|]. split; [exact HrJ|].
  split; [exact Hf|].
  assert (r = Fulfilled not_found) as Hnf by exact Hrr.
  split; [exact Hnf|].
  rewrite (Hjson not_found (VObj {[ "msg" := VStr "not found" ]}) Hnf eq_refl).
  reflexivity.
Defined.

(** C6 as the spec states it fails on a builder one of whose header
    sources throws: the terminal calls are rejected and the transport is
    not called at all. *)
Lemma transport_not_called_counterexample :
  ∃ w',
    run demo_fetch 1%positive world_get_throwing =
      Some (Rejected "no token", w') ∧
    runJSON demo_fetch 1%positive world_get_throwing =
      Some (Rejected "no token", w') ∧
    trace w' = [CallHeader 0] ∧
    length (fetch_calls (trace w')) ≠ 1.
Proof. eexists. repeat split; try reflexivity. cbn. lia. Qed.

Example get_data_built :
  exec demo_fetch
    [CSetBaseUrl "http://localhost:3000";
     CNew HTTP.GET "/test" None None;
     CData 1%positive (VObj {[ "test" := VBool true ]})]
    (init 0) = Some world_get_data.
Proof. reflexivity. Qed.

Lemma data_last_write_any_method_witness :
  instances world_get_test !! 1%positive = Some get_test ∧
  (data_chain 1%positive ([VNull] ++ [VObj {[ "test" := VBool true ]}])
     world_get_test = Some (1%positive, world_get_data) ∧
   resolves world_get_data 1%positive get_with_data world_get_data [] ∧
   p_method get_with_data = HTTP.GET) ∧
  (∃ r w' url init,
     run demo_fetch 1%positive world_get_data = Some (r, w') ∧
     fetch_calls (trace w') = [(url, init, VObj {[ "test" := VBool true ]})]) ∧
  ∃ susp,
    run_until_await 1%positive world_get_data =
      Some (Normal susp, world_get_data) ∧
    ∃ w3 r w' url init,
      data_chain 1%positive [VStr "late"] world_get_data =
        Some (1%positive, w3) ∧
      run_from_await demo_fetch 1%positive susp w3 = Some (r, w') ∧
      trace w' = [CallFetch url init (VStr "late")].
Proof.
  assert (instances world_get_test !! 1%positive = Some get_test) as H
    by reflexivity.
  assert (data_chain 1%positive ([VNull] ++ [VObj {[ "test" := VBool true ]}])
            world_get_test = Some (1%positive, world_get_data)) as Hchain
    by reflexivity.
  assert (resolves world_get_data 1%positive get_with_data world_get_data [])
    as Hres.
  { split; [reflexivity|]. exists [], []. repeat split; reflexivity. }
  split; [exact H|]. split; [exact (conj Hchain (conj Hres eq_refl))|].
  destruct (data_last_write_any_method demo_fetch world_get_test 1%positive
              get_test [VNull] (VObj {[ "test" := VBool true ]}) H)
    as (w0 & Hc & _ & Hall).
  rewrite Hchain in Hc. injection Hc as <-.
  destruct (Hall _ _ Hres)
    as ((b1 & r & w' & url & init & _ & Hr & Ht & Hd) & susp & Hu & Hany).
  split.
  - exists r, w', url, init. split; [exact Hr|].
    rewrite Ht, (Hd eq_refl). reflexivity.
  - exists susp. split; [exact Hu|].
    destruct (Hany world_get_data get_with_data eq_refl) as [_ Hlate].
    exact (Hlate [] (VStr "late")).
Defined.

(** C7 as the spec states it fails on a [GET] builder that was given
    data: the transport receives the data as its third argument. *)
Lemma get_data_passed_counterexample :
  p_method get_with_data = HTTP.GET ∧
  ∃ r w' url init,
    run demo_fetch 1%positive world_get_data = Some (r, w') ∧
    fetch_calls (trace w') = [(url, init, VObj {[ "test" := VBool true ]})] ∧
    init !! "method" = Some (VStr "GET").
Proof. split; [reflexivity|]. do 4 eexists. repeat split; reflexivity. Qed.

Lemma failures_propagate_witness :
  (instances world_get_throwing !! 1%positive = Some get_test ∧
   arrays world_get_throwing !! p_headers get_test = Some [throwing_header]) ∧
  ∃ r w' r',
    run demo_fetch 1%positive world_get_throwing = Some (r, w') ∧
    runJSON demo_fetch 1%positive world_get_throwing = Some (r', w') ∧
    (∀ e, r = Rejected e →
       (∃ j h rs0 wj,
          [throwing_header] !! j = Some h ∧
          array_map (take j [throwing_header]) 0 world_get_throwing =
            (Normal rs0, wj) ∧
          fails_with h (ext wj) e) ∨
       (∃ w1 items, resolves world_get_throwing 1%positive get_test w1 items)) ∧
    (∀ w1 items, resolves world_get_throwing 1%positive get_test w1 items →
       ∃ b1, instances w1 !! 1%positive = Some b1 ∧
         r = (demo_fetch
                (target_url (_baseUrl world_get_throwing) (p_path get_test))
                (request_init (p_method get_test) (merge_headers items)
                   (p_opts b1))
                (p_data b1) (ext w1)).1) ∧
    (∀ e, r = Rejected e → r' = Rejected e) ∧
    (∀ response e, r = Fulfilled response → json response = Rejected e →
                   r' = Rejected e) ∧
    (∀ e, r' = Rejected e →
       r = Rejected e ∨
       ∃ response, r = Fulfilled response ∧ json response = Rejected e) ∧
    (∀ j h, [throwing_header] !! j = Some h →
       (∀ rs0 wj,
          array_map (take j [throwing_header]) 0 world_get_throwing =
            (Normal rs0, wj) →
          ∃ e, fails_with h (ext wj) e) →
       (∃ e, r = Rejected e ∧ r' = Rejected e) ∧
       fetch_calls (trace w') = fetch_calls (trace world_get_throwing)) ∧
    ∃ called calls,
      trace w' = trace world_get_throwing ++ (CallHeader <$> called) ++ calls ∧
      NoDup called ∧ header_calls calls = [] ∧ length calls ≤ 1.
Proof.
  assert (instances world_get_throwing !! 1%positive = Some get_test) as H1
    by reflexivity.
  assert (arrays world_get_throwing !! p_headers get_test =
          Some [throwing_header]) as H2 by reflexivity.
  split; [by split|].
  exact (failures_propagate demo_fetch _ _ _ _ H1 H2).
Defined.

(** Each kind of failure reaches the caller as it is. *)
Example header_throw_propagates :
  ∃ w', run demo_fetch 1%positive world_get_throwing =
          Some (Rejected "no token", w') ∧ fetch_calls (trace w') = [].
Proof. eexists. split; reflexivity. Qed.

Example header_rejection_propagates :
  ∃ w', run demo_fetch 1%positive
          (mkWorld "" {[ 1%positive := get_test ]}
             {[ 1%positive := [token_header; rejecting_header; last_header] ]}
             0 []) =
          Some (Rejected "expired", w') ∧
        trace w' = [CallHeader 0; CallHeader 1].
Proof. eexists. split; reflexivity. Qed.

Example transport_failure_propagates :
  ∃ w', run down_fetch 1%positive world_get_test =
          Some (Rejected "network down", w') ∧
        runJSON down_fetch 1%positive world_get_test =
          Some (Rejected "network down", w') ∧
        length (fetch_calls (trace w')) = 1.
Proof. eexists. repeat split; reflexivity. Qed.

Example parse_failure_propagates :
  ∃ w', runJSON garbled_fetch 1%positive world_get_test =
          Some (Rejected "unexpected token", w') ∧
        length (fetch_calls (trace w')) = 1.
Proof. eexists. split; reflexivity. Qed.

Example base_url_assigned_later :
  exec demo_fetch
    [CNew HTTP.GET "/test" None None; CSetBaseUrl "http://localhost:3000"]
    (init 0) = Some (set_baseUrl "http://localhost:3000" world_get_nobase).
Proof. reflexivity. Qed.

Lemma base_url_read_at_run_witness :
  (resolves world_get_nobase 1%positive get_test world_get_nobase [] ∧
   ¬ contains_scheme (p_path get_test)) ∧
  instances (set_baseUrl "http://localhost:3000" world_get_nobase)
    !! 1%positive = Some get_test ∧
  ∃ r w' init body,
    run demo_fetch 1%positive
      (set_baseUrl "http://localhost:3000" world_get_nobase) = Some (r, w') ∧
    fetch_calls (trace w') = [("http://localhost:3000/test", init, body)].
Proof.
  assert (resolves world_get_nobase 1%positive get_test world_get_nobase [])
    as H1.
  { split; [reflexivity|]. exists [], []. repeat split; reflexivity. }
  assert (¬ contains_scheme (p_path get_test)) as H2
    by (apply match_scheme_false; reflexivity).
  split; [exact (conj H1 H2)|].
  destruct (base_url_read_at_run demo_fetch _ _ _ _ _ "http://localhost:3000"
              H1 H2) as (Hb & (r & w' & init & body & Hr & Ht) & _).
  split; [exact Hb|]. exists r, w', init, body. split; [exact Hr|exact Ht].
Defined.

Lemma base_url_initially_empty_witness :
  (exec demo_fetch [CNew HTTP.GET "/test" None None] (init 0) =
     Some world_get_nobase ∧
   Forall (λ c : @Call nat string, assigns_baseUrl c = false)
     [CNew HTTP.GET "/test" None None] ∧
   resolves world_get_nobase 1%positive get_test world_get_nobase [] ∧
   ¬ contains_scheme (p_path get_test)) ∧
  _baseUrl (init 0 : @World nat string) = "" ∧
  _baseUrl world_get_nobase = "" ∧
  ∃ r w' init body,
    run demo_fetch 1%positive world_get_nobase = Some (r, w') ∧
    fetch_calls (trace w') =
      fetch_calls (trace world_get_nobase) ++ [(p_path get_test, init, body)].
Proof.
  assert (exec demo_fetch [CNew HTTP.GET "/test" None None] (init 0) =
            Some world_get_nobase) as H0 by reflexivity.
  assert (Forall (λ c : @Call nat string, assigns_baseUrl c = false)
            [CNew HTTP.GET "/test" None None]) as HF
    by (repeat constructor).
  assert (resolves world_get_nobase 1%positive get_test world_get_nobase [])
    as H1.
  { split; [reflexivity|]. exists [], []. repeat split; reflexivity. }
  assert (¬ contains_scheme (p_path get_test)) as H2
    by (apply match_scheme_false; reflexivity).
  split; [exact (conj H0 (conj HF (conj H1 H2)))|].
  exact (base_url_initially_empty demo_fetch 0 _ _ _ _ _ _ H0 HF H1 H2).
Defined.

(** ** Further properties

    of the scheme test, of the merge, of construction and of the chain,
    of the terminal operations, and of the curried function [fcf]. *)

(** *** Strings *)

Lemma string_app_assoc (s1 s2 s3 : string) :
  (s1 +:+ s2) +:+ s3 = s1 +:+ s2 +:+ s3.
Proof.
  induction s1 as [|c s1 IH]; [done|].
  change (String c ((s1 +:+ s2) +:+ s3) = String c (s1 +:+ s2 +:+ s3)).
  by rewrite IH.
Qed.

Lemma string_app_length (s1 s2 : string) :
  String.length (s1 +:+ s2) = String.length s1 + String.length s2.
Proof.
  induction s1 as [|c s1 IH]; [done|].
  change (S (String.length (s1 +:+ s2)) = S (String.length s1 + String.length s2)).
  by rewrite IH.
Qed.

Lemma string_app_eq_r (s1 s2 : string) : s1 +:+ s2 = s2 → s1 = "".
Proof.
  intros H%(f_equal String.length). rewrite string_app_length in H.
  destruct s1; [done|]. cbn in H. lia.
Qed.

Lemma canonicalize_idemp c : canonicalize (canonicalize c) = canonicalize c.
Proof. by destruct c as [[] [] [] [] [] [] [] []]. Qed.

Lemma match_here_lower lit s : match_here lit (lower_string s) = match_here lit s.
Proof.
  revert s; induction lit as [|p lit IH]; intros [|c s]; try done.
  rewrite lower_string_cons. cbn [match_here]. rewrite IH. f_equal.
  unfold char_matches. by rewrite canonicalize_idemp.
Qed.

Lemma match_scheme_lower s : match_scheme (lower_string s) = match_scheme s.
Proof.
  induction s as [|c s IH]; [done|].
  rewrite (match_scheme_unfold (String c s)), <- IH.
  rewrite lower_string_cons, match_scheme_unfold. f_equal.
  unfold scheme_here. rewrite <- lower_string_cons. by rewrite !match_here_lower.
Qed.

(** X1: the scheme test ignores letter case throughout: two paths that
    read the same once their ASCII capitals are lowered are both taken
    for full URLs or both taken for paths under the base URL. *)
Theorem match_scheme_case_insensitive s s' :
  lower_string s = lower_string s' → match_scheme s = match_scheme s'.
Proof.
  intros H. by rewrite <- (match_scheme_lower s), H, match_scheme_lower.
Qed.

Lemma match_scheme_case_insensitive_witness :
  lower_string "HTTPS://Example.org/A" = lower_string "https://example.org/a" ∧
  match_scheme "HTTPS://Example.org/A" = match_scheme "https://example.org/a".
Proof.
  split; [reflexivity|].
  apply (match_scheme_case_insensitive
           "HTTPS://Example.org/A" "https://example.org/a").
  reflexivity.
Defined.

Lemma contains_scheme_app_r s post : contains_scheme s → contains_scheme (s +:+ post).
Proof.
  intros (pre & mid & post0 & -> & Hl).
  exists pre, mid, (post0 +:+ post). split; [|done].
  by rewrite !string_app_assoc.
Qed.

(** X2: when the base URL itself has a scheme, what [run] resolves is a
    full URL: given back as a path, it resolves to itself, so a builder
    made from a resolved URL sends its request to the same place. *)
Theorem target_url_idempotent base path :
  contains_scheme base →
  target_url base (target_url base path) = target_url base path.
Proof.
  intros Hb. unfold target_url at 2 3.
  destruct (match_scheme path) eqn:Hp.
  - unfold target_url. by rewrite Hp.
  - apply target_url_spec. by apply contains_scheme_app_r.
Qed.

Lemma target_url_idempotent_witness :
  contains_scheme "http://localhost:3000" ∧
  target_url "http://localhost:3000" (target_url "http://localhost:3000" "/test")
    = target_url "http://localhost:3000" "/test".
Proof.
  assert (contains_scheme "http://localhost:3000") as H
    by (apply match_scheme_spec; reflexivity).
  split; [exact H|]. exact (target_url_idempotent _ "/test" H).
Defined.

(** *** The merge *)

(** X3: merging the sources of a longer chain is merging the later
    sources over the merge of the earlier ones. *)
Theorem merge_headers_app (xs ys : list JSObject) :
  merge_headers (xs ++ ys) = spread2 (merge_headers xs) (merge_headers ys).
Proof.
  apply map_eq. intros k.
  by rewrite spread2_lookup, !merge_headers_lookup, last_binding_app.
Qed.

Lemma last_binding_Some k (items : list JSObject) v :
  last_binding k items = Some v → ∃ o, o ∈ items ∧ o !! k = Some v.
Proof.
  induction items as [|o rest IH]; cbn; [done|].
  destruct (last_binding k rest) as [v'|].
  - intros [= ->]. destruct (IH eq_refl) as (o' & Hin & Hk).
    exists o'. split; [by right|done].
  - intros Hk. exists o. split; [left|done].
Qed.

Lemma last_binding_is_Some k (items : list JSObject) o :
  o ∈ items → is_Some (o !! k) → is_Some (last_binding k items).
Proof.
  induction items as [|o0 rest IH]; [by intros ?%elem_of_nil|].
  intros [->|Hin]%elem_of_cons Hk; cbn.
  - by destruct (last_binding k rest).
  - destruct (IH Hin Hk) as [v Hv]. by rewrite Hv.
Qed.

(** X4: the merged headers have exactly the keys of the sources: a key
    is in the merge if and only if some source has it, and its value
    there is the value one of the sources gives it. *)
Theorem merge_headers_keys (items : list JSObject) k :
  (is_Some (merge_headers items !! k) ↔ ∃ o, o ∈ items ∧ is_Some (o !! k)) ∧
  (∀ v, merge_headers items !! k = Some v → ∃ o, o ∈ items ∧ o !! k = Some v).
Proof.
  rewrite merge_headers_lookup. split; [split|].
  - intros [v (o & Hin & Hk)%last_binding_Some]. exists o. by rewrite Hk.
  - intros (o & Hin & Hk). by eapply last_binding_is_Some.
  - intros v. apply last_binding_Some.
Qed.

Lemma pairwise_disjoint_perm (xs ys : list JSObject) :
  xs ≡ₚ ys → pairwise_disjoint xs → pairwise_disjoint ys.
Proof.
  induction 1 as [|x xs ys Hp IH|x y l|xs ys zs _ IH1 _ IH2]; cbn; try done.
  - intros [Hx Hxs]. split; [by rewrite <- Hp|by apply IH].
  - intros [[Hyx Hy]%Forall_cons [Hx Hl]]. split; [|done].
    constructor; [by symmetry|done].
  - auto.
Qed.

Lemma last_binding_disjoint k (items : list JSObject) o v :
  pairwise_disjoint items → o ∈ items → o !! k = Some v →
  last_binding k items = Some v.
Proof.
  induction items as [|o0 rest IH]; [by intros _ ?%elem_of_nil|].
  cbn. intros [Hd Hrest] [->|Hin]%elem_of_cons Hk.
  - destruct (last_binding k rest) as [v'|] eqn:Hl; [|done]. exfalso.
    apply last_binding_Some in Hl as (o' & Hin' & Hk').
    rewrite Forall_forall in Hd. specialize (Hd o' Hin').
    by apply (map_disjoint_spec o0 o') with (i := k) (x := v) (y := v') in Hd.
  - by rewrite (IH Hrest Hin Hk).
Qed.

(** X5: when no two sources have a key in common, the order in which
    they were added does not matter: any reordering merges to the same
    headers. *)
Theorem merge_headers_disjoint_perm (xs ys : list JSObject) :
  pairwise_disjoint xs → xs ≡ₚ ys → merge_headers xs = merge_headers ys.
Proof.
  intros Hd Hp. apply map_eq. intros k. rewrite !merge_headers_lookup.
  pose proof (pairwise_disjoint_perm _ _ Hp Hd) as Hd'.
  destruct (last_binding k xs) as [v|] eqn:Hx.
  - apply last_binding_Some in Hx as (o & Hin & Hk).
    symmetry. eapply last_binding_disjoint; [done| |done]. by rewrite <- Hp.
  - destruct (last_binding k ys) as [v|] eqn:Hy; [|done].
    apply last_binding_Some in Hy as (o & Hin & Hk).
    rewrite <- Hp in Hin.
    by rewrite (last_binding_disjoint _ _ _ _ Hd Hin Hk) in Hx.
Qed.

Lemma merge_headers_disjoint_perm_witness :
  (pairwise_disjoint post_items ∧ post_items ≡ₚ rev post_items) ∧
  merge_headers post_items = merge_headers (rev post_items).
Proof.
  assert (pairwise_disjoint post_items) as Hd.
  { cbn. repeat first [apply Forall_nil_2 | apply Forall_cons_2 | split];
      try exact I; apply map_disjoint_singleton_l; reflexivity. }
  assert (post_items ≡ₚ rev post_items) as Hp by apply Permutation_rev.
  split; [exact (conj Hd Hp)|]. exact (merge_headers_disjoint_perm _ _ Hd Hp).
Defined.

(** The options [run] assembles always have a [method] and a
    [headers] key, and besides these two only the keys of the options
    record of the builder. *)
Theorem request_init_keys m hdrs (o : JSObject) :
  dom (request_init m hdrs o) = {[ "method"; "headers" ]} ∪ dom o.
Proof.
  unfold request_init, spread2.
  rewrite dom_union_L, !dom_insert_L, dom_empty_L.
  apply set_eq. intros k.
  rewrite !elem_of_union, !elem_of_singleton, elem_of_empty. tauto.
Qed.

Section further.

Context {Ext Err : Type}.
Variable _fetch :
  string → JSObject → JSValue → Ext → @Settled Err (@Response Err) * Ext.

Local Abbreviation World := (@World Ext Err).
Local Abbreviation Header := (@Header Ext Err).
Local Abbreviation Returned := (@Returned Err).
Local Abbreviation Response := (@Response Err).
Local Abbreviation Suspended := (@Suspended Err).
Local Abbreviation Session := (@Session Ext Err).
Local Abbreviation Call := (@Call Ext Err).
Local Abbreviation run_from_await := (run_from_await _fetch).
Local Abbreviation run := (run _fetch).
Local Abbreviation runJSON := (runJSON _fetch).
Local Abbreviation resume := (resume _fetch).
Local Abbreviation step := (step _fetch).
Local Abbreviation steps := (steps _fetch).
Local Abbreviation exec := (exec _fetch).
Local Abbreviation fcf := (fcf _fetch).

(** *** Construction *)

(** X6: given an array, the constructor keeps it: the new builder has
    the sources of the array, and a source that [header] adds to the new
    builder is added to the array, hence to every other builder made
    from it. *)
Theorem new_shares_array (w : World) m path o a hs h :
  arrays w !! a = Some hs →
  ∃ this w1 b,
    new m path o (Some (Array a)) w = Some (this, w1) ∧
    instances w !! this = None ∧
    instances w1 !! this = Some b ∧ p_headers b = a ∧
    arrays w1 = arrays w ∧
    ∃ w2, header this h w1 = Some (this, w2) ∧
      arrays w2 !! a = Some (hs ++ [h]) ∧
      ∀ that b', instances w !! that = Some b' → p_headers b' = a →
        instances w2 !! that = Some b' ∧
        arrays w2 !! p_headers b' = Some (hs ++ [h]).
Proof.
  intros Ha. unfold new. cbn.
  set (this := fresh (dom (instances w))).
  assert (instances w !! this = None) as Hthis by apply not_elem_of_dom, is_fresh.
  do 3 eexists. split; [done|]. split; [done|]. cbn.
  rewrite lookup_insert_eq. split; [done|]. split; [done|]. split; [done|].
  eexists. split.
  - unfold header. cbn. rewrite lookup_insert_eq. cbn. by rewrite Ha.
  - cbn. rewrite lookup_insert_eq. split; [done|].
    intros that b' Hthat Hp. split.
    + rewrite lookup_insert_ne; [done|]. intros <-. congruence.
    + replace (p_headers b') with a. apply lookup_insert_eq.
Qed.

(** X7: a builder made from a single header source, or from none, has
    an array of its own: making it changes no builder, no array, and
    calls nothing, and a source that [header] then adds to it is added
    to no builder that was there before. *)
Theorem new_isolated (w : World) m path o (h0 : option Header) h :
  wf w →
  ∃ this w1 w2,
    new m path o (Single <$> h0) w = Some (this, w1) ∧
    header this h w1 = Some (this, w2) ∧
    _baseUrl w2 = _baseUrl w ∧ ext w2 = ext w ∧ trace w2 = trace w ∧
    ∀ that b', instances w !! that = Some b' →
      that ≠ this ∧
      instances w2 !! that = Some b' ∧
      arrays w2 !! p_headers b' = arrays w !! p_headers b'.
Proof.
  intros Hwf. unfold new.
  set (hs0 := option_list h0).
  replace (match Single <$> h0 with
           | Some (Single h1) => alloc_array [h1] w
           | Some (Array a) => (a, w)
           | None => alloc_array [] w
           end) with (alloc_array hs0 w) by by destruct h0.
  unfold alloc_array. cbn.
  set (a := fresh (dom (arrays w))).
  set (this := fresh (dom (instances w))).
  assert (arrays w !! a = None) as Ha by apply not_elem_of_dom, is_fresh.
  assert (instances w !! this = None) as Hthis by apply not_elem_of_dom, is_fresh.
  do 3 eexists. split; [done|]. split.
  { unfold header. cbn. rewrite lookup_insert_eq. cbn.
    by rewrite lookup_insert_eq. }
  cbn. repeat split; try done.
  - intros ->. congruence.
  - rewrite lookup_insert_ne; [done|]. intros <-. congruence.
  - destruct (Hwf that b' H) as [hs Hhs].
    assert (a ≠ p_headers b') as Hne by (intros Heq; congruence).
    by rewrite !lookup_insert_ne.
Qed.

(** *** The chain *)

(** X8: [options] replaces the options record and merges nothing: after
    two calls in a row the record of the builder is the argument of the
    second call, with no key of the first one left but those the second
    has too, as after the second call alone; the rest of the builder and
    of the world is as it was. *)
Theorem options_last_wins (this : loc) (o1 o2 : JSObject) (w : World) b :
  instances w !! this = Some b →
  ∃ w2,
    and_then (options this o1) (λ l, options l o2) w = Some (this, w2) ∧
    options this o2 w = Some (this, w2) ∧
    instances w2 =
      <[this := mkObj (p_method b) (p_headers b) (p_path b) o2 (p_data b)]>
        (instances w) ∧
    (∃ b2, instances w2 !! this = Some b2 ∧ p_opts b2 = o2 ∧
           ∀ k, o2 !! k = None → p_opts b2 !! k = None) ∧
    _baseUrl w2 = _baseUrl w ∧ arrays w2 = arrays w ∧
    ext w2 = ext w ∧ trace w2 = trace w.
Proof.
  intros Hb. eexists. split_and!.
  - unfold and_then. rewrite (options_replaces _ _ _ o1 Hb).
    erewrite options_replaces by (cbn; apply lookup_insert_eq).
    cbn. unfold set_instances. cbn. by rewrite insert_insert_eq.
  - by rewrite (options_replaces _ _ _ o2 Hb).
  - done.
  - eexists. split; [cbn; apply lookup_insert_eq|]. done.
  - done.
  - done.
  - done.
  - done.
Qed.

(** X9: [options], [data] and [header] act on different fields: in a
    chain any two of them can be exchanged. *)
Theorem setters_commute (this : loc) (o : JSObject) d (h : Header) (w : World) :
  and_then (options this o) (λ l, data l d) w =
    and_then (data this d) (λ l, options l o) w ∧
  and_then (options this o) (λ l, header l h) w =
    and_then (header this h) (λ l, options l o) w ∧
  and_then (data this d) (λ l, header l h) w =
    and_then (header this h) (λ l, data l d) w.
Proof.
  unfold and_then, options, data, header.
  destruct (instances w !! this) as [b|] eqn:Hb; cbn; [|done].
  rewrite !lookup_insert_eq. cbn. split; [|split].
  - unfold set_instances. cbn. by rewrite !insert_insert_eq.
  - destruct (arrays w !! p_headers b) as [hs|]; cbn; [|done]. by rewrite Hb.
  - destruct (arrays w !! p_headers b) as [hs|]; cbn; [|done]. by rewrite Hb.
Qed.

(** *** What a sequence of calls keeps *)

Lemma new_world (w : World) m path o (h : option HeadersArg) :
  ∃ this w0,
    new m path o h w = Some (this, w0) ∧
    instances w !! this = None ∧
    trace w0 = trace w ∧ ext w0 = ext w ∧
    (∀ l, l ≠ this → instances w0 !! l = instances w !! l) ∧
    (∀ a hs, arrays w !! a = Some hs → arrays w0 !! a = Some hs).
Proof.
  assert (∀ a hs l, arrays w !! a = Some hs →
            <[fresh (dom (arrays w)) := l]> (arrays w) !! a = Some hs) as Hfr.
  { intros a hs l Ha. rewrite lookup_insert_ne; [done|].
    intros Heq. pose proof (is_fresh (dom (arrays w))) as Hf.
    rewrite Heq in Hf. by apply Hf, elem_of_dom. }
  unfold new.
  destruct h as [[h|a]|]; cbn; do 2 eexists;
    (split; [reflexivity|]);
    (split; [apply not_elem_of_dom, is_fresh|]); cbn;
    (split; [done|]); (split; [done|]);
    (split; [intros l Hl; by rewrite lookup_insert_ne|]); auto.
Qed.

Lemma plain_quiet c (w w' : World) :
  plain c w = Some w' → trace w' = trace w ∧ ext w' = ext w.
Proof.
  destruct c as [l|m p o h|this o|this h|this d|this|this|s|]; cbn;
    try by intros [= <-].
  - destruct (new_world w m p o h) as (this & w0 & -> & _ & Ht & Hx & _).
    destruct h as [[h|a]|]; cbn; [| |by intros [= <-]].
    + by intros [= <-].
    + destruct (arrays w !! a); [|done]. by intros [= <-].
  - unfold options. destruct (instances w !! this); cbn; [|done].
    by intros [= <-].
  - unfold header. destruct (instances w !! this) as [b|]; cbn; [|done].
    destruct (arrays w !! p_headers b); cbn; [|done]. by intros [= <-].
  - unfold data. destruct (instances w !! this); cbn; [|done].
    by intros [= <-].
Qed.

Lemma step_quiet c (s s' : Session) :
  step c s = Some s' → terminal c = false → s.2 = [] →
  trace s'.1 = trace s.1 ∧ ext s'.1 = ext s.1 ∧ s'.2 = [].
Proof.
  intros Hs Hc Hq.
  destruct c as [l|m p o h|this o|this h|this d|this|this|b|];
    cbn [step] in Hs; try done;
    try (destruct (plain _ s.1) as [w|] eqn:Hp; [|done];
         injection Hs as <-; apply plain_quiet in Hp as [? ?]; by split_and!).
  rewrite Hq in Hs. cbn in Hs. by injection Hs as <-.
Qed.

Lemma steps_quiet cs (s s' : Session) :
  steps cs s = Some s' → Forall (λ c, terminal c = false) cs → s.2 = [] →
  trace s'.1 = trace s.1 ∧ ext s'.1 = ext s.1 ∧ s'.2 = [].
Proof.
  revert s; induction cs as [|c cs IH]; intros s; cbn.
  - by intros [= <-].
  - destruct (step c s) as [s0|] eqn:Hs; [|done].
    intros Hex [Hc Hcs]%Forall_cons Hq.
    destruct (step_quiet c _ _ Hs Hc Hq) as (Ht & Hx & Hq0).
    destruct (IH _ Hex Hcs Hq0) as (-> & -> & ->). done.
Qed.

(** X10: nothing is called before a terminal operation: constructing
    builders, setting options and data, adding header sources, functions
    included, and assigning the base URL call neither a header function
    nor the transport, and leave the outside world as it is. *)
Theorem exec_defers_calls cs (w w' : World) :
  exec cs w = Some w' → Forall (λ c, terminal c = false) cs →
  trace w' = trace w ∧ ext w' = ext w.
Proof.
  intros (s & Hs & Hr)%exec_steps Hcs.
  destruct (steps_quiet cs (w, []) s Hs Hcs eq_refl) as (Ht & Hx & Hq).
  rewrite Hq in Hr. cbn in Hr. injection Hr as <-. done.
Qed.

Lemma plain_fields c (w w' : World) this b :
  plain c w = Some w' → instances w !! this = Some b →
  ∃ b', instances w' !! this = Some b' ∧
        p_method b' = p_method b ∧ p_path b' = p_path b ∧
        p_headers b' = p_headers b.
Proof.
  intros Hs Hb.
  assert (∀ this0 b0,
    instances w !! this0 = Some b0 →
    p_method b0 = p_method b0 → ∀ o d,
    ∃ b', <[this0 := mkObj (p_method b0) (p_headers b0) (p_path b0) o d]>
            (instances w) !! this = Some b' ∧
          p_method b' = p_method b ∧ p_path b' = p_path b ∧
          p_headers b' = p_headers b) as Hset.
  { intros this0 b0 Hb0 _ o d. rewrite lookup_insert. case_decide as Heq.
    - subst this0. rewrite Hb in Hb0. injection Hb0 as <-. by eexists.
    - by exists b. }
  destruct c as [l|m p o h|this0 o|this0 h|this0 d|this0|this0|s|]; cbn in Hs;
    try (injection Hs as <-; by exists b).
  - destruct (new_world w m p o h) as (this' & w0 & Hnew & Hfresh & _ & _ & Hi & _).
    rewrite Hnew in Hs.
    assert (this ≠ this') as Hne by congruence.
    exists b. split; [|done].
    destruct h as [[h|a]|]; cbn in Hs.
    + injection Hs as <-. by rewrite Hi.
    + destruct (arrays w !! a); [|done]. injection Hs as <-. by rewrite Hi.
    + injection Hs as <-. by rewrite Hi.
  - unfold options in Hs.
    destruct (instances w !! this0) as [b0|] eqn:Hb0; cbn in Hs; [|done].
    injection Hs as <-. by apply Hset.
  - unfold header in Hs.
    destruct (instances w !! this0) as [b0|]; cbn in Hs; [|done].
    destruct (arrays w !! p_headers b0); cbn in Hs; [|done].
    injection Hs as <-. by exists b.
  - unfold data in Hs.
    destruct (instances w !! this0) as [b0|] eqn:Hb0; cbn in Hs; [|done].
    injection Hs as <-. by apply Hset.
Qed.

Lemma step_fields c (s s' : Session) this b :
  step c s = Some s' → instances s.1 !! this = Some b →
  ∃ b', instances s'.1 !! this = Some b' ∧
        p_method b' = p_method b ∧ p_path b' = p_path b ∧
        p_headers b' = p_headers b.
Proof.
  intros Hs Hb.
  destruct c as [l|m p o h|this0 o|this0 h|this0 d|this0|this0|u|];
    cbn [step] in Hs;
    try (apply start_frame in Hs as (_ & He & _);
         destruct (evolves_lookup _ _ _ _ He Hb) as (b1 & ? & ? & ? & ?);
         by exists b1);
    try (destruct (plain _ s.1) as [w|] eqn:Hp; [|done];
         injection Hs as <-; by eapply plain_fields).
  destruct (oof.resume _fetch s.2 s.1) as [w|] eqn:Hr; [|done].
  injection Hs as <-.
  apply resume_frame in Hr as (_ & Hi & _). cbn. rewrite Hi. by exists b.
Qed.

Lemma steps_fields cs (s s' : Session) this b :
  steps cs s = Some s' → instances s.1 !! this = Some b →
  ∃ b', instances s'.1 !! this = Some b' ∧
        p_method b' = p_method b ∧ p_path b' = p_path b ∧
        p_headers b' = p_headers b.
Proof.
  revert s b; induction cs as [|c cs IH]; intros s b; cbn.
  - intros [= <-] Hb. by exists b.
  - destruct (step c s) as [s0|] eqn:Hs; [|done]. intros Hex Hb.
    destruct (step_fields _ _ _ _ _ Hs Hb) as (b0 & Hb0 & Hm & Hp & Hh).
    destruct (IH _ _ Hex Hb0) as (b' & Hb' & Hm' & Hp' & Hh').
    exists b'. split; [done|]. by rewrite Hm', Hp', Hh'.
Qed.

(** X11: whatever is called afterwards, a builder stays, with the
    method, the path and the array of header sources it was constructed
    with: no operation of the class reassigns them. *)
Theorem exec_keeps_method_path cs (w w' : World) this b :
  exec cs w = Some w' → instances w !! this = Some b →
  ∃ b', instances w' !! this = Some b' ∧
        p_method b' = p_method b ∧ p_path b' = p_path b ∧
        p_headers b' = p_headers b.
Proof.
  intros (s & Hs & Hr)%exec_steps Hb.
  apply resume_frame in Hr as (_ & -> & _).
  by apply (steps_fields cs (w, []) s).
Qed.

Lemma plain_arrays c (w w' : World) a hs :
  plain c w = Some w' → arrays w !! a = Some hs →
  ∃ hs', arrays w' !! a = Some (hs ++ hs').
Proof.
  intros Hs Ha.
  assert (fresh (dom (arrays w)) ≠ a) as Hne.
  { intros Heq. pose proof (is_fresh (dom (arrays w))) as Hf.
    rewrite Heq in Hf. by apply Hf, elem_of_dom. }
  assert (arrays w !! a = Some (hs ++ [])) as Ha' by by rewrite app_nil_r.
  destruct c as [l|m p o h|this0 o|this0 h|this0 d|this0|this0|s|]; cbn in Hs;
    try (injection Hs as <-; by exists []).
  - injection Hs as <-. exists []. cbn. by rewrite lookup_insert_ne.
  - destruct (new_world w m p o h) as (this' & w0 & Hnew & _ & _ & _ & _ & Harr).
    rewrite Hnew in Hs. exists [].
    destruct h as [[h|a0]|]; cbn in Hs.
    + injection Hs as <-. by apply Harr.
    + destruct (arrays w !! a0); [|done]. injection Hs as <-. by apply Harr.
    + injection Hs as <-. by apply Harr.
  - unfold options in Hs.
    destruct (instances w !! this0) as [b0|]; cbn in Hs; [|done].
    injection Hs as <-. by exists [].
  - unfold header in Hs.
    destruct (instances w !! this0) as [b0|]; cbn in Hs; [|done].
    destruct (arrays w !! p_headers b0) as [hs0|] eqn:Hhs0; cbn in Hs; [|done].
    injection Hs as <-. cbn. rewrite lookup_insert. case_decide as Heq.
    + subst a. rewrite Ha in Hhs0. injection Hhs0 as <-. by exists [h].
    + by exists [].
  - unfold data in Hs.
    destruct (instances w !! this0) as [b0|]; cbn in Hs; [|done].
    injection Hs as <-. by exists [].
Qed.

Lemma step_arrays c (s s' : Session) a hs :
  step c s = Some s' → arrays s.1 !! a = Some hs →
  ∃ hs', arrays s'.1 !! a = Some (hs ++ hs').
Proof.
  intros Hs Ha.
  assert (arrays s.1 !! a = Some (hs ++ [])) as Ha' by by rewrite app_nil_r.
  destruct c as [l|m p o h|this0 o|this0 h|this0 d|this0|this0|u|];
    cbn [step] in Hs;
    try (apply start_frame in Hs as (_ & _ & Hx);
         exists []; by rewrite Hx);
    try (destruct (plain _ s.1) as [w|] eqn:Hp; [|done];
         injection Hs as <-; by eapply plain_arrays).
  destruct (oof.resume _fetch s.2 s.1) as [w|] eqn:Hr; [|done].
  injection Hs as <-.
  apply resume_frame in Hr as (_ & _ & Hx). exists []. cbn. by rewrite Hx.
Qed.

Lemma steps_arrays cs (s s' : Session) a hs :
  steps cs s = Some s' → arrays s.1 !! a = Some hs →
  ∃ hs', arrays s'.1 !! a = Some (hs ++ hs').
Proof.
  revert s hs; induction cs as [|c cs IH]; intros s hs; cbn.
  - intros [= <-] Ha. exists []. by rewrite app_nil_r.
  - destruct (step c s) as [s0|] eqn:Hs; [|done]. intros Hex Ha.
    destruct (step_arrays _ _ _ _ _ Hs Ha) as (hs0 & Ha0).
    destruct (IH _ _ Hex Ha0) as (hs1 & Ha1).
    exists (hs0 ++ hs1). by rewrite (assoc_L (++)).
Qed.

(** X12: header sources are only ever added at the end: whatever is
    called afterwards, an array of header sources still begins with the
    sources it had, in the same order; none is removed or replaced. *)
Theorem exec_sources_grow cs (w w' : World) a hs :
  exec cs w = Some w' → arrays w !! a = Some hs →
  ∃ hs', arrays w' !! a = Some (hs ++ hs').
Proof.
  intros (s & Hs & Hr)%exec_steps Ha.
  apply resume_frame in Hr as (_ & _ & ->).
  by apply (steps_arrays cs (w, []) s).
Qed.


(** X13: in a world reached from the initial one by calls of the
    class, no reference dangles: on every builder there is, each setter
    and each terminal operation returns. *)
Theorem reachable_calls_return (x : Ext) cs (w : World) this b :
  exec cs (init x) = Some w → instances w !! this = Some b →
  (∃ r w', run this w = Some (r, w')) ∧
  (∃ r w', runJSON this w = Some (r, w')) ∧
  (∀ o, ∃ w', options this o w = Some (this, w')) ∧
  (∀ h, ∃ w', header this h w = Some (this, w')) ∧
  (∀ d, ∃ w', data this d w = Some (this, w')).
Proof.
  intros Hex Hb.
  destruct (reachable_run_returns _ _ _ _ _ _ Hex Hb) as (r & w' & r' & Hr & Hj).
  destruct (exec_wf _ _ _ _ (wf_init x) Hex this b Hb) as [hs Hhs].
  split; [eauto|]. split; [eauto|]. split; [|split].
  - intros o. eexists. by apply options_replaces.
  - intros h. eexists. by eapply header_pushes.
  - intros d. eexists. by apply data_sets.
Qed.

(** *** The terminal operations *)

Lemma array_map_static (hs : list Header) i (w : World) :
  Forall (λ h, is_object h = true) hs →
  array_map hs i w = (Normal (Now <$> objects_of hs), w).
Proof.
  intros Hs. revert i. induction Hs as [|[o|f g] hs Hh Hs IH]; intros i; cbn;
    [done| |done].
  by rewrite IH.
Qed.

Lemma promise_all_now (os : list JSObject) :
  promise_all (Err:=Err) (Now <$> os) = Fulfilled os.
Proof.
  unfold promise_all.
  assert (earliest_rejection (Err:=Err) (Now <$> os) = None) as ->
    by by induction os.
  f_equal. induction os as [|o os IH]; cbn; [done|]. by rewrite IH.
Qed.

Lemma resolves_static (w : World) this b hs :
  instances w !! this = Some b → arrays w !! p_headers b = Some hs →
  Forall (λ h, is_object h = true) hs →
  resolves w this b w (objects_of hs).
Proof.
  intros Hb Hhs Hs. split; [done|]. exists hs, (Now <$> objects_of hs).
  split; [done|]. split; [by apply array_map_static|apply promise_all_now].
Qed.

(** X14: [run] leaves the builder as it was, so the builder can be run
    again: with plain objects as header sources, two calls in a row call
    the transport twice with the same URL, the same options and the same
    data. *)
Theorem run_twice_static (w : World) this b hs :
  instances w !! this = Some b → arrays w !! p_headers b = Some hs →
  Forall (λ h, is_object h = true) hs →
  let url := target_url (_baseUrl w) (p_path b) in
  let init := request_init (p_method b) (merge_headers (objects_of hs))
                (p_opts b) in
  ∃ r1 w1 r2 w2,
    run this w = Some (r1, w1) ∧ run this w1 = Some (r2, w2) ∧
    trace w2 = trace w ++ [CallFetch url init (p_data b);
                           CallFetch url init (p_data b)].
Proof.
  intros Hb Hhs Hs url init.
  pose proof (run_resolved _fetch _ _ _ _ _ _
                (resolves_static _ _ _ _ Hb Hhs Hs) Hb)
    as Hrun1. cbn zeta in Hrun1.
  do 2 eexists. eexists _, _. split; [exact Hrun1|].
  split.
  - pose proof (λ w0 Hb0 Hhs0,
      run_resolved _fetch w0 this b w0 b (objects_of hs)
        (resolves_static w0 this b hs Hb0 Hhs0 Hs) Hb0) as Hgen.
    cbn zeta in Hgen. by apply Hgen.
  - cbn. by rewrite <- (assoc_L (++)).
Qed.

(** X15: a header function that throws ends the traversal of the
    sources: the functions before it have been called, it has been
    called, and none of the sources after it is, whatever they are. *)
Theorem throw_stops_traversal (w : World) this b pre f g post rs0 wj e :
  instances w !! this = Some b →
  arrays w !! p_headers b = Some (pre ++ HFunction f g :: post) →
  array_map pre 0 w = (Normal rs0, wj) →
  (f (ext wj)).1 = Throw e →
  ∃ w1,
    run this w = Some (Rejected e, w1) ∧
    ext w1 = (f (ext wj)).2 ∧
    trace w1 = trace w ++ (CallHeader <$> callable_indices pre 0)
                       ++ [CallHeader (length pre)].
Proof.
  intros Hb Hhs Hpre Hf.
  assert (array_map (pre ++ HFunction f g :: post) 0 w =
            (Throw e, call_setters (g (ext wj))
                        (log (CallHeader (length pre))
                             (set_ext (f (ext wj)).2 wj)))) as Hm.
  { rewrite array_map_app, Hpre. cbn.
    destruct (f (ext wj)) as [c x]. cbn in Hf. by subst c. }
  eexists. split; [by eapply run_thrown|].
  destruct (call_setters_frame (g (ext wj))
              (log (CallHeader (length pre)) (set_ext (f (ext wj)).2 wj)))
    as (_ & _ & -> & -> & _).
  split; [done|].
  apply array_map_frame in Hpre as (_ & _ & _ & called & Ht & _ & Hall).
  cbn. by rewrite Ht, (Hall rs0), <- (assoc_L (++)).
Qed.

(** X16: a header function whose promise is rejected does not end the
    traversal: when no function throws, every function has been called
    by the time the call is rejected, and the transport has not. *)
Theorem rejection_calls_all (w : World) this b hs rs w1 t e :
  instances w !! this = Some b → arrays w !! p_headers b = Some hs →
  array_map hs 0 w = (Normal rs, w1) →
  Later (mkPromise t (Rejected e)) ∈ rs →
  ∃ e', run this w = Some (Rejected e', w1) ∧
        trace w1 = trace w ++ (CallHeader <$> callable_indices hs 0).
Proof.
  intros Hb Hhs Hm Hin.
  destruct (promise_all_rejects _ _ _ Hin) as [e' He'].
  exists e'. split; [by eapply run_rejected|].
  apply array_map_frame in Hm as (_ & _ & _ & called & Ht & _ & Hall).
  by rewrite Ht, (Hall rs).
Qed.

(** X17: header functions are called anew by each terminal call, and
    the values of an earlier call are not kept: a second [run] calls
    every one of them a second time. *)
Theorem run_reinvokes_callables (w : World) this b hs w1 items r w' b' w2
    items' :
  arrays w !! p_headers b = Some hs →
  resolves w this b w1 items → run this w = Some (r, w') →
  resolves w' this b' w2 items' →
  ∃ r' w'',
    run this w' = Some (r', w'') ∧
    header_calls (trace w'') =
      header_calls (trace w) ++ callable_indices hs 0 ++ callable_indices hs 0 ∧
    length (fetch_calls (trace w'')) = 2 + length (fetch_calls (trace w)).
Proof.
  intros Hhs Hres Hrun Hres'.
  destruct (resolves_builder _ _ _ _ _ Hres) as (b1 & Hb1 & _ & _ & Hh1).
  destruct (resolves_builder _ _ _ _ _ Hres') as (b2 & Hb2 & _).
  rewrite (run_resolved _fetch _ _ _ _ _ _ Hres Hb1) in Hrun.
  cbn zeta in Hrun. injection Hrun as _ <-.
  rewrite (run_resolved _fetch _ _ _ _ _ _ Hres' Hb2). cbn zeta.
  destruct Hres as (_ & hs1 & rs1 & Hhs1 & Hm1 & _).
  destruct Hres' as (Hb' & hs2 & rs2 & Hhs2 & Hm2 & _).
  cbn in Hb', Hhs2. rewrite Hb1 in Hb'. injection Hb' as <-.
  apply array_map_frame in Hm1 as Hf1.
  destruct Hf1 as (_ & _ & Ha1 & c1 & Ht1 & _ & Hall1).
  rewrite Ha1, Hh1, Hhs in Hhs2. injection Hhs2 as <-.
  rewrite Hhs in Hhs1. injection Hhs1 as <-.
  apply array_map_frame in Hm2 as (_ & _ & _ & c2 & Ht2 & _ & Hall2).
  cbn in Ht2. do 2 eexists. split; [done|]. cbn.
  rewrite Ht2, Ht1, (Hall1 rs1), (Hall2 rs2) by done.
  rewrite !header_calls_app, !fetch_calls_app, !header_calls_headers,
    !fetch_calls_headers. cbn.
  rewrite !app_nil_r, !length_app. cbn. split; [by rewrite (assoc_L (++))|lia].
Qed.

(** X18: what [runJSON] gives always has the keys [ok] and [status],
    and besides them only the properties of the parsed body; when the
    body is [null], a boolean or a number it is [{ ok, status }] and
    nothing else. *)
Theorem runJSON_keys (w : World) this (response : Response) w' parsedJSON :
  run this w = Some (Fulfilled response, w') →
  json response = Fulfilled parsedJSON →
  ∃ result,
    runJSON this w = Some (Fulfilled result, w') ∧
    dom result = {[ "ok"; "status" ]} ∪ dom (own_props parsedJSON) ∧
    (match parsedJSON with
     | VNull | VBool _ | VNum _ | VUndefined => True
     | _ => False
     end →
     result = {[ "ok" := VBool (ok response);
                 "status" := VNum (status response) ]}).
Proof.
  intros Hrun Hjson. exists (json_result response parsedJSON).
  split; [|split].
  - rewrite (runJSON_of_run _ _ _ _ _ Hrun). by rewrite Hjson.
  - unfold json_result, spread2.
    rewrite dom_union_L, !dom_insert_L, dom_empty_L.
    apply set_eq. intros k.
    rewrite !elem_of_union, !elem_of_singleton, elem_of_empty. tauto.
  - intros Hv. unfold json_result, spread2.
    destruct parsedJSON; try done; cbn; by rewrite (left_id_L ∅ (∪)).
Qed.

Lemma indexed_lookup_from {A} (f : A → JSValue) (l : list A) n j :
  (list_to_map (imap (λ i a, (pretty (n + i), f a)) l) : JSObject)
    !! pretty (n + j) = f <$> l !! j.
Proof.
  revert n j; induction l as [|x l IH]; intros n j; [done|].
  cbn [imap list_to_map foldr]. destruct j as [|j].
  - cbn. by rewrite lookup_insert_eq.
  - cbn [fst snd]. rewrite lookup_insert_ne by (intros ?%(inj pretty); lia).
    rewrite (imap_ext _ (λ i a, (pretty (S n + i), f a))).
    + replace (n + S j) with (S n + j) by lia. apply IH.
    + intros i a _. cbn. do 2 f_equal. lia.
Qed.

Lemma indexed_lookup {A} (f : A → JSValue) (l : list A) j :
  indexed f l !! pretty j = f <$> l !! j.
Proof. apply (indexed_lookup_from f l 0 j). Qed.

Lemma pretty_N_go_digit x s :
  (∃ d s', s = String (pretty_N_char d) s') →
  ∃ d s', pretty_N_go x s = String (pretty_N_char d) s'.
Proof.
  revert s. induction (N.lt_wf_0 x) as [x _ IH]; intros s Hs.
  destruct (decide (x = 0)%N) as [->|Hx]; [by rewrite pretty_N_go_0|].
  rewrite pretty_N_go_step by lia. apply IH; [|by eauto].
  apply N.div_lt; lia.
Qed.

Lemma pretty_N_digit (x : N) : ∃ d s', pretty x = String (pretty_N_char d) s'.
Proof.
  unfold pretty, pretty_N.
  destruct (decide (x = 0)%N) as [Hx|Hx]; [by exists 0%N, ""|].
  rewrite pretty_N_go_step by lia. apply pretty_N_go_digit. by eauto.
Qed.

Lemma pretty_nat_digit (n : nat) : ∃ d s', pretty n = String (pretty_N_char d) s'.
Proof. apply (pretty_N_digit (N.of_nat n)). Qed.

Lemma pretty_nat_not_letter (n : nat) c s :
  (97 ≤ nat_of_ascii c)%nat → pretty n ≠ String c s.
Proof.
  intros Hc Heq. destruct (pretty_nat_digit n) as (d & s' & Hd).
  rewrite Hd in Heq. injection Heq as <- _. revert Hc.
  unfold pretty_N_char. repeat case_match; vm_compute; lia.
Qed.

Lemma indexed_lookup_None {A} (f : A → JSValue) (l : list A) k :
  (∀ i : nat, pretty i ≠ k) → indexed f l !! k = None.
Proof.
  intros Hk. apply not_elem_of_list_to_map_1.
  intros ([k' v] & -> & (i & x & [= -> ->] & _)%elem_of_lookup_imap)%list_elem_of_fmap.
  by apply (Hk i).
Qed.

Lemma indexed_lookup_Some {A} (f : A → JSValue) (l : list A) k v :
  indexed f l !! k = Some v → ∃ i x, k = pretty i ∧ l !! i = Some x ∧ v = f x.
Proof.
  intros (i & x & [= -> ->] & Hi)%elem_of_list_to_map_2%elem_of_lookup_imap.
  by exists i, x.
Qed.

(** X19: when the parsed body is an array, [runJSON] gives no array but
    an object that has each element under its index written in decimal,
    beside [ok] and [status] from the response, and nothing else. *)
Theorem runJSON_array_body (w : World) this (response : Response) w' l :
  run this w = Some (Fulfilled response, w') →
  json response = Fulfilled (VArr l) →
  ∃ result,
    runJSON this w = Some (Fulfilled result, w') ∧
    (∀ i x, l !! i = Some x → result !! pretty i = Some x) ∧
    result !! "ok" = Some (VBool (ok response)) ∧
    result !! "status" = Some (VNum (status response)) ∧
    (∀ k v, result !! k = Some v →
       (k = "ok" ∧ v = VBool (ok response)) ∨
       (k = "status" ∧ v = VNum (status response)) ∨
       ∃ i, k = pretty i ∧ l !! i = Some v).
Proof.
  intros Hrun Hjson. exists (json_result response (VArr l)).
  split; [|split; [|split; [|split]]].
  - rewrite (runJSON_of_run _ _ _ _ _ Hrun). by rewrite Hjson.
  - intros i x Hi. rewrite json_result_lookup. cbn [own_props].
    by rewrite indexed_lookup, Hi.
  - rewrite json_result_lookup. cbn [own_props].
    rewrite indexed_lookup_None; [done|].
    intros i. apply pretty_nat_not_letter. vm_compute. lia.
  - rewrite json_result_lookup. cbn [own_props].
    rewrite indexed_lookup_None; [done|].
    intros i. apply pretty_nat_not_letter. vm_compute. lia.
  - intros k v. rewrite json_result_lookup. cbn [own_props].
    destruct (indexed id l !! k) as [v'|] eqn:Hk.
    + intros [= ->]. right. right.
      apply indexed_lookup_Some in Hk as (i & x & -> & Hi & ->). by exists i.
    + repeat case_decide; intros [= <-]; auto.
Qed.

(** X20: a builder run as soon as it is made sends the defaults of its
    factory: the method it was made for, no data, and as headers the
    empty object for the factories without data and
    [{ "Content-Type": "application/json" }] for those with data. *)
Theorem factory_then_run (w : World) m path :
  (∃ this w1 r w2,
     _METHODS_WO_DATA m path w = Some (this, w1) ∧
     run this w1 = Some (r, w2) ∧
     trace w2 = trace w ++
       [CallFetch (target_url (_baseUrl w) path)
          {[ "method" := VStr (HTTP.verb m); "headers" := VObj ∅ ]}
          VUndefined]) ∧
  (∃ this w1 r w2,
     _METHODS_WITH_DATA m path w = Some (this, w1) ∧
     run this w1 = Some (r, w2) ∧
     trace w2 = trace w ++
       [CallFetch (target_url (_baseUrl w) path)
          {[ "method" := VStr (HTTP.verb m);
             "headers" :=
               VObj {[ "Content-Type" := VStr "application/json" ]} ]}
          VUndefined]).
Proof.
  assert (∀ h0 : option Header,
    Forall (λ h, is_object h = true) (option_list h0) →
    ∃ this w1 r w2,
      new m path None (Single <$> h0) w = Some (this, w1) ∧
      run this w1 = Some (r, w2) ∧
      trace w2 = trace w ++
        [CallFetch (target_url (_baseUrl w) path)
           (request_init m (merge_headers (objects_of (option_list h0))) ∅)
           VUndefined]) as Hnew.
  { intros h0 Hs. unfold new.
    replace (match Single <$> h0 with
             | Some (Single h1) => alloc_array [h1] w
             | Some (Array a) => (a, w)
             | None => alloc_array [] w
             end) with (alloc_array (option_list h0) w) by by destruct h0.
    unfold alloc_array. cbn.
    set (a := fresh (dom (arrays w))).
    set (this := fresh (dom (instances w))).
    set (w1 := set_instances <[this := mkObj m a path ∅ VUndefined]>
                 (set_arrays <[a := option_list h0]> w)).
    assert (resolves w1 this (mkObj m a path ∅ VUndefined) w1
              (objects_of (option_list h0))) as Hres.
    { apply resolves_static with (hs := option_list h0); [| |done];
        cbn; apply lookup_insert_eq. }
    exists this, w1. do 2 eexists. split; [done|].
    assert (instances w1 !! this = Some (mkObj m a path ∅ VUndefined)) as Hb1
      by (cbn; apply lookup_insert_eq).
    split; [exact (run_resolved _fetch _ _ _ _ _ _ Hres Hb1)|done]. }
  assert (∀ hdrs, request_init m hdrs ∅ =
            {[ "method" := VStr (HTTP.verb m); "headers" := VObj hdrs ]}) as Hinit.
  { intros hdrs. unfold request_init, spread2. rewrite (left_id_L ∅ (∪)).
    by rewrite insert_insert_ne. }
  split.
  - destruct (Hnew None) as (this & w1 & r & w2 & H1 & H2 & H3); [constructor|].
    exists this, w1, r, w2. split; [done|]. split; [done|].
    by rewrite H3, Hinit.
  - destruct (Hnew (Some (HObject
                {[ "Content-Type" := VStr "application/json" ]})))
      as (this & w1 & r & w2 & H1 & H2 & H3); [by repeat constructor|].
    exists this, w1, r, w2. split; [done|]. split; [done|].
    rewrite H3, Hinit. cbn [option_list objects_of].
    unfold merge_headers, reduce, spread2. cbn.
    by rewrite (right_id_L ∅ (∪)).
Qed.

(** *** The curried function *)

(** X21: [fcf] always sends to the base URL followed by the path, with
    no scheme test: it agrees with the URL of [run] exactly when the
    path has no scheme or the base URL is empty. *)
Theorem fcf_never_bypasses_base baseUrl path opts body (w : World) r w' :
  fcf baseUrl path opts body w = (Normal r, w') →
  (∃ init, trace w' = trace w ++ [CallFetch (baseUrl +:+ path) init body]) ∧
  (baseUrl +:+ path = target_url baseUrl path ↔
   ¬ contains_scheme path ∨ baseUrl = "").
Proof.
  intros Hf. split.
  - unfold oof.fcf in Hf. destruct opts as [[o|f]|]; cbn in Hf.
    + destruct (_fetch _ _ _ _). injection Hf as _ <-. by eexists.
    + destruct (f (ext w)) as [[o|e] x]; [|done].
      destruct (_fetch _ _ _ _). injection Hf as _ <-. by eexists.
    + destruct (_fetch _ _ _ _). injection Hf as _ <-. by eexists.
  - unfold target_url. destruct (match_scheme path) eqn:Hp.
    + split.
      * intros ?%string_app_eq_r. by right.
      * intros [Hno| ->]; [|done]. by apply match_scheme_false in Hno; congruence.
    + split; [|done]. intros _. left. by apply match_scheme_false.
Qed.

(** An options function given to [fcf] is called at the last
    application: when it returns, the call is the one made with the
    object it returned, in the world it left; when it throws, the last
    application throws the same and the transport is not called. *)
Theorem fcf_options_function baseUrl path f body (w : World) :
  (∀ o x, f (ext w) = (Normal o, x) →
     fcf baseUrl path (Some (OFunction f)) body w =
       fcf baseUrl path (Some (OObject o)) body (set_ext x w)) ∧
  (∀ e x, f (ext w) = (Throw e, x) →
     ∃ w', fcf baseUrl path (Some (OFunction f)) body w = (Throw e, w') ∧
           trace w' = trace w ∧ ext w' = x).
Proof.
  split.
  - intros o x Hf. unfold oof.fcf. cbn. rewrite Hf. cbn.
    by destruct (_fetch _ _ _ _).
  - intros e x Hf. unfold oof.fcf. cbn. rewrite Hf. by eexists.
Qed.

(** X22: on a path without scheme, [run] is [fcf] applied to the base
    URL, the path, the options it has assembled and the data, once the
    header sources are resolved; the options record and the data are
    those the builder has by then. *)
Theorem run_as_fcf (w : World) this b w1 items :
  resolves w this b w1 items → ¬ contains_scheme (p_path b) →
  ∃ susp,
    run_until_await this w = Some (Normal susp, w1) ∧
    (∃ b1 r w',
       instances w1 !! this = Some b1 ∧
       run this w = Some (r, w') ∧
       fcf (_baseUrl w) (p_path b)
         (Some (OObject (request_init (p_method b) (merge_headers items)
                           (p_opts b1))))
         (p_data b1) w1 = (Normal r, w')) ∧
    ∀ w2 b2, instances w2 !! this = Some b2 →
      ∃ r w',
        run_from_await this susp w2 = Some (r, w') ∧
        fcf (_baseUrl w) (p_path b)
          (Some (OObject (request_init (p_method b) (merge_headers items)
                            (p_opts b2))))
          (p_data b2) w2 = (Normal r, w').
Proof.
  intros Hres Hno.
  destruct (run_suspends _ _ _ _ _ Hres) as (susp & Hu & Hurl & Hmeth & Hp).
  rewrite (proj2 (target_url_spec _ _) Hno) in Hurl.
  assert (∀ w2 b2, instances w2 !! this = Some b2 →
    ∃ r w',
      run_from_await this susp w2 = Some (r, w') ∧
      fcf (_baseUrl w) (p_path b)
        (Some (OObject (request_init (p_method b) (merge_headers items)
                          (p_opts b2))))
        (p_data b2) w2 = (Normal r, w')) as Hany.
  { intros w2 b2 Hb2.
    rewrite (run_from_await_resolved _fetch _ _ _ _ _ Hp Hb2). cbn zeta.
    rewrite Hurl, Hmeth. do 2 eexists. split; [done|]. unfold oof.fcf. cbn.
    by destruct (_fetch _ _ _ _). }
  exists susp. split; [done|]. split; [|done].
  destruct (resolves_builder _ _ _ _ _ Hres) as (b1 & Hb1 & _).
  destruct (Hany _ _ Hb1) as (r & w' & Hr & Hf).
  exists b1, r, w'. split; [done|]. split; [|done].
  by rewrite (run_resumes _fetch _ _ _ _ Hu).
Qed.

(** *** Scripts *)

Lemma steps_app xs ys (s : Session) :
  steps (xs ++ ys) s =
    match steps xs s with Some s' => steps ys s' | None => None end.
Proof.
  revert s; induction xs as [|c xs IH]; intros s; cbn; [done|].
  destruct (step c s); [apply IH|done].
Qed.

Lemma steps_plain_queue cs (w : World) q :
  Forall (λ c, terminal c = false ∧ c ≠ CAwait) cs →
  steps cs (w, q) =
    match steps cs (w, []) with Some s => Some (s.1, q) | None => None end ∧
  ∀ s, steps cs (w, []) = Some s → s.2 = [].
Proof.
  intros Hcs. revert w.
  induction Hcs as [|c cs [Hc Hw] Hcs IH]; intros w; cbn [oof.steps].
  { split; [done|]. by intros s [= <-]. }
  assert (∀ q', step c (w, q') =
            match plain c w with Some w' => Some (w', q') | None => None end)
    as Hstep by (intros q'; by destruct c).
  rewrite !Hstep. destruct (plain c w) as [w0|]; [|done].
  destruct (IH w0) as [-> Hq]. split; [done|]. exact Hq.
Qed.

Lemma steps_plain cs (w : World) q :
  Forall (λ c, terminal c = false ∧ c ≠ CAwait) cs →
  steps cs (w, q) =
    match exec cs w with Some w' => Some (w', q) | None => None end.
Proof.
  intros Hcs. destruct (steps_plain_queue cs w q Hcs) as [-> Hq].
  unfold oof.exec. destruct (oof.steps _fetch cs (w, [])) as [s|]; [|done].
  by rewrite (Hq s eq_refl).
Qed.

(** X23: the statements of a script that come between a terminal call
    and the point where the script waits, or its end, are executed
    before the call goes on: the call then reads the options record and
    the data these statements have left. *)
Theorem exec_run_then_await (w : World) this (susp : Suspended) w1 cs w2 :
  run_until_await this w = Some (Normal susp, w1) →
  Forall (λ c, terminal c = false ∧ c ≠ CAwait) cs →
  exec cs w1 = Some w2 →
  exec (CRun this :: cs ++ [CAwait]) w =
    world_after (run_from_await this susp w2) ∧
  exec (CRunJSON this :: cs ++ [CAwait]) w =
    world_after (run_from_await this susp w2) ∧
  exec (CRun this :: cs) w = world_after (run_from_await this susp w2) ∧
  ∀ b2 items, instances w2 !! this = Some b2 →
    promise_all (s_mapped susp) = Fulfilled items →
    ∃ w', exec (CRun this :: cs) w = Some w' ∧
          exec (CRun this :: cs ++ [CAwait]) w = Some w' ∧
          trace w' = trace w2 ++
            [CallFetch (s_url susp)
               (request_init (s_method susp) (merge_headers items) (p_opts b2))
               (p_data b2)].
Proof.
  intros Hu Hcs Hex.
  assert (∀ c, step c (w, []) = oof.start this (w, []) →
    exec (c :: cs ++ [CAwait]) w =
      world_after (run_from_await this susp w2) ∧
    exec (c :: cs) w = world_after (run_from_await this susp w2)) as Hgen.
  { intros c Hc. unfold oof.exec. cbn [oof.steps]. rewrite Hc.
    unfold oof.start. cbn [fst snd]. rewrite Hu. cbn [app].
    rewrite steps_app, (steps_plain _ _ _ Hcs), Hex. cbn.
    by destruct (oof.run_from_await _ _ _ _) as [[? ?]|]. }
  destruct (Hgen (CRun this) eq_refl) as [H1 H2].
  destruct (Hgen (CRunJSON this) eq_refl) as [H3 _].
  split; [done|]. split; [done|]. split; [done|].
  intros b2 items Hb2 Hp. rewrite H1, H2.
  destruct (run_from_await_sends _fetch _ _ _ _ _ Hp Hb2) as (w' & -> & Ht & _).
  by exists w'.
Qed.

End further.
(** ** The further properties on the concrete collaborators *)

Lemma new_shares_array_witness :
  arrays world_get_test !! 1%positive = Some [] ∧
  ∃ this w1 b,
    new HTTP.GET "/b" None (Some (Array 1%positive)) world_get_test =
      Some (this, w1) ∧
    instances world_get_test !! this = None ∧
    instances w1 !! this = Some b ∧ p_headers b = 1%positive ∧
    arrays w1 = arrays world_get_test ∧
    ∃ w2, header this last_header w1 = Some (this, w2) ∧
      arrays w2 !! 1%positive = Some ([] ++ [last_header]) ∧
      ∀ that b', instances world_get_test !! that = Some b' →
        p_headers b' = 1%positive →
        instances w2 !! that = Some b' ∧
        arrays w2 !! p_headers b' = Some ([] ++ [last_header]).
Proof.
  assert (arrays world_get_test !! 1%positive = Some []) as H by reflexivity.
  split; [exact H|].
  exact (new_shares_array world_get_test HTTP.GET "/b" None 1%positive []
           last_header H).
Defined.

Lemma new_isolated_witness :
  wf world_get_test ∧
  ∃ this w1 w2,
    new HTTP.POST "/b" None (Single <$> Some token_header) world_get_test =
      Some (this, w1) ∧
    header this last_header w1 = Some (this, w2) ∧
    _baseUrl w2 = _baseUrl world_get_test ∧ ext w2 = ext world_get_test ∧
    trace w2 = trace world_get_test ∧
    ∀ that b', instances world_get_test !! that = Some b' →
      that ≠ this ∧
      instances w2 !! that = Some b' ∧
      arrays w2 !! p_headers b' = arrays world_get_test !! p_headers b'.
Proof.
  assert (wf world_get_test) as H.
  { intros l b Hl. cbn in Hl. apply lookup_singleton_Some in Hl as [<- <-].
    by eexists. }
  split; [exact H|].
  exact (new_isolated world_get_test HTTP.POST "/b" None (Some token_header)
           last_header H).
Defined.

Lemma exec_defers_calls_witness :
  (exec demo_fetch
     [CSetBaseUrl "http://localhost:3000";
      CNew HTTP.POST "/test" None
        (Some (Single (HObject {[ "Content-Type" := VStr "application/json" ]})));
      CHeader 1%positive token_header;
      CHeader 1%positive async_header;
      CHeader 1%positive last_header]
     (init 0) = Some world_post_headers ∧
   Forall (λ c : @Call nat string, terminal c = false)
     [CSetBaseUrl "http://localhost:3000";
      CNew HTTP.POST "/test" None
        (Some (Single (HObject {[ "Content-Type" := VStr "application/json" ]})));
      CHeader 1%positive token_header;
      CHeader 1%positive async_header;
      CHeader 1%positive last_header]) ∧
  trace world_post_headers = trace (init 0 : @World nat string) ∧
  ext world_post_headers = ext (init 0 : @World nat string).
Proof.
  assert (exec demo_fetch
     [CSetBaseUrl "http://localhost:3000";
      CNew HTTP.POST "/test" None
        (Some (Single (HObject {[ "Content-Type" := VStr "application/json" ]})));
      CHeader 1%positive token_header;
      CHeader 1%positive async_header;
      CHeader 1%positive last_header]
     (init 0) = Some world_post_headers) as H1 by reflexivity.
  assert (Forall (λ c : @Call nat string, terminal c = false)
     [CSetBaseUrl "http://localhost:3000";
      CNew HTTP.POST "/test" None
        (Some (Single (HObject {[ "Content-Type" := VStr "application/json" ]})));
      CHeader 1%positive token_header;
      CHeader 1%positive async_header;
      CHeader 1%positive last_header]) as H2 by (repeat constructor).
  split; [exact (conj H1 H2)|].
  exact (exec_defers_calls demo_fetch _ _ _ H1 H2).
Defined.

Lemma exec_keeps_method_path_witness :
  (exec demo_fetch
     [COptions 1%positive {[ "cache" := VStr "no-cache" ]};
      CData 1%positive (VObj {[ "test" := VBool true ]});
      CHeader 1%positive token_header;
      CRun 1%positive; CAwait;
      CNew HTTP.GET "/other" None None]
     world_post_test =
     Some (mkWorld "http://localhost:3000"
             {[ 1%positive :=
                  mkObj HTTP.POST 1%positive "/test"
                    {[ "cache" := VStr "no-cache" ]}
                    (VObj {[ "test" := VBool true ]});
                2%positive :=
                  mkObj HTTP.GET 2%positive "/other" ∅ VUndefined ]}
             {[ 1%positive :=
                  [HObject {[ "Content-Type" := VStr "application/json" ]};
                   token_header];
                2%positive := [] ]}
             2
             [CallHeader 1;
              CallFetch "http://localhost:3000/test"
                (request_init HTTP.POST
                   {[ "Content-Type" := VStr "application/json";
                      "Authorization" := VStr "token" ]}
                   {[ "cache" := VStr "no-cache" ]})
                (VObj {[ "test" := VBool true ]})]) ∧
   instances world_post_test !! 1%positive = Some post_test) ∧
  ∃ b',
    instances
      (mkWorld "http://localhost:3000"
             {[ 1%positive :=
                  mkObj HTTP.POST 1%positive "/test"
                    {[ "cache" := VStr "no-cache" ]}
                    (VObj {[ "test" := VBool true ]});
                2%positive :=
                  mkObj HTTP.GET 2%positive "/other" ∅ VUndefined ]}
             {[ 1%positive :=
                  [HObject {[ "Content-Type" := VStr "application/json" ]};
                   token_header];
                2%positive := [] ]}
             2
             [CallHeader 1;
              CallFetch "http://localhost:3000/test"
                (request_init HTTP.POST
                   {[ "Content-Type" := VStr "application/json";
                      "Authorization" := VStr "token" ]}
                   {[ "cache" := VStr "no-cache" ]})
                (VObj {[ "test" := VBool true ]})] : @World nat string)
      !! 1%positive = Some b' ∧
    p_method b' = p_method post_test ∧ p_path b' = p_path post_test ∧
    p_headers b' = p_headers post_test.
Proof.
  match goal with |- (?A ∧ ?B) ∧ _ =>
    assert A as H1 by reflexivity; assert B as H2 by reflexivity end.
  split; [exact (conj H1 H2)|].
  exact (exec_keeps_method_path demo_fetch _ _ _ _ _ H1 H2).
Defined.

Lemma exec_sources_grow_witness :
  (exec demo_fetch
     [CHeader 1%positive token_header; CRun 1%positive; CAwait;
      CHeader 1%positive last_header]
     world_post_test =
     Some (mkWorld "http://localhost:3000" {[ 1%positive := post_test ]}
             {[ 1%positive :=
                  [HObject {[ "Content-Type" := VStr "application/json" ]};
                   token_header; last_header] ]}
             2
             [CallHeader 1;
              CallFetch "http://localhost:3000/test"
                (request_init HTTP.POST
                   {[ "Content-Type" := VStr "application/json";
                      "Authorization" := VStr "token" ]} ∅)
                VUndefined]) ∧
   arrays world_post_test !! 1%positive =
     Some [HObject {[ "Content-Type" := VStr "application/json" ]}]) ∧
  ∃ hs',
    arrays
      (mkWorld "http://localhost:3000" {[ 1%positive := post_test ]}
             {[ 1%positive :=
                  [HObject {[ "Content-Type" := VStr "application/json" ]};
                   token_header; last_header] ]}
             2
             [CallHeader 1;
              CallFetch "http://localhost:3000/test"
                (request_init HTTP.POST
                   {[ "Content-Type" := VStr "application/json";
                      "Authorization" := VStr "token" ]} ∅)
                VUndefined] : @World nat string)
      !! 1%positive =
    Some ([HObject {[ "Content-Type" := VStr "application/json" ]}] ++ hs').
Proof.
  match goal with |- (?A ∧ ?B) ∧ _ =>
    assert A as H1 by reflexivity; assert B as H2 by reflexivity end.
  split; [exact (conj H1 H2)|].
  exact (exec_sources_grow demo_fetch _ _ _ _ _ H1 H2).
Defined.

Lemma reachable_calls_return_witness :
  (exec demo_fetch [CNew HTTP.GET "/test" None None] (init 0) =
     Some world_get_nobase ∧
   instances world_get_nobase !! 1%positive = Some get_test) ∧
  (∃ r w', run demo_fetch 1%positive world_get_nobase = Some (r, w')) ∧
  (∃ r w', runJSON demo_fetch 1%positive world_get_nobase = Some (r, w')) ∧
  (∀ o, ∃ w', options 1%positive o world_get_nobase = Some (1%positive, w')) ∧
  (∀ h, ∃ w', header 1%positive h world_get_nobase = Some (1%positive, w')) ∧
  (∀ d, ∃ w', data 1%positive d world_get_nobase = Some (1%positive, w')).
Proof.
  match goal with |- (?A ∧ ?B) ∧ _ =>
    assert A as H1 by reflexivity; assert B as H2 by reflexivity end.
  split; [exact (conj H1 H2)|].
  exact (reachable_calls_return demo_fetch 0 _ _ _ _ H1 H2).
Defined.

Lemma run_twice_static_witness :
  (instances world_post_test !! 1%positive = Some post_test ∧
   arrays world_post_test !! p_headers post_test =
     Some [HObject {[ "Content-Type" := VStr "application/json" ]}] ∧
   Forall (λ h : @Header nat string, is_object h = true)
     [HObject {[ "Content-Type" := VStr "application/json" ]}]) ∧
  let url := target_url (_baseUrl world_post_test) (p_path post_test) in
  let init :=
    request_init (p_method post_test)
      (merge_headers
         (objects_of
            [HObject (Ext:=nat) (Err:=string)
               {[ "Content-Type" := VStr "application/json" ]}]))
      (p_opts post_test) in
  ∃ r1 w1 r2 w2,
    run demo_fetch 1%positive world_post_test = Some (r1, w1) ∧
    run demo_fetch 1%positive w1 = Some (r2, w2) ∧
    trace w2 = trace world_post_test ++
                 [CallFetch url init (p_data post_test);
                  CallFetch url init (p_data post_test)].
Proof.
  match goal with |- (?A ∧ ?B ∧ ?C) ∧ _ =>
    assert A as H1 by reflexivity; assert B as H2 by reflexivity;
    assert C as H3 by (repeat constructor) end.
  split; [exact (conj H1 (conj H2 H3))|].
  exact (run_twice_static demo_fetch _ _ _ _ H1 H2 H3).
Defined.

Lemma throw_stops_traversal_witness :
  (instances
     (mkWorld "" {[ 1%positive := get_test ]}
        {[ 1%positive := [token_header] ++ throwing_header :: [async_header] ]}
        0 [] : @World nat string) !! 1%positive = Some get_test ∧
   arrays
     (mkWorld "" {[ 1%positive := get_test ]}
        {[ 1%positive := [token_header] ++ throwing_header :: [async_header] ]}
        0 [] : @World nat string) !! p_headers get_test =
     Some ([token_header] ++
           HFunction (λ n, (Throw "no token", S n)) (λ _, [])
           :: [async_header]) ∧
   array_map [token_header] 0
     (mkWorld "" {[ 1%positive := get_test ]}
        {[ 1%positive := [token_header] ++ throwing_header :: [async_header] ]}
        0 [] : @World nat string) =
     (Normal [Now {[ "Authorization" := VStr "token" ]}],
      mkWorld "" {[ 1%positive := get_test ]}
        {[ 1%positive := [token_header] ++ throwing_header :: [async_header] ]}
        1 [CallHeader 0]) ∧
   ((λ n : nat, (Throw (A:=@Returned string) "no token", S n)) 1).1 =
     Throw "no token") ∧
  ∃ w1,
    run demo_fetch 1%positive
      (mkWorld "" {[ 1%positive := get_test ]}
        {[ 1%positive := [token_header] ++ throwing_header :: [async_header] ]}
        0 []) = Some (Rejected "no token", w1) ∧
    ext w1 = ((λ n : nat, (Throw (A:=@Returned string) "no token", S n)) 1).2 ∧
    trace w1 = [] ++ (CallHeader <$> callable_indices [token_header] 0)
                  ++ [CallHeader (length [token_header])].
Proof.
  match goal with |- (?A ∧ ?B ∧ ?C ∧ ?D) ∧ _ =>
    assert A as H1 by reflexivity; assert B as H2 by reflexivity;
    assert C as H3 by reflexivity; assert D as H4 by reflexivity end.
  split; [exact (conj H1 (conj H2 (conj H3 H4)))|].
  exact (throw_stops_traversal demo_fetch _ _ _ _ _ _ _ _ _ _ H1 H2 H3 H4).
Defined.

Lemma rejection_calls_all_witness :
  (instances
     (mkWorld "" {[ 1%positive := get_test ]}
        {[ 1%positive := [token_header; rejecting_header; async_header] ]}
        0 [] : @World nat string) !! 1%positive = Some get_test ∧
   arrays
     (mkWorld "" {[ 1%positive := get_test ]}
        {[ 1%positive := [token_header; rejecting_header; async_header] ]}
        0 [] : @World nat string) !! p_headers get_test =
     Some [token_header; rejecting_header; async_header] ∧
   array_map [token_header; rejecting_header; async_header] 0
     (mkWorld "" {[ 1%positive := get_test ]}
        {[ 1%positive := [token_header; rejecting_header; async_header] ]}
        0 [] : @World nat string) =
     (Normal [Now {[ "Authorization" := VStr "token" ]};
              Later (mkPromise 2 (Rejected "expired"));
              Later (mkPromise 1 (Fulfilled {[ "asyncHeader" := VStr "value" ]}))],
      mkWorld "" {[ 1%positive := get_test ]}
        {[ 1%positive := [token_header; rejecting_header; async_header] ]}
        3 [CallHeader 0; CallHeader 1; CallHeader 2]) ∧
   Later (mkPromise 2 (Rejected "expired")) ∈
     [Now {[ "Authorization" := VStr "token" ]};
      Later (mkPromise 2 (Rejected "expired"));
      Later (mkPromise (Err:=string) 1
               (Fulfilled {[ "asyncHeader" := VStr "value" ]}))]) ∧
  ∃ e',
    run demo_fetch 1%positive
      (mkWorld "" {[ 1%positive := get_test ]}
        {[ 1%positive := [token_header; rejecting_header; async_header] ]}
        0 []) =
      Some (Rejected e',
            mkWorld "" {[ 1%positive := get_test ]}
              {[ 1%positive := [token_header; rejecting_header; async_header] ]}
              3 [CallHeader 0; CallHeader 1; CallHeader 2]) ∧
    trace (mkWorld "" {[ 1%positive := get_test ]}
              {[ 1%positive := [token_header; rejecting_header; async_header] ]}
              3 [CallHeader 0; CallHeader 1; CallHeader 2] : @World nat string) =
      [] ++ (CallHeader <$>
               callable_indices
                 [token_header; rejecting_header; async_header] 0).
Proof.
  match goal with |- (?A ∧ ?B ∧ ?C ∧ ?D) ∧ _ =>
    assert A as H1 by reflexivity; assert B as H2 by reflexivity;
    assert C as H3 by reflexivity;
    assert D as H4 by (right; left) end.
  split; [exact (conj H1 (conj H2 (conj H3 H4)))|].
  exact (rejection_calls_all demo_fetch _ _ _ _ _ _ _ _ H1 H2 H3 H4).
Defined.

Lemma run_reinvokes_callables_witness :
  (arrays world_post_headers !! p_headers post_test =
     Some [HObject {[ "Content-Type" := VStr "application/json" ]};
       token_header; async_header; last_header] ∧
   resolves world_post_headers 1%positive post_test world_post_called
     post_items ∧
   run demo_fetch 1%positive world_post_headers =
     Some (Fulfilled not_found,
        (mkWorld "http://localhost:3000" {[ 1%positive := post_test ]}
           {[ 1%positive :=
                [HObject {[ "Content-Type" := VStr "application/json" ]};
                 token_header; async_header; last_header] ]}
           3
           [CallHeader 1; CallHeader 2;
            CallFetch "http://localhost:3000/test"
              (request_init HTTP.POST (merge_headers post_items) ∅) VUndefined] : @World nat string)) ∧
   resolves
        (mkWorld "http://localhost:3000" {[ 1%positive := post_test ]}
           {[ 1%positive :=
                [HObject {[ "Content-Type" := VStr "application/json" ]};
                 token_header; async_header; last_header] ]}
           3
           [CallHeader 1; CallHeader 2;
            CallFetch "http://localhost:3000/test"
              (request_init HTTP.POST (merge_headers post_items) ∅) VUndefined] : @World nat string)
     1%positive post_test
        (mkWorld "http://localhost:3000" {[ 1%positive := post_test ]}
           {[ 1%positive :=
                [HObject {[ "Content-Type" := VStr "application/json" ]};
                 token_header; async_header; last_header] ]}
           5
           [CallHeader 1; CallHeader 2;
            CallFetch "http://localhost:3000/test"
              (request_init HTTP.POST (merge_headers post_items) ∅) VUndefined;
            CallHeader 1; CallHeader 2] : @World nat string)
     post_items) ∧
  ∃ r' w'',
    run demo_fetch 1%positive
        (mkWorld "http://localhost:3000" {[ 1%positive := post_test ]}
           {[ 1%positive :=
                [HObject {[ "Content-Type" := VStr "application/json" ]};
                 token_header; async_header; last_header] ]}
           3
           [CallHeader 1; CallHeader 2;
            CallFetch "http://localhost:3000/test"
              (request_init HTTP.POST (merge_headers post_items) ∅) VUndefined] : @World nat string) = Some (r', w'') ∧
    header_calls (trace w'') =
      header_calls (trace world_post_headers) ++
      callable_indices (Ext:=nat) (Err:=string)
        [HObject {[ "Content-Type" := VStr "application/json" ]};
       token_header; async_header; last_header] 0 ++
      callable_indices (Ext:=nat) (Err:=string)
        [HObject {[ "Content-Type" := VStr "application/json" ]};
       token_header; async_header; last_header] 0 ∧
    length (fetch_calls (trace w'')) =
      2 + length (fetch_calls (trace world_post_headers)).
Proof.
  match goal with |- (?A ∧ ?B ∧ ?C ∧ ?D) ∧ _ =>
    assert A as H1 by reflexivity;
    assert B as H2
      by (split; [reflexivity|]; do 2 eexists; repeat split; reflexivity);
    assert C as H3 by reflexivity;
    assert D as H4
      by (split; [reflexivity|]; do 2 eexists; repeat split; reflexivity) end.
  split; [exact (conj H1 (conj H2 (conj H3 H4)))|].
  exact (run_reinvokes_callables demo_fetch _ _ _ _ _ _ _ _ _ _ _ H1 H2 H3 H4).
Defined.

Lemma runJSON_keys_witness :
  (run (λ _ _ _ n, (Fulfilled (mkResponse true 200 (Fulfilled VNull)), S n))
     1%positive world_get_test =
     Some (Fulfilled (mkResponse (Err:=string) true 200 (Fulfilled VNull)),
           world_get_fetched) ∧
   json (mkResponse (Err:=string) true 200 (Fulfilled VNull)) = Fulfilled VNull) ∧
  ∃ result,
    runJSON (λ _ _ _ n, (Fulfilled (mkResponse true 200 (Fulfilled VNull)), S n))
      1%positive world_get_test = Some (Fulfilled result, world_get_fetched) ∧
    dom result = {[ "ok"; "status" ]} ∪ dom (own_props VNull) ∧
    (True →
     result =
       {[ "ok" := VBool (ok (mkResponse (Err:=string) true 200 (Fulfilled VNull)));
          "status" :=
            VNum (status (mkResponse (Err:=string) true 200 (Fulfilled VNull))) ]}).
Proof.
  match goal with |- (?A ∧ ?B) ∧ _ =>
    assert A as H1 by reflexivity; assert B as H2 by reflexivity end.
  split; [exact (conj H1 H2)|].
  exact (runJSON_keys _ _ _ _ _ _ H1 H2).
Defined.

Lemma runJSON_array_body_witness :
  (run (λ _ _ _ n,
          (Fulfilled (mkResponse true 200
                        (Fulfilled (VArr [VNum 7; VStr "a"]))), S n))
     1%positive world_get_test =
     Some (Fulfilled (mkResponse (Err:=string) true 200
                        (Fulfilled (VArr [VNum 7; VStr "a"]))),
           world_get_fetched) ∧
   json (mkResponse (Err:=string) true 200
           (Fulfilled (VArr [VNum 7; VStr "a"]))) =
     Fulfilled (VArr [VNum 7; VStr "a"])) ∧
  ∃ result,
    runJSON (λ _ _ _ n,
          (Fulfilled (mkResponse true 200
                        (Fulfilled (VArr [VNum 7; VStr "a"]))), S n))
      1%positive world_get_test = Some (Fulfilled result, world_get_fetched) ∧
    (∀ i x, [VNum 7; VStr "a"] !! i = Some x → result !! pretty i = Some x) ∧
    result !! "ok" =
      Some (VBool (ok (mkResponse (Err:=string) true 200
                         (Fulfilled (VArr [VNum 7; VStr "a"]))))) ∧
    result !! "status" =
      Some (VNum (status (mkResponse (Err:=string) true 200
                            (Fulfilled (VArr [VNum 7; VStr "a"]))))) ∧
    (∀ k v, result !! k = Some v →
       (k = "ok" ∧
        v = VBool (ok (mkResponse (Err:=string) true 200
                         (Fulfilled (VArr [VNum 7; VStr "a"]))))) ∨
       (k = "status" ∧
        v = VNum (status (mkResponse (Err:=string) true 200
                            (Fulfilled (VArr [VNum 7; VStr "a"]))))) ∨
       ∃ i, k = pretty i ∧ [VNum 7; VStr "a"] !! i = Some v).
Proof.
  match goal with |- (?A ∧ ?B) ∧ _ =>
    assert A as H1 by reflexivity; assert B as H2 by reflexivity end.
  split; [exact (conj H1 H2)|].
  exact (runJSON_array_body _ _ _ _ _ _ H1 H2).
Defined.

(** An array body, as [runJSON] gives it back. *)
Example runJSON_array_example :
  runJSON (λ _ _ _ n,
          (Fulfilled (mkResponse true 200
                        (Fulfilled (VArr [VNum 7; VStr "a"]))), S n))
    1%positive world_get_test =
    Some (Fulfilled {[ "ok" := VBool true; "status" := VNum 200;
                       "0" := VNum 7; "1" := VStr "a" ]},
          world_get_fetched).
Proof. reflexivity. Qed.

Lemma fcf_never_bypasses_base_witness :
  fcf demo_fetch "http://localhost:3000" "https://example.org/x" None VUndefined
    (init 0) =
    (Normal (Fulfilled not_found),
     mkWorld "" ∅ ∅ 1
       [CallFetch "http://localhost:3000https://example.org/x" ∅ VUndefined]) ∧
  (∃ init0,
     trace (mkWorld "" ∅ ∅ 1
              [CallFetch "http://localhost:3000https://example.org/x" ∅
                 VUndefined] : @World nat string) =
       trace (init 0 : @World nat string) ++
       [CallFetch ("http://localhost:3000" +:+ "https://example.org/x")
          init0 VUndefined]) ∧
  ("http://localhost:3000" +:+ "https://example.org/x" =
     target_url "http://localhost:3000" "https://example.org/x" ↔
   ¬ contains_scheme "https://example.org/x" ∨ "http://localhost:3000" = "").
Proof.
  match goal with |- ?A ∧ _ => assert A as H1 by reflexivity end.
  split; [exact H1|].
  exact (fcf_never_bypasses_base demo_fetch _ _ _ _ _ _ _ H1).
Defined.

Lemma run_as_fcf_witness :
  (resolves world_get_signing 1%positive get_test world_get_signed
     [ {[ "X-Signed" := VStr "yes" ]} ] ∧
   ¬ contains_scheme (p_path get_test)) ∧
  ∃ r w',
    run demo_fetch 1%positive world_get_signing = Some (r, w') ∧
    fcf demo_fetch "http://localhost:3000" "/test"
      (Some (OObject (request_init HTTP.GET {[ "X-Signed" := VStr "yes" ]}
                        {[ "mode" := VStr "cors" ]})))
      (VStr "signed body") world_get_signed = (Normal r, w').
Proof.
  assert (resolves world_get_signing 1%positive get_test world_get_signed
            [ {[ "X-Signed" := VStr "yes" ]} ]) as H1.
  { split; [reflexivity|]. do 2 eexists. repeat split; reflexivity. }
  assert (¬ contains_scheme (p_path get_test)) as H2
    by (apply match_scheme_false; reflexivity).
  split; [exact (conj H1 H2)|].
  destruct (run_as_fcf demo_fetch _ _ _ _ _ H1 H2)
    as (susp & _ & (b1 & r & w' & Hb1 & Hr & Hf) & _).
  change (Some get_signed = Some b1) in Hb1. injection Hb1 as <-.
  exists r, w'. split; [exact Hr|exact Hf].
Defined.

Lemma options_last_wins_witness :
  instances world_post_test !! 1%positive = Some post_test ∧
  ∃ w2,
    and_then (options 1%positive {[ "cache" := VStr "no-cache" ]})
      (λ l, options l {[ "mode" := VStr "cors" ]}) world_post_test =
      Some (1%positive, w2) ∧
    ∃ b2, instances w2 !! 1%positive = Some b2 ∧
          p_opts b2 = {[ "mode" := VStr "cors" ]} ∧
          p_opts b2 !! "cache" = None.
Proof.
  assert (instances world_post_test !! 1%positive = Some post_test) as H
    by reflexivity.
  split; [exact H|].
  destruct (options_last_wins 1%positive {[ "cache" := VStr "no-cache" ]}
              {[ "mode" := VStr "cors" ]} world_post_test post_test H)
    as (w2 & Hc & _ & _ & (b2 & Hb2 & Ho & Hk) & _).
  exists w2. split; [exact Hc|]. exists b2. split; [exact Hb2|].
  split; [exact Ho|]. apply Hk. reflexivity.
Defined.

Lemma exec_run_then_await_witness :
  (run_until_await 1%positive world_get_test =
     Some (Normal (mkSuspended "http://localhost:3000/test" HTTP.GET []),
           world_get_test) ∧
   Forall (λ c : @Call nat string, terminal c = false ∧ c ≠ CAwait)
     [CData 1%positive (VStr "late");
      COptions 1%positive {[ "mode" := VStr "cors" ]}] ∧
   exec demo_fetch
     [CData 1%positive (VStr "late");
      COptions 1%positive {[ "mode" := VStr "cors" ]}]
     world_get_test =
     Some (mkWorld "http://localhost:3000"
             {[ 1%positive := mkObj HTTP.GET 1%positive "/test"
                                {[ "mode" := VStr "cors" ]} (VStr "late") ]}
             {[ 1%positive := [] ]} 0 [])) ∧
  ∃ w',
    exec demo_fetch
      [CRun 1%positive; CData 1%positive (VStr "late");
       COptions 1%positive {[ "mode" := VStr "cors" ]}; CAwait]
      world_get_test = Some w' ∧
    trace w' =
      [CallFetch "http://localhost:3000/test"
         (request_init HTTP.GET ∅ {[ "mode" := VStr "cors" ]})
         (VStr "late")].
Proof.
  match goal with |- (?A ∧ ?B ∧ ?C) ∧ _ =>
    assert A as H1 by reflexivity;
    assert B as H2 by (repeat constructor; discriminate);
    assert C as H3 by reflexivity end.
  split; [exact (conj H1 (conj H2 H3))|].
  destruct (exec_run_then_await demo_fetch _ _ _ _ _ _ H1 H2 H3)
    as (_ & _ & _ & Hsend).
  destruct (Hsend (mkObj HTTP.GET 1%positive "/test"
                     {[ "mode" := VStr "cors" ]} (VStr "late")) []
              eq_refl eq_refl) as (w' & _ & Hex & Ht).
  exists w'. split; [exact Hex|exact Ht].
Defined.


(** The demonstration script (part_000, lines 9-23): the base URL is
    assigned, then three [GET] builders are run with [runJSON], each
    call being awaited; the first two requests go to the same URL. *)
Example demo_script_requests :
  (λ w, (fetch_calls (trace w)).*1.*1) <$>
    exec demo_fetch
      [CSetBaseUrl "http://localhost:3000";
       CNew HTTP.GET "/test" None None; CRunJSON 1%positive; CAwait;
       CNew HTTP.GET "http://localhost:3000/test" None None;
       CRunJSON 2%positive; CAwait;
       CNew HTTP.GET "https://jsonplaceholder.typicode.com/todos/1" None None;
       CRunJSON 3%positive; CAwait]
      (init 0) =
  Some ["http://localhost:3000/test"; "http://localhost:3000/test";
        "https://jsonplaceholder.typicode.com/todos/1"].
Proof. vm_compute. reflexivity. Qed.


End oof.
